(** * Dominator-tree construction of VC4C (src/analysis/DominatorTree.cpp)

    A shallow embedding of [getDominatorCandidates] and
    [DominatorTree::createDominatorTree], followed by the properties of the
    construction: candidate extraction, the direct pass, the merge of
    dominator chains, termination on acyclic candidate relations and the
    shape of the resulting tree. *)

From Stdlib Require Import List Arith Bool Lia Permutation ZArith.
From Stdlib Require String.
Import ListNotations.

Set Implicit Arguments.

(** ** Data model *)

(** A CFG node is referred to by its address ([const CFGNode*]); addresses are
    modelled as natural numbers.  The null pointer used as the end marker of a
    dominator chain is [None]. *)
Abbreviation Key := nat (only parsing).
Abbreviation NodePtr := (option nat) (only parsing).

(** [CFGRelation]: the data attached to a CFG edge, as far as the analysis
    reads it. *)
Record CFGRelation := mkRelation {
  isBackEdge : Key -> bool;
  isWorkGroupLoop : bool
}.

(** One incoming edge as [forAllIncomingEdges] hands it to its callback: the
    predecessor node and the edge. *)
Record IncomingEdge := mkIncoming {
  predecessor : Key;
  data : CFGRelation
}.

Record CFGNode := mkNode {
  key : Key;
  incoming : list IncomingEdge
}.

(** [cfg.getNodes()], in the order in which the loop over it visits them. *)
Definition ControlFlowGraph := list CFGNode.

(** [FastAccessList<const CFGNode*>]: a dominator chain. *)
Abbreviation Chain := (list (option nat)) (only parsing).

Definition ptr_eqb (a b : NodePtr) : bool :=
  match a, b with
  | Some x, Some y => Nat.eqb x y
  | None, None => true
  | _, _ => false
  end.

(** ** Unordered containers

    [FastSet] and [FastMap] are hash containers.  A container is kept as the
    list of its entries in insertion order; [find] and [emplace] do not
    depend on any order. *)
Module Container.

Definition mem (k : Key) (s : list Key) : bool := existsb (Nat.eqb k) s.

(** [FastSet::emplace]: no effect when the element is present. *)
Definition emplaceSet (k : Key) (s : list Key) : list Key :=
  if mem k s then s else s ++ [k].

(** [FastSet::erase(key)]. *)
Definition eraseSet (k : Key) (s : list Key) : list Key :=
  filter (fun x => negb (Nat.eqb x k)) s.

Section Map.
Variable V : Type.

(** [FastMap::find]. *)
Fixpoint find (k : Key) (m : list (Key * V)) : option V :=
  match m with
  | [] => None
  | (k', v) :: m' => if Nat.eqb k k' then Some v else find k m'
  end.

(** [FastMap::emplace]: no effect when the key is present. *)
Definition emplace (k : Key) (v : V) (m : list (Key * V)) : list (Key * V) :=
  match find k m with
  | Some _ => m
  | None => m ++ [(k, v)]
  end.

(** Assignment through an iterator or reference to the entry of [k]. *)
Fixpoint update (k : Key) (f : V -> V) (m : list (Key * V)) : list (Key * V) :=
  match m with
  | [] => []
  | (k', v) :: m' =>
      if Nat.eqb k k' then (k', f v) :: m' else (k', v) :: update k f m'
  end.

Definition keys (m : list (Key * V)) : list Key := map fst m.

(** The entries of [m] in the order [ks] of their keys. *)
Fixpoint entriesIn (ks : list Key) (m : list (Key * V)) : list (Key * V) :=
  match ks with
  | [] => []
  | k :: ks' =>
      match find k m with
      | Some v => (k, v) :: entriesIn ks' m
      | None => entriesIn ks' m
      end
  end.
End Map.

End Container.
Import Container.

Unset Implicit Arguments.

(** ** The dominator tree *)

(** Modelled from the spec: the graph container behind [DominatorTree]
    (DominatorTree.h and Graph.h are not part of the sources at hand).  The
    tree is a directed graph over the CFG's node identities with an edge from
    an immediate dominator to the node it dominates; nodes are created on
    first reference. *)
Record DominatorTree := mkTree {
  nodes : list Key;
  edges : list (Key * Key)
}.

(** Modelled from the spec: the tree a new [DominatorTree] starts as, without
    nodes and edges. *)
Definition emptyTree : DominatorTree := mkTree [] [].

(** Modelled from the spec: [getOrCreateNode] creates the tree node of a key
    on first reference. *)
Definition getOrCreateNode (t : DominatorTree) (k : Key) : DominatorTree :=
  mkTree (emplaceSet k (nodes t)) (edges t).

(** Modelled from the spec: [assertNode] is the lookup that does not create;
    it fails for a key without tree node. *)
Definition assertNode (t : DominatorTree) (k : Key) : bool := mem k (nodes t).

(** Modelled from the spec: [parent.addEdge(&child, {})] records the tree
    edge parent -> child. *)
Definition addEdge (t : DominatorTree) (parent child : Key) : DominatorTree :=
  mkTree (nodes t) (edges t ++ [(parent, child)]).

(** The sources of the tree edges that enter [n]. *)
Definition parents (t : DominatorTree) (n : Key) : list Key :=
  map fst (filter (fun e => Nat.eqb (snd e) n) (edges t)).

(** ** Candidate extraction: [getDominatorCandidates] *)

Definition qualifies (e : IncomingEdge) : bool :=
  negb (isBackEdge (data e) (predecessor e)) && negb (isWorkGroupLoop (data e)).

Definition getDominatorCandidates (node : CFGNode) : list Key :=
  let possibleDominators :=
    fold_left
      (fun acc e => if qualifies e then emplaceSet (predecessor e) acc else acc)
      (incoming node) [] in
  eraseSet (key node) possibleDominators.

(** ** Merging dominator chains (the body of [if(allPredecessorsProcessed)]) *)

(** The predicate handed to [std::find_if]. *)
Definition chainMatches (c : Key) (chain : Chain) (node : NodePtr) : bool :=
  ptr_eqb (Some c) node || existsb (ptr_eqb node) chain.

(** [std::find_if] followed by [erase(begin, domIt)]: the list from its first
    entry that satisfies [p] on; [None] when [domIt] is the end. *)
Fixpoint dropUntil (p : NodePtr -> bool) (l : Chain) : option Chain :=
  match l with
  | [] => None
  | x :: l' => if p x then Some l else dropUntil p l'
  end.

(** The loop over the remaining predecessor chains; [None] is [loopAborted]. *)
Fixpoint mergeRemaining (rest : list (Key * Chain)) (dominatorCandidates : Chain)
  : option Chain :=
  match rest with
  | [] => Some dominatorCandidates
  | (c, chain) :: rest' =>
      match dropUntil (chainMatches c chain) dominatorCandidates with
      | None => None
      | Some l => mergeRemaining rest' l
      end
  end.

(** The working list after all candidates, when the loop was not aborted and
    the list is not empty.  The source dereferences [begin()] without a
    check; the map is never empty there, since a pending node has at least
    two candidates. *)
Definition mergeChains (predecessorDominatorChains : list (Key * Chain))
  : option Chain :=
  match predecessorDominatorChains with
  | [] => None
  | (c1, chain1) :: rest =>
      match mergeRemaining rest (Some c1 :: chain1) with
      | Some (first :: l) => Some (first :: l)
      | _ => None
      end
  end.

(** The loop that fills [predecessorDominatorChains] from the predecessors
    in the order given; [None] when the chain of one of them is not known yet
    ([allPredecessorsProcessed] is false). *)
Fixpoint collectChains (dominatorChains : list (Key * Chain)) (preds : list Key)
    (predecessorDominatorChains : list (Key * Chain))
  : option (list (Key * Chain)) :=
  match preds with
  | [] => Some predecessorDominatorChains
  | p :: preds' =>
      match find p dominatorChains with
      | None => None
      | Some ch =>
          collectChains dominatorChains preds' (emplace p ch predecessorDominatorChains)
      end
  end.

(** ** The builder *)

Record State := mkState {
  tree : DominatorTree;
  dominatorChains : list (Key * Chain);
  predecessors : list (Key * list Key)
}.

Inductive Outcome (A : Type) : Type :=
| Done : A -> Outcome A
| Throws : Outcome A
| OutOfFuel : Outcome A.
Arguments Done {A} _.
Arguments Throws {A}.
Arguments OutOfFuel {A}.

Definition initialState : State := mkState emptyTree [] [].

(** Step 1 of [createDominatorTree], the body of the loop over the CFG's
    nodes. *)
Definition directStep (st : State) (node : CFGNode) : State :=
  let t := getOrCreateNode (tree st) (key node) in
  let tmp := getDominatorCandidates node in
  match tmp with
  | [] =>
      mkState t (emplace (key node) [None] (dominatorChains st)) (predecessors st)
  | [c] =>
      let t' := addEdge (getOrCreateNode t c) c (key node) in
      let chains := emplace (key node) [Some c] (dominatorChains st) in
      let chains' :=
        match find c chains with
        | Some domChain => update (key node) (fun ch => ch ++ domChain) chains
        | None => chains
        end in
      mkState t' chains' (predecessors st)
  | _ =>
      mkState t (dominatorChains st) (emplace (key node) tmp (predecessors st))
  end.

Definition directPass (cfg : ControlFlowGraph) : State :=
  fold_left directStep cfg initialState.

(** The body of the loop that extends the chains, for the entry of [k].
    When the last entry of a chain is the chain's own key the source inserts
    a vector into itself; here the chain is doubled.  This cannot happen when
    the candidate relation is acyclic. *)
Definition extendChain (chains : list (Key * Chain)) (k : Key) : list (Key * Chain) :=
  match find k chains with
  | Some ch =>
      match last ch None with
      | Some back =>
          match find back chains with
          | Some other => update k (fun c => c ++ other) chains
          | None => chains
          end
      | None => chains
      end
  | None => chains
  end.

Section Builder.

(** The order in which a hash container enumerates its entries, as a
    function of the keys in insertion order.  The standard leaves it
    open; the properties below hold for every such order. *)
Variable bucketOrder : list Key -> list Key.

Definition extendChains (chains : list (Key * Chain)) : list (Key * Chain) :=
  fold_left extendChain (bucketOrder (keys chains)) chains.

(** The chains of the candidates of a pending node as the merge visits
    them: [predecessorDominatorChains] from [begin()] on. *)
Definition candidateChains (chains : list (Key * Chain)) (cands : list Key)
  : option (list (Key * Chain)) :=
  match collectChains chains (bucketOrder cands) [] with
  | Some pdc => Some (entriesIn (bucketOrder (keys pdc)) pdc)
  | None => None
  end.

(** One merge attempt for the pending node [n]: the new tree and chains
    when it resolves [n], [None] when [n] stays pending. *)
Definition mergeAttempt (t : DominatorTree) (chains : list (Key * Chain))
    (n : Key) (cands : list Key)
  : Outcome (option (DominatorTree * list (Key * Chain))) :=
  match candidateChains chains cands with
  | None => Done None
  | Some pdc =>
      match mergeChains pdc with
      | None => Done None
      | Some dominatorCandidates =>
          match hd None dominatorCandidates with
          | Some first =>
              if assertNode t first && assertNode t n
              then Done (Some (addEdge t first n, emplace n dominatorCandidates chains))
              else Throws
          | None => Done (Some (t, emplace n dominatorCandidates chains))
          end
      end
  end.

(** The inner [while] over the pending nodes: [todo] is what the iterator
    has not visited yet, [kept] what it has passed without erasing. *)
Fixpoint mergePass (t : DominatorTree) (chains : list (Key * Chain))
    (todo kept : list (Key * list Key)) : Outcome State :=
  match todo with
  | [] => Done (mkState t chains kept)
  | (n, cands) :: todo' =>
      match mergeAttempt t chains n cands with
      | Throws => Throws
      | OutOfFuel => OutOfFuel
      | Done None => mergePass t chains todo' (kept ++ [(n, cands)])
      | Done (Some (t', chains')) => mergePass t' chains' todo' kept
      end
  end.

(** One round of the outer [while]. *)
Definition resolveRound (st : State) : Outcome State :=
  mergePass (tree st) (extendChains (dominatorChains st)) (predecessors st) [].

(** Step 2, [while(!predecessors.empty())], run for at most [fuel] rounds. *)
Fixpoint resolveLoop (fuel : nat) (st : State) : Outcome State :=
  match predecessors st with
  | [] => Done st
  | _ :: _ =>
      match fuel with
      | 0 => OutOfFuel
      | S fuel' =>
          match resolveRound st with
          | Done st' => resolveLoop fuel' st'
          | Throws => Throws
          | OutOfFuel => OutOfFuel
          end
      end
  end.

(** The state in which step 2 starts: the pending map is enumerated in its
    bucket order from then on (erasing keeps the order of the rest). *)
Definition pendingState (cfg : ControlFlowGraph) : State :=
  let st := directPass cfg in
  mkState (tree st) (dominatorChains st)
          (entriesIn (bucketOrder (keys (predecessors st))) (predecessors st)).

Definition buildState (fuel : nat) (cfg : ControlFlowGraph) : Outcome State :=
  resolveLoop fuel (pendingState cfg).

Definition createDominatorTree (fuel : nat) (cfg : ControlFlowGraph)
  : Outcome DominatorTree :=
  match buildState fuel cfg with
  | Done st => Done (tree st)
  | Throws => Throws
  | OutOfFuel => OutOfFuel
  end.

End Builder.

(** ** Example graphs *)

Definition plainEdge (p : Key) : IncomingEdge :=
  mkIncoming p (mkRelation (fun _ => false) false).
Definition backEdgeFrom (p : Key) : IncomingEdge :=
  mkIncoming p (mkRelation (Nat.eqb p) false).
Definition workGroupEdge (p : Key) : IncomingEdge :=
  mkIncoming p (mkRelation (fun _ => false) true).

(** A -> B, A -> C, B -> D, C -> D with A = 1, B = 2, C = 3, D = 4. *)
Definition diamond : ControlFlowGraph :=
  [ mkNode 1 []; mkNode 2 [plainEdge 1]; mkNode 3 [plainEdge 1];
    mkNode 4 [plainEdge 2; plainEdge 3] ].

Definition insertionOrder (l : list Key) : list Key := l.

(** Two entries 1 and 2 that both lead to 3. *)
Definition twoRoots : ControlFlowGraph :=
  [ mkNode 1 []; mkNode 2 []; mkNode 3 [plainEdge 1; plainEdge 2] ].

(** 1 -> 2 over two parallel edges, a self loop at 2 and a back edge 3 -> 2. *)
Definition parallelEdges : ControlFlowGraph :=
  [ mkNode 1 [];
    mkNode 2 [plainEdge 1; plainEdge 2; backEdgeFrom 3; plainEdge 1];
    mkNode 3 [plainEdge 2] ].

(** 1 -> 2 -> 3 -> 4 with the back edge 3 -> 2. *)
Definition loopGraph : ControlFlowGraph :=
  [ mkNode 1 []; mkNode 2 [plainEdge 1; backEdgeFrom 3]; mkNode 3 [plainEdge 2];
    mkNode 4 [plainEdge 3] ].

(** An entry 1 and a loop 2 -> 3 -> 2 whose closing edge 3 -> 2 is not
    marked as a back edge. *)
Definition unflaggedLoop : ControlFlowGraph :=
  [ mkNode 1 []; mkNode 2 [plainEdge 1; plainEdge 3]; mkNode 3 [plainEdge 2] ].

(** A cycle 2 -> 3 -> 4 -> 2 of unmarked edges, and a node 5 that is entered
    from 2 and from 3. *)
Definition cycle3 : ControlFlowGraph :=
  [ mkNode 2 [plainEdge 4]; mkNode 3 [plainEdge 2]; mkNode 4 [plainEdge 3];
    mkNode 5 [plainEdge 2; plainEdge 3] ].

(** The cycle 2 -> 3 -> 2 of unmarked edges, without entry. *)
Definition bareCycle : ControlFlowGraph :=
  [ mkNode 2 [plainEdge 3]; mkNode 3 [plainEdge 2] ].

(** A header 2 that is entered only from the nodes 3 and 4 of its own loops,
    over unmarked edges. *)
Definition headerLoop : ControlFlowGraph :=
  [ mkNode 2 [plainEdge 3; plainEdge 4]; mkNode 3 [plainEdge 2];
    mkNode 4 [plainEdge 2] ].

(** An enumeration order that puts the key 3 in front. *)
Definition threeFirst (l : list Key) : list Key :=
  filter (Nat.eqb 3) l ++ filter (fun x => negb (Nat.eqb 3 x)) l.

(** ** Notions used in the statements *)

(** The fold inside [getDominatorCandidates], from any start. *)
Definition collectPossible (acc : list Key) (l : list IncomingEdge) : list Key :=
  fold_left (fun acc e => if qualifies e then emplaceSet (predecessor e) acc else acc)
            l acc.

(** What the direct pass adds to the parents of [n] when it visits [node]. *)
Definition directParent (n : Key) (node : CFGNode) : list Key :=
  match getDominatorCandidates node with
  | [c] => if Nat.eqb (key node) n then [c] else []
  | _ => []
  end.

(** Well-formedness of the representation: no two nodes share a key, and
    every dominator candidate is a node of the graph. *)
Definition uniqueKeys (cfg : ControlFlowGraph) : Prop := NoDup (map key cfg).

Definition closedCFG (cfg : ControlFlowGraph) : Prop :=
  forall node c, In node cfg -> In c (getDominatorCandidates node) -> In c (map key cfg).

(** The rounds keep the tree's nodes, add edges only into nodes that were
    pending, and only take nodes out of the pending map. *)
Definition growsFrom (st0 st : State) : Prop :=
  nodes (tree st) = nodes (tree st0) /\
  (exists extra, edges (tree st) = edges (tree st0) ++ extra /\
                 forall p x, In (p, x) extra -> In x (keys (predecessors st0))) /\
  incl (predecessors st) (predecessors st0).

(** The candidate relation has no cycle: some rank function decreases from
    every node to each of its candidates. *)
Definition ranked (rank : Key -> nat) (cfg : ControlFlowGraph) : Prop :=
  forall node c, In node cfg -> In c (getDominatorCandidates node) ->
                 rank c < rank (key node).

(** [reachable cfg entry n]: [n] is reached from [entry] over edges that
    make their source a dominator candidate of their target. *)
Inductive reachable (cfg : ControlFlowGraph) (entry : Key) : Key -> Prop :=
| reach_entry : reachable cfg entry entry
| reach_edge (node : CFGNode) (c : Key) :
    In node cfg -> In c (getDominatorCandidates node) ->
    reachable cfg entry c -> reachable cfg entry (key node).

(** The CFG has the single entry [entry]: a node without candidates from
    which every node is reached. *)
Definition singleEntry (cfg : ControlFlowGraph) (entry : Key) : Prop :=
  (exists node, In node cfg /\ key node = entry /\ getDominatorCandidates node = []) /\
  forall node, In node cfg -> reachable cfg entry (key node).

(** A node is resolved once its dominator chain is known. *)
Definition resolved (chains : list (Key * Chain)) (n : Key) : Prop :=
  find n chains <> None.

(** A chain is complete when it has reached the end marker. *)
Definition complete (ch : Chain) : Prop := In None ch.

(** [a] may be followed by [rest] in a list that climbs the tree: a node is
    followed by its only parent, or by the end marker when it is a resolved
    node without parent; nothing follows the end marker. *)
Definition link (t : DominatorTree) (chains : list (Key * Chain))
    (a : NodePtr) (rest : Chain) : Prop :=
  match a, rest with
  | Some x, Some p :: _ => parents t x = [p]
  | Some x, None :: _ => parents t x = [] /\ resolved chains x
  | Some _, [] => True
  | None, [] => True
  | None, _ :: _ => False
  end.

Fixpoint climbs (t : DominatorTree) (chains : list (Key * Chain)) (l : Chain) : Prop :=
  match l with
  | [] => True
  | a :: rest => link t chains a rest /\ climbs t chains rest
  end.

(** [anc t a x]: [a] is [x] or an ancestor of [x] in the tree. *)
Inductive anc (t : DominatorTree) (a : Key) : Key -> Prop :=
| anc_refl : anc t a a
| anc_step (p x : Key) : In (p, x) (edges t) -> anc t a p -> anc t a x.

(** What the construction keeps true of the tree and the chains. *)
Record TreeInv (cfg : ControlFlowGraph) (rank : Key -> nat)
    (t : DominatorTree) (chains : list (Key * Chain)) : Prop := mkTreeInv {
  inv_rank : forall p n, In (p, n) (edges t) -> rank p < rank n;
  inv_keys : forall p n, In (p, n) (edges t) -> In p (map key cfg) /\ In n (map key cfg);
  inv_child : forall p n, In (p, n) (edges t) -> resolved chains n;
  inv_unique : forall n, length (parents t n) <= 1;
  inv_chain : forall n ch, find n chains = Some ch ->
                           ch <> [] /\ climbs t chains (Some n :: ch);
  inv_resolved : forall n, resolved chains n -> In n (map key cfg)
}.

(** What holds of the whole state between two merge attempts. *)
Record RoundInv (cfg : ControlFlowGraph) (rank : Key -> nat) (st : State) : Prop :=
  mkRoundInv {
  ri_tree : TreeInv cfg rank (tree st) (dominatorChains st);
  ri_nodes : forall k, In k (map key cfg) -> In k (nodes (tree st));
  ri_pending : forall n cands, In (n, cands) (predecessors st) ->
    find n (dominatorChains st) = None /\
    exists node, In node cfg /\ key node = n /\
                 getDominatorCandidates node = cands /\ 2 <= length cands;
  ri_pending_NoDup : NoDup (keys (predecessors st));
  ri_cover : forall node, In node cfg ->
    resolved (dominatorChains st) (key node) \/ In (key node) (keys (predecessors st))
}.

(** Every node of rank below [r] is resolved with a complete chain. *)
Definition completeBelow (cfg : ControlFlowGraph) (rank : Key -> nat) (r : nat)
    (chains : list (Key * Chain)) : Prop :=
  forall node, In node cfg -> rank (key node) < r ->
               exists ch, find (key node) chains = Some ch /\ complete ch.

(** Every known chain of a node of rank at most [r] is complete. *)
Definition knownComplete (rank : Key -> nat) (r : nat)
    (chains : list (Key * Chain)) : Prop :=
  forall n ch, find n chains = Some ch -> rank n <= r -> complete ch.

(** [h] is the nearest common ancestor of [cands]: it is each candidate or
    one of its ancestors, and every node of which that is true is [h] or an
    ancestor of [h]. *)
Definition nearestCommon (t : DominatorTree) (cands : list Key) (h : Key) : Prop :=
  (forall c, In c cands -> anc t h c) /\
  (forall a, (forall c, In c cands -> anc t a c) -> anc t a h).

(** The candidates have no common ancestor, and never will: above each of
    them is a resolved node without parent. *)
Definition noCommon (t : DominatorTree) (chains : list (Key * Chain))
    (cands : list Key) : Prop :=
  (forall c, In c cands ->
             exists top, anc t top c /\ parents t top = [] /\ resolved chains top) /\
  (forall a, ~ (forall c, In c cands -> anc t a c)).

Definition mergeCorrect (t : DominatorTree) (chains : list (Key * Chain))
    (cands : list Key) (ps : list Key) : Prop :=
  match ps with
  | [] => noCommon t chains cands
  | [h] => nearestCommon t cands h
  | _ => False
  end.

(** Every resolved node with several candidates has their nearest common
    ancestor as parent. *)
Definition NcaInv (cfg : ControlFlowGraph) (st : State) : Prop :=
  forall node, In node cfg -> 2 <= length (getDominatorCandidates node) ->
    resolved (dominatorChains st) (key node) ->
    mergeCorrect (tree st) (dominatorChains st) (getDominatorCandidates node)
                 (parents (tree st) (key node)).

(** The tree after resolving a node with the working list [h :: _]. *)
Definition recordEdge (t : DominatorTree) (h : NodePtr) (n : Key) : DominatorTree :=
  match h with
  | Some first => addEdge t first n
  | None => t
  end.

(** Following parent links upwards, at most [steps] times. *)
Fixpoint walkUp (t : DominatorTree) (steps : nat) (n : Key) : Key :=
  match steps with
  | 0 => n
  | S steps' =>
      match parents t n with
      | [] => n
      | p :: _ => walkUp t steps' p
      end
  end.

(** A rank that counts the nodes of smaller rank; it stays below the number
    of nodes. *)
Definition countRank (rank : Key -> nat) (cfg : ControlFlowGraph) (k : Key) : nat :=
  length (filter (fun node => rank (key node) <? rank k) cfg).

(** ** The test helpers of test/emulation_helper.h

    A [std::array<T, N>] is a list, with the size [N] of the template given
    where the source uses it; an access outside the list, which the array
    type rules out, contributes nothing.  The calls of [onError] are
    collected in the order in which they are made.  [std::to_string], the
    operation under test and the comparison are parameters. *)
Module EmulationHelper.

Import String.
Local Open Scope string_scope.

(** The arguments [(expected, result)] of one call of [onError]. *)
Definition Report : Type := string * string.

(** [toString]: [std::accumulate] with [s + ", " + std::to_string(v)]. *)
Definition toString {T : Type} (to_string : T -> string) (container : list T) : string :=
  fold_left (fun s v => s ++ ", " ++ to_string v) container "".

Section Checks.

Variables Input Result : Type.
Variable compare : Result -> Result -> bool.
Variable inputToString : Input -> string.
Variable resultToString : Result -> string.
Variable opName : string.

Definition checkUnaryResults (N : nat) (input : list Input) (output : list Result)
    (op : Input -> Result) : list Report :=
  flat_map
    (fun i =>
       match nth_error input i, nth_error output i with
       | Some x, Some y =>
           if compare y (op x) then []
           else [ (opName ++ " " ++ inputToString x ++ " = " ++ resultToString (op x),
                   resultToString y) ]
       | _, _ => []
       end)
    (seq 0 N).

Definition checkBinaryResults (N : nat) (input0 input1 : list Input)
    (output : list Result) (op : Input -> Input -> Result) : list Report :=
  flat_map
    (fun i =>
       match nth_error input0 i, nth_error input1 i, nth_error output i with
       | Some x0, Some x1, Some y =>
           if compare y (op x0 x1) then []
           else [ (inputToString x0 ++ " " ++ opName ++ " " ++ inputToString x1 ++ " = "
                     ++ resultToString (op x0 x1),
                   resultToString y) ]
       | _, _, _ => []
       end)
    (seq 0 N).

Definition checkTernaryResults (N : nat) (input0 input1 input2 : list Input)
    (output : list Result) (op : Input -> Input -> Input -> Result) : list Report :=
  flat_map
    (fun i =>
       match nth_error input0 i, nth_error input1 i, nth_error input2 i,
             nth_error output i with
       | Some x0, Some x1, Some x2, Some y =>
           if compare y (op x0 x1 x2) then []
           else [ (inputToString x0 ++ " " ++ opName ++ " " ++ inputToString x1 ++ ", "
                     ++ inputToString x2 ++ " = " ++ resultToString (op x0 x1 x2),
                   resultToString y) ]
       | _, _, _, _ => []
       end)
    (seq 0 N).

(** The values of [i] in [for(i = 0; i < N; i += GroupSize)], from [i] on;
    [fuel] bounds the number of rounds. *)
Fixpoint groupStarts (GroupSize N fuel i : nat) : list nat :=
  match fuel with
  | 0 => []
  | S fuel' =>
      if Nat.ltb i N then i :: groupStarts GroupSize N fuel' (i + GroupSize) else []
  end.

(** [*reinterpret_cast<const std::array<T, GroupSize>*>(&a[i])]: the
    [GroupSize] entries of [a] from index [i] on. *)
Definition groupAt {T : Type} (GroupSize : nat) (a : list T) (i : nat) : list T :=
  firstn GroupSize (skipn i a).

Definition checkUnaryReducedResults (N GroupSize : nat) (input : list Input)
    (output : list Result) (op : list Input -> Result) : list Report :=
  flat_map
    (fun i =>
       let group := groupAt GroupSize input i in
       match nth_error output (i / GroupSize) with
       | Some y =>
           if compare y (op group) then []
           else [ (opName ++ " " ++ toString inputToString group ++ " = "
                     ++ resultToString (op group),
                   resultToString y) ]
       | None => []
       end)
    (groupStarts GroupSize N N 0).

End Checks.

Section GroupedChecks.

(** [checkUnaryGroupedResults] reads the groups of the output as arrays of
    [Input] and hands them to a comparison of arrays of [Result]: it is
    used with one type for both. *)
Variable T : Type.
Variable compareGroups : list T -> list T -> bool.
Variable to_string : T -> string.
Variable opName : string.

Definition checkUnaryGroupedResults (N GroupSize : nat) (input output : list T)
    (op : list T -> list T) : list Report :=
  flat_map
    (fun i =>
       let inputGroup := groupAt GroupSize input i in
       let outputGroup := groupAt GroupSize output i in
       if compareGroups outputGroup (op inputGroup) then []
       else [ (opName ++ " " ++ toString to_string inputGroup ++ " = "
                 ++ toString to_string (op inputGroup),
               toString to_string outputGroup) ])
    (groupStarts GroupSize N N 0).

End GroupedChecks.

Section Generate.

(** [generateInput] for an integral type.  The random numbers are taken
    from [draw]: [draw k] is what the [k]-th call [dis(gen)] returns. *)
Variable draw : nat -> Z.

(** [do { tmp = dis(gen); } while(!allowNull && tmp == 0);] from the [k]-th
    draw on: the value kept and the number of the next draw.  [fuel] bounds
    the number of draws. *)
Fixpoint drawElement (fuel : nat) (allowNull : bool) (k : nat) : option (Z * nat) :=
  match fuel with
  | 0 => None
  | S fuel' =>
      let tmp := draw k in
      if negb allowNull && Z.eqb tmp 0 then drawElement fuel' allowNull (S k)
      else Some (tmp, S k)
  end.

(** The [for] loop over the [n] entries that are still to be filled. *)
Fixpoint generateFrom (fuel : nat) (allowNull : bool) (n k : nat) : option (list Z) :=
  match n with
  | 0 => Some []
  | S n' =>
      match drawElement fuel allowNull k with
      | None => None
      | Some (tmp, k') =>
          match generateFrom fuel allowNull n' k' with
          | None => None
          | Some arr => Some (tmp :: arr)
          end
      end
  end.

Definition generateInput (fuel N : nat) (allowNull : bool) : option (list Z) :=
  generateFrom fuel allowNull N 0.

End Generate.

End EmulationHelper.

(** ** Facts about the containers *)

Section ContainerFacts.

Lemma mem_In (k : Key) (s : list Key) : mem k s = true <-> In k s.
Proof.
  unfold mem. rewrite existsb_exists. split.
  - intros [x [Hin Heq]]. apply Nat.eqb_eq in Heq. now subst.
  - intros Hin. exists k. split; [assumption | apply Nat.eqb_refl].
Qed.

Lemma mem_false_In (k : Key) (s : list Key) : mem k s = false <-> ~ In k s.
Proof.
  rewrite <- mem_In. destruct (mem k s); split; congruence.
Qed.

Lemma emplaceSet_In (k x : Key) (s : list Key) :
  In x (emplaceSet k s) <-> x = k \/ In x s.
Proof.
  unfold emplaceSet. destruct (mem k s) eqn:Hm.
  - apply mem_In in Hm. split; [tauto | intros [-> | H]; assumption].
  - rewrite in_app_iff. simpl. intuition.
Qed.

Lemma emplaceSet_NoDup (k : Key) (s : list Key) :
  NoDup s -> NoDup (emplaceSet k s).
Proof.
  intros Hnd. unfold emplaceSet. destruct (mem k s) eqn:Hm; [assumption|].
  apply mem_false_In in Hm.
  apply NoDup_app; [assumption | repeat constructor; simpl; tauto |].
  intros a Ha [<- | []]. contradiction.
Qed.

Lemma eraseSet_In (k x : Key) (s : list Key) :
  In x (eraseSet k s) <-> In x s /\ x <> k.
Proof.
  unfold eraseSet. rewrite filter_In, negb_true_iff, Nat.eqb_neq. tauto.
Qed.

Lemma eraseSet_NoDup (k : Key) (s : list Key) : NoDup s -> NoDup (eraseSet k s).
Proof. apply NoDup_filter. Qed.

Variable V : Type.
Implicit Types (m : list (Key * V)) (k : Key) (v : V).

Lemma find_In m k v : find k m = Some v -> In (k, v) m.
Proof.
  induction m as [|[k' v'] m IH]; simpl; [discriminate|].
  destruct (Nat.eqb k k') eqn:E.
  - apply Nat.eqb_eq in E. intros [= ->]. left. now subst.
  - intros H. right. auto.
Qed.

Lemma find_None_keys m k : find k m = None <-> ~ In k (keys m).
Proof.
  induction m as [|[k' v'] m IH]; simpl; [tauto|].
  destruct (Nat.eqb k k') eqn:E.
  - apply Nat.eqb_eq in E. subst. split; [discriminate | tauto].
  - apply Nat.eqb_neq in E. rewrite IH. intuition.
Qed.

Lemma find_Some_keys m k v : find k m = Some v -> In k (keys m).
Proof.
  intros H. apply find_In in H. unfold keys. now apply (in_map fst) in H.
Qed.

Lemma keys_find m k : In k (keys m) -> exists v, find k m = Some v.
Proof.
  intros H. destruct (find k m) eqn:E; [eauto|].
  apply find_None_keys in E. contradiction.
Qed.

Lemma find_app m m' k :
  find k (m ++ m') = match find k m with Some v => Some v | None => find k m' end.
Proof.
  induction m as [|[k' v'] m IH]; simpl; [reflexivity|].
  destruct (Nat.eqb k k'); auto.
Qed.

Lemma find_emplace m k v k' :
  find k' (emplace k v m) =
  match find k' m with
  | Some x => Some x
  | None => if Nat.eqb k' k then Some v else None
  end.
Proof.
  unfold emplace. destruct (find k m) eqn:E.
  - destruct (find k' m) eqn:E'; [reflexivity|].
    destruct (Nat.eqb k' k) eqn:Ek; [|reflexivity].
    apply Nat.eqb_eq in Ek. congruence.
  - rewrite find_app. simpl. reflexivity.
Qed.

Lemma find_emplace_new m k v : find k m = None -> find k (emplace k v m) = Some v.
Proof. intros H. rewrite find_emplace, H, Nat.eqb_refl. reflexivity. Qed.

Lemma find_emplace_other m k v k' :
  k' <> k -> find k' (emplace k v m) = find k' m.
Proof.
  intros H. rewrite find_emplace. apply Nat.eqb_neq in H. rewrite H.
  now destruct (find k' m).
Qed.

Lemma keys_emplace m k v x : In x (keys (emplace k v m)) <-> x = k \/ In x (keys m).
Proof.
  unfold emplace. destruct (find k m) eqn:E.
  - apply find_Some_keys in E. split; [tauto | intros [-> | H]; assumption].
  - unfold keys. rewrite map_app, in_app_iff. simpl. intuition.
Qed.

Lemma keys_emplace_NoDup m k v : NoDup (keys m) -> NoDup (keys (emplace k v m)).
Proof.
  intros Hnd. unfold emplace. destruct (find k m) eqn:E; [assumption|].
  apply find_None_keys in E. unfold keys in *. rewrite map_app. simpl.
  apply NoDup_app; [assumption | repeat constructor; simpl; tauto |].
  intros a Ha [<- | []]. contradiction.
Qed.

Lemma find_update m k f k' :
  find k' (update k f m) =
  if Nat.eqb k' k then option_map f (find k' m) else find k' m.
Proof.
  induction m as [|[k0 v0] m IH]; simpl.
  - now destruct (Nat.eqb k' k).
  - destruct (Nat.eqb k k0) eqn:E; simpl.
    + apply Nat.eqb_eq in E. subst k0.
      destruct (Nat.eqb k' k) eqn:E'; reflexivity.
    + destruct (Nat.eqb k' k0) eqn:E0.
      * apply Nat.eqb_eq in E0. subst k0.
        rewrite Nat.eqb_sym in E. now rewrite E.
      * apply IH.
Qed.

Lemma keys_update m k f : keys (update k f m) = keys m.
Proof.
  induction m as [|[k0 v0] m IH]; simpl; [reflexivity|].
  destruct (Nat.eqb k k0); simpl; [reflexivity | now rewrite IH].
Qed.

Lemma entriesIn_In ks m k v :
  In (k, v) (entriesIn ks m) <-> In k ks /\ find k m = Some v.
Proof.
  induction ks as [|k0 ks IH]; simpl; [tauto|].
  destruct (find k0 m) eqn:E; simpl; rewrite IH; split.
  - intros [[= -> ->] | [H1 H2]]; auto.
  - intros [[-> | H1] H2]; [left; congruence | auto].
  - intros [H1 H2]; auto.
  - intros [[-> | H1] H2]; [congruence | auto].
Qed.

Lemma entriesIn_keys_incl ks m : incl (keys (entriesIn ks m)) ks.
Proof.
  induction ks as [|k0 ks IH]; simpl; [easy|].
  destruct (find k0 m); simpl.
  - intros x [<- | H]; [now left | right; auto].
  - intros x H. right. auto.
Qed.

Lemma entriesIn_NoDup ks m : NoDup ks -> NoDup (keys (entriesIn ks m)).
Proof.
  induction 1 as [|k0 ks Hn Hnd IH]; simpl; [constructor|].
  destruct (find k0 m); simpl; [|assumption].
  constructor; [|assumption].
  intros H. apply Hn. now apply (entriesIn_keys_incl ks m).
Qed.

End ContainerFacts.

(** ** Candidate extraction *)


Lemma collectPossible_In (l : list IncomingEdge) (acc : list Key) (p : Key) :
  In p (collectPossible acc l) <->
  In p acc \/ exists e, In e l /\ qualifies e = true /\ predecessor e = p.
Proof.
  unfold collectPossible. revert acc.
  induction l as [|e l IH]; intros acc; simpl.
  - split; [tauto | intros [H | [e [[] _]]]; assumption].
  - rewrite IH. destruct (qualifies e) eqn:Q.
    + rewrite emplaceSet_In. split.
      * intros [[-> | H] | [e' [H1 H2]]]; eauto 6.
      * intros [H | [e' [[<- | H1] [H2 H3]]]]; eauto 6.
    + split.
      * intros [H | [e' [H1 H2]]]; eauto 6.
      * intros [H | [e' [[<- | H1] [H2 H3]]]]; eauto 6. congruence.
Qed.

Lemma collectPossible_NoDup (l : list IncomingEdge) (acc : list Key) :
  NoDup acc -> NoDup (collectPossible acc l).
Proof.
  unfold collectPossible. revert acc.
  induction l as [|e l IH]; intros acc Hnd; simpl; [assumption|].
  apply IH. destruct (qualifies e); [now apply emplaceSet_NoDup | assumption].
Qed.

Lemma qualifies_spec (e : IncomingEdge) :
  qualifies e = true <->
  isBackEdge (data e) (predecessor e) = false /\ isWorkGroupLoop (data e) = false.
Proof.
  unfold qualifies. rewrite andb_true_iff, !negb_true_iff. tauto.
Qed.

Lemma candidates_NoDup (node : CFGNode) : NoDup (getDominatorCandidates node).
Proof.
  unfold getDominatorCandidates. apply eraseSet_NoDup.
  apply (collectPossible_NoDup (incoming node)). constructor.
Qed.

Lemma candidates_In (node : CFGNode) (p : Key) :
  In p (getDominatorCandidates node) <->
  (exists e, In e (incoming node) /\ qualifies e = true /\ predecessor e = p)
  /\ p <> key node.
Proof.
  unfold getDominatorCandidates. rewrite eraseSet_In.
  fold (collectPossible [] (incoming node)).
  rewrite collectPossible_In. simpl. tauto.
Qed.

Lemma candidates_not_self (node : CFGNode) : ~ In (key node) (getDominatorCandidates node).
Proof. rewrite candidates_In. tauto. Qed.

Lemma NoDup_all_same (x : Key) (l : list Key) :
  NoDup l -> In x l -> (forall y, In y l -> y = x) -> l = [x].
Proof.
  intros Hnd Hin Hall. destruct l as [|a l]; [contradiction|].
  assert (a = x) by (apply Hall; now left). subst a.
  destruct l as [|b l]; [reflexivity|].
  assert (b = x) by (apply Hall; right; now left). subst b.
  inversion Hnd as [|? ? Hn _]. exfalso. apply Hn. now left.
Qed.

Lemma candidates_single (node : CFGNode) (p : Key) :
  p <> key node ->
  (exists e, In e (incoming node) /\ qualifies e = true /\ predecessor e = p) ->
  (forall e, In e (incoming node) -> qualifies e = true ->
             predecessor e <> key node -> predecessor e = p) ->
  getDominatorCandidates node = [p].
Proof.
  intros Hne Hex Hall. apply NoDup_all_same.
  - apply candidates_NoDup.
  - apply candidates_In. tauto.
  - intros y Hy. apply candidates_In in Hy.
    destruct Hy as [[e [Hin [Hq Hp]]] Hy]. subst y. symmetry.
    symmetry. now apply Hall.
Qed.

(** ** The direct pass (step 1) *)


Lemma parents_addEdge (t : DominatorTree) (p c n : Key) :
  parents (addEdge t p c) n = parents t n ++ (if Nat.eqb c n then [p] else []).
Proof.
  unfold parents, addEdge. simpl. rewrite filter_app, map_app. simpl.
  now destruct (Nat.eqb c n).
Qed.

Lemma parents_getOrCreateNode (t : DominatorTree) (k n : Key) :
  parents (getOrCreateNode t k) n = parents t n.
Proof. reflexivity. Qed.

Lemma parents_In (t : DominatorTree) (p n : Key) :
  In p (parents t n) <-> In (p, n) (edges t).
Proof.
  unfold parents. rewrite in_map_iff. split.
  - intros [[p' n'] [Hp Hin]]. simpl in Hp. subst p'.
    apply filter_In in Hin. destruct Hin as [Hin Heq]. simpl in Heq.
    apply Nat.eqb_eq in Heq. now subst.
  - intros Hin. exists (p, n). split; [reflexivity|].
    apply filter_In. split; [assumption | apply Nat.eqb_refl].
Qed.

Lemma directStep_parents (st : State) (node : CFGNode) (n : Key) :
  parents (tree (directStep st node)) n = parents (tree st) n ++ directParent n node.
Proof.
  unfold directStep, directParent.
  destruct (getDominatorCandidates node) as [|c [|c' l]]; simpl.
  - now rewrite parents_getOrCreateNode, app_nil_r.
  - rewrite parents_addEdge. reflexivity.
  - now rewrite parents_getOrCreateNode, app_nil_r.
Qed.

Lemma directStep_nodes (st : State) (node : CFGNode) (k : Key) :
  In k (nodes (tree (directStep st node))) <->
  In k (nodes (tree st)) \/ k = key node \/ getDominatorCandidates node = [k].
Proof.
  unfold directStep.
  destruct (getDominatorCandidates node) as [|c [|c' l]]; simpl;
    rewrite ?emplaceSet_In; split; intros H;
    repeat match goal with
           | H : _ \/ _ |- _ => destruct H
           | H : _ = [_] |- _ => inversion H; clear H; subst
           end; subst; auto; try discriminate.
Qed.

Lemma directStep_nodes_NoDup (st : State) (node : CFGNode) :
  NoDup (nodes (tree st)) -> NoDup (nodes (tree (directStep st node))).
Proof.
  intros H. unfold directStep.
  destruct (getDominatorCandidates node) as [|c [|c' l]]; simpl;
    repeat apply emplaceSet_NoDup; assumption.
Qed.

Lemma directStep_pending (st : State) (node : CFGNode) (k : Key) (cands : list Key) :
  In (k, cands) (predecessors (directStep st node)) ->
  In (k, cands) (predecessors st) \/
  (k = key node /\ cands = getDominatorCandidates node /\ 2 <= length cands).
Proof.
  unfold directStep.
  destruct (getDominatorCandidates node) as [|c [|c' l]] eqn:E; simpl; auto.
  unfold emplace. destruct (find (key node) (predecessors st)); auto.
  rewrite in_app_iff. simpl. intros [H | [[= <- <-] | []]]; auto.
  right. simpl. repeat split. lia.
Qed.

Lemma directStep_pending_keys (st : State) (node : CFGNode) (k : Key) :
  In k (keys (predecessors (directStep st node))) <->
  In k (keys (predecessors st)) \/
  (k = key node /\ 2 <= length (getDominatorCandidates node)).
Proof.
  unfold directStep.
  destruct (getDominatorCandidates node) as [|c [|c' l]] eqn:E; simpl.
  - split; [auto | intros [H | [_ H]]; [assumption | lia]].
  - split; [auto | intros [H | [_ H]]; [assumption | lia]].
  - rewrite keys_emplace. split; intros [H | H]; auto.
    + right. split; [assumption | lia].
    + left. tauto.
Qed.

Lemma directStep_pending_NoDup (st : State) (node : CFGNode) :
  NoDup (keys (predecessors st)) -> NoDup (keys (predecessors (directStep st node))).
Proof.
  intros H. unfold directStep.
  destruct (getDominatorCandidates node) as [|c [|c' l]]; simpl; try assumption.
  now apply keys_emplace_NoDup.
Qed.

Lemma directStep_chain_keys (st : State) (node : CFGNode) (k : Key) :
  In k (keys (dominatorChains (directStep st node))) <->
  In k (keys (dominatorChains st)) \/
  (k = key node /\ length (getDominatorCandidates node) <= 1).
Proof.
  unfold directStep.
  destruct (getDominatorCandidates node) as [|c [|c' l]] eqn:E; simpl.
  - rewrite keys_emplace. split; intros [H | H]; auto. tauto.
  - destruct (find c (emplace (key node) [Some c] (dominatorChains st)));
      rewrite ?keys_update, keys_emplace; split; intros [H | H]; auto; tauto.
  - split; [auto | intros [H | [_ H]]; [assumption | lia]].
Qed.

(** The state after the direct pass over [done], started in [st]. *)
Section DirectPass.

Variable st0 : State.

Lemma directFold_parents (l : list CFGNode) (n : Key) :
  parents (tree (fold_left directStep l st0)) n =
  parents (tree st0) n ++ flat_map (directParent n) l.
Proof.
  revert st0. induction l as [|node l IH]; intros st; simpl.
  - now rewrite app_nil_r.
  - rewrite IH, directStep_parents, <- app_assoc. reflexivity.
Qed.

Lemma directFold_nodes (l : list CFGNode) (k : Key) :
  In k (nodes (tree (fold_left directStep l st0))) <->
  In k (nodes (tree st0)) \/
  exists node, In node l /\ (k = key node \/ getDominatorCandidates node = [k]).
Proof.
  revert st0. induction l as [|node l IH]; intros st; simpl.
  - split; [auto | intros [H | [x [[] _]]]; assumption].
  - rewrite IH, directStep_nodes. split.
    + intros [[H | H] | [x [H1 H2]]]; eauto 6.
    + intros [H | [x [[<- | H1] H2]]]; eauto 6.
Qed.

Lemma directFold_nodes_NoDup (l : list CFGNode) :
  NoDup (nodes (tree st0)) -> NoDup (nodes (tree (fold_left directStep l st0))).
Proof.
  revert st0. induction l as [|node l IH]; intros st H; simpl; [assumption|].
  apply IH. now apply directStep_nodes_NoDup.
Qed.

Lemma directFold_pending (l : list CFGNode) (k : Key) (cands : list Key) :
  In (k, cands) (predecessors (fold_left directStep l st0)) ->
  In (k, cands) (predecessors st0) \/
  exists node, In node l /\ k = key node /\ cands = getDominatorCandidates node
               /\ 2 <= length cands.
Proof.
  revert st0. induction l as [|node l IH]; intros st; simpl; [auto|].
  intros H. apply IH in H. destruct H as [H | [x [H1 H2]]]; [|eauto 6].
  apply directStep_pending in H. destruct H as [H | H]; eauto 6.
Qed.

Lemma directFold_pending_keys (l : list CFGNode) (k : Key) :
  In k (keys (predecessors (fold_left directStep l st0))) <->
  In k (keys (predecessors st0)) \/
  exists node, In node l /\ k = key node /\ 2 <= length (getDominatorCandidates node).
Proof.
  revert st0. induction l as [|node l IH]; intros st; simpl.
  - split; [auto | intros [H | [x [[] _]]]; assumption].
  - rewrite IH, directStep_pending_keys. split.
    + intros [[H | H] | [x [H1 H2]]]; eauto 6.
    + intros [H | [x [[<- | H1] H2]]]; eauto 6.
Qed.

Lemma directFold_pending_NoDup (l : list CFGNode) :
  NoDup (keys (predecessors st0)) ->
  NoDup (keys (predecessors (fold_left directStep l st0))).
Proof.
  revert st0. induction l as [|node l IH]; intros st H; simpl; [assumption|].
  apply IH. now apply directStep_pending_NoDup.
Qed.

Lemma directFold_chain_keys (l : list CFGNode) (k : Key) :
  In k (keys (dominatorChains (fold_left directStep l st0))) <->
  In k (keys (dominatorChains st0)) \/
  exists node, In node l /\ k = key node /\ length (getDominatorCandidates node) <= 1.
Proof.
  revert st0. induction l as [|node l IH]; intros st; simpl.
  - split; [auto | intros [H | [x [[] _]]]; assumption].
  - rewrite IH, directStep_chain_keys. split.
    + intros [[H | H] | [x [H1 H2]]]; eauto 6.
    + intros [H | [x [[<- | H1] H2]]]; eauto 6.
Qed.

End DirectPass.


Lemma uniqueKeys_node (cfg : ControlFlowGraph) (a b : CFGNode) :
  uniqueKeys cfg -> In a cfg -> In b cfg -> key a = key b -> a = b.
Proof.
  unfold uniqueKeys. induction cfg as [|x cfg IH]; simpl; [contradiction|].
  intros Hnd Ha Hb Hk. inversion Hnd as [|? ? Hn Hnd']; subst.
  destruct Ha as [<- | Ha], Hb as [<- | Hb]; auto.
  - exfalso. apply Hn. rewrite Hk. now apply in_map.
  - exfalso. apply Hn. rewrite <- Hk. now apply in_map.
Qed.

Lemma directParent_unique (cfg : ControlFlowGraph) (node : CFGNode) :
  uniqueKeys cfg -> In node cfg ->
  flat_map (directParent (key node)) cfg =
  match getDominatorCandidates node with [c] => [c] | _ => [] end.
Proof.
  unfold uniqueKeys. induction cfg as [|x cfg IH]; simpl; [contradiction|].
  intros Hnd Hin. inversion Hnd as [|? ? Hn Hnd']; subst.
  assert (Hother : forall l, ~ In (key node) (map key l) ->
                             flat_map (directParent (key node)) l = []).
  { induction l as [|y l IHl]; simpl; [reflexivity|]. intros Hy.
    rewrite IHl by tauto. unfold directParent.
    destruct (getDominatorCandidates y) as [|c [|c' r]]; try reflexivity.
    destruct (Nat.eqb (key y) (key node)) eqn:E; [|reflexivity].
    apply Nat.eqb_eq in E. tauto. }
  destruct Hin as [<- | Hin].
  - rewrite Hother by assumption. unfold directParent.
    rewrite Nat.eqb_refl, app_nil_r.
    now destruct (getDominatorCandidates x) as [|c [|c' r]].
  - rewrite IH by assumption.
    assert (key x <> key node).
    { intros E. apply Hn. rewrite E. now apply in_map. }
    unfold directParent at 1.
    destruct (getDominatorCandidates x) as [|c [|c' r]]; try reflexivity.
    apply Nat.eqb_neq in H. now rewrite H.
Qed.

Lemma directPass_parents (cfg : ControlFlowGraph) (node : CFGNode) :
  uniqueKeys cfg -> In node cfg ->
  parents (tree (directPass cfg)) (key node) =
  match getDominatorCandidates node with [c] => [c] | _ => [] end.
Proof.
  intros Hu Hin. unfold directPass. rewrite directFold_parents. simpl.
  now apply directParent_unique.
Qed.

Lemma directPass_pending_multi (cfg : ControlFlowGraph) (node : CFGNode) :
  uniqueKeys cfg -> In node cfg ->
  In (key node) (keys (predecessors (directPass cfg))) ->
  2 <= length (getDominatorCandidates node).
Proof.
  intros Hu Hin Hp. unfold directPass in Hp. apply directFold_pending_keys in Hp.
  destruct Hp as [[] | [x [Hx [Hk Hl]]]].
  now rewrite (uniqueKeys_node cfg node x Hu Hin Hx Hk).
Qed.

Lemma directPass_nodes (cfg : ControlFlowGraph) :
  closedCFG cfg ->
  NoDup (nodes (tree (directPass cfg))) /\
  forall k, In k (nodes (tree (directPass cfg))) <-> In k (map key cfg).
Proof.
  intros Hc. unfold directPass. split.
  - apply directFold_nodes_NoDup. constructor.
  - intros k. rewrite directFold_nodes. simpl. split.
    + intros [[] | [node [Hin [-> | Hk]]]]; [now apply in_map|].
      apply (Hc node k Hin). rewrite Hk. now left.
    + intros Hk. right. apply in_map_iff in Hk. destruct Hk as [node [<- Hin]].
      eauto.
Qed.

(** ** The merge rounds (step 2): how a round changes the state *)

Section Rounds.

Variable bucketOrder : list Key -> list Key.
Hypothesis bucketOrder_perm : forall l, Permutation (bucketOrder l) l.

Lemma bucketOrder_In (l : list Key) (k : Key) : In k (bucketOrder l) <-> In k l.
Proof.
  split; apply Permutation_in;
    [apply bucketOrder_perm | apply Permutation_sym, bucketOrder_perm].
Qed.

Lemma bucketOrder_NoDup (l : list Key) : NoDup l -> NoDup (bucketOrder l).
Proof.
  apply Permutation_NoDup, Permutation_sym, bucketOrder_perm.
Qed.

(** What a successful merge attempt returns. *)
Lemma mergeAttempt_resolved (t : DominatorTree) (chains : list (Key * Chain))
    (n : Key) (cands : list Key) (t' : DominatorTree) (chains' : list (Key * Chain)) :
  mergeAttempt bucketOrder t chains n cands = Done (Some (t', chains')) ->
  exists pdc w,
    candidateChains bucketOrder chains cands = Some pdc /\
    mergeChains pdc = Some w /\
    chains' = emplace n w chains /\
    ((exists first, hd None w = Some first /\ assertNode t first = true /\
                    assertNode t n = true /\ t' = addEdge t first n)
     \/ (hd None w = None /\ t' = t)).
Proof.
  unfold mergeAttempt.
  destruct (candidateChains bucketOrder chains cands) as [pdc|] eqn:Hc; [|discriminate].
  destruct (mergeChains pdc) as [w|] eqn:Hm; [|discriminate].
  destruct (hd None w) as [first|] eqn:Hhd.
  - destruct (assertNode t first) eqn:A1; [|discriminate].
    destruct (assertNode t n) eqn:A2; [|discriminate].
    simpl. intros [= <- <-]. exists pdc, w.
    do 3 (split; [first [reflexivity | assumption]|]).
    left. eauto.
  - intros [= <- <-]. exists pdc, w.
    do 3 (split; [first [reflexivity | assumption]|]).
    right. auto.
Qed.

(** Proving that a property of the state is kept by the rounds: it is enough
    that extending one chain keeps it and that resolving one pending node
    keeps it. *)
Section Invariant.

Variable I : State -> Prop.

Hypothesis I_extend : forall t chains pending k,
  I (mkState t chains pending) -> I (mkState t (extendChain chains k) pending).

Hypothesis I_resolve : forall t chains kept n cands todo t' chains',
  I (mkState t chains (kept ++ (n, cands) :: todo)) ->
  mergeAttempt bucketOrder t chains n cands = Done (Some (t', chains')) ->
  I (mkState t' chains' (kept ++ todo)).

Lemma extendChains_invariant (t : DominatorTree) (chains : list (Key * Chain))
    (pending : list (Key * list Key)) :
  I (mkState t chains pending) ->
  I (mkState t (extendChains bucketOrder chains) pending).
Proof.
  unfold extendChains. generalize (bucketOrder (keys chains)) as ks.
  intros ks. revert chains. induction ks as [|k ks IH]; intros chains H; simpl.
  - assumption.
  - apply IH. now apply I_extend.
Qed.

Lemma mergePass_invariant (todo : list (Key * list Key)) :
  forall t chains kept st',
    I (mkState t chains (kept ++ todo)) ->
    mergePass bucketOrder t chains todo kept = Done st' -> I st'.
Proof.
  induction todo as [|[n cands] todo IH]; intros t chains kept st' HI; simpl.
  - intros [= <-]. now rewrite app_nil_r in HI.
  - destruct (mergeAttempt bucketOrder t chains n cands) as [[[t' chains']|]| |] eqn:E;
      try discriminate.
    + apply IH. eapply I_resolve; eassumption.
    + apply IH. now rewrite <- app_assoc.
Qed.

Lemma resolveRound_invariant (st st' : State) :
  I st -> resolveRound bucketOrder st = Done st' -> I st'.
Proof.
  unfold resolveRound. intros HI. apply mergePass_invariant. simpl.
  destruct st as [t chains pending]. simpl. now apply extendChains_invariant.
Qed.

Lemma resolveLoop_invariant (fuel : nat) :
  forall st st', I st -> resolveLoop bucketOrder fuel st = Done st' -> I st'.
Proof.
  induction fuel as [|fuel IH]; intros st st' HI; simpl.
  - destruct (predecessors st) eqn:E; [|discriminate]. now intros [= <-].
  - destruct (predecessors st) eqn:E; [now intros [= <-]|].
    destruct (resolveRound bucketOrder st) as [st1| |] eqn:R; try discriminate.
    apply IH. eapply resolveRound_invariant; eassumption.
Qed.

End Invariant.


Lemma growsFrom_refl (st : State) : growsFrom st st.
Proof.
  repeat split; [|apply incl_refl].
  exists []. rewrite app_nil_r. split; [reflexivity | intros p x []].
Qed.

Lemma growsFrom_resolve (st0 : State) (t : DominatorTree)
    (chains : list (Key * Chain)) (kept : list (Key * list Key)) (n : Key)
    (cands : list Key) (todo : list (Key * list Key)) (t' : DominatorTree)
    (chains' : list (Key * Chain)) :
  growsFrom st0 (mkState t chains (kept ++ (n, cands) :: todo)) ->
  mergeAttempt bucketOrder t chains n cands = Done (Some (t', chains')) ->
  growsFrom st0 (mkState t' chains' (kept ++ todo)).
Proof.
  intros [Hn [[extra [He Hx]] Hp]] Hm. simpl in *.
  assert (Hincl : incl (kept ++ todo) (predecessors st0)).
  { intros e Hin. apply Hp. apply in_app_iff in Hin. apply in_app_iff.
    destruct Hin; [now left | right; now right]. }
  apply mergeAttempt_resolved in Hm.
  destruct Hm as [pdc [w [_ [_ [_ [[first [_ [_ [_ ->]]]] | [_ ->]]]]]]].
  - repeat split; simpl; [assumption | | assumption].
    exists (extra ++ [(first, n)]). rewrite He, app_assoc. split; [reflexivity|].
    intros p x Hin. apply in_app_iff in Hin.
    destruct Hin as [Hin | [[= <- <-] | []]]; [eauto|].
    apply (in_map fst) with (x := (n, cands)). apply Hp.
    apply in_app_iff. right. now left.
  - repeat split; simpl; [assumption | eauto | assumption].
Qed.

Lemma resolveLoop_growsFrom (fuel : nat) (st st' : State) :
  resolveLoop bucketOrder fuel st = Done st' -> growsFrom st st'.
Proof.
  apply (resolveLoop_invariant (growsFrom st)).
  - intros t chains pending k H. exact H.
  - apply growsFrom_resolve.
  - apply growsFrom_refl.
Qed.

Lemma mergePass_growsFrom (t : DominatorTree) (chains : list (Key * Chain))
    (todo kept : list (Key * list Key)) (st' : State) :
  mergePass bucketOrder t chains todo kept = Done st' ->
  growsFrom (mkState t chains (kept ++ todo)) st'.
Proof.
  apply (mergePass_invariant (growsFrom (mkState t chains (kept ++ todo)))).
  - apply growsFrom_resolve.
  - apply growsFrom_refl.
Qed.

(** A pass only adds chains: a chain that is known stays as it is. *)
Lemma mergePass_chains_kept (t : DominatorTree) (chains : list (Key * Chain))
    (todo kept : list (Key * list Key)) (st' : State) (k : Key) (ch : Chain) :
  mergePass bucketOrder t chains todo kept = Done st' ->
  find k chains = Some ch -> find k (dominatorChains st') = Some ch.
Proof.
  intros Hpass Hfind. revert Hpass.
  apply (mergePass_invariant
           (fun st => find k (dominatorChains st) = Some ch)); [|assumption].
  simpl. intros t1 chains1 _ n cands _ t2 chains2 H Hm.
  apply mergeAttempt_resolved in Hm.
  destruct Hm as [pdc [w [_ [_ [-> _]]]]].
  rewrite find_emplace. now rewrite H.
Qed.

Lemma growsFrom_parents (st0 st : State) (n : Key) :
  growsFrom st0 st -> ~ In n (keys (predecessors st0)) ->
  parents (tree st) n = parents (tree st0) n.
Proof.
  intros [_ [[extra [He Hx]] _]] Hn. unfold parents. rewrite He.
  rewrite filter_app, map_app.
  match goal with |- _ ++ map fst ?f = _ => assert (E : f = []) end.
  { clear He. induction extra as [|[p x] extra IH]; simpl; [reflexivity|].
    destruct (Nat.eqb x n) eqn:E.
    - apply Nat.eqb_eq in E. subst x. exfalso. apply Hn. apply (Hx p). now left.
    - apply IH. intros p' x' H. apply (Hx p'). now right. }
  rewrite E. simpl. now rewrite app_nil_r.
Qed.

Lemma pendingState_keys (cfg : ControlFlowGraph) (k : Key) :
  In k (keys (predecessors (pendingState bucketOrder cfg))) ->
  In k (keys (predecessors (directPass cfg))).
Proof.
  unfold pendingState. simpl. intros H.
  apply entriesIn_keys_incl in H. now apply -> bucketOrder_In in H.
Qed.

Lemma buildState_growsFrom (fuel : nat) (cfg : ControlFlowGraph) (st : State) :
  buildState bucketOrder fuel cfg = Done st ->
  growsFrom (pendingState bucketOrder cfg) st.
Proof. apply resolveLoop_growsFrom. Qed.

Lemma createDominatorTree_Done (fuel : nat) (cfg : ControlFlowGraph) (t : DominatorTree) :
  createDominatorTree bucketOrder fuel cfg = Done t ->
  exists st, buildState bucketOrder fuel cfg = Done st /\ tree st = t.
Proof.
  unfold createDominatorTree.
  destruct (buildState bucketOrder fuel cfg) as [st| |]; try discriminate.
  intros [= <-]. eauto.
Qed.

End Rounds.

(** ** Fuel *)

Lemma resolveLoop_more_fuel (bucketOrder : list Key -> list Key) (fuel : nat) :
  forall st st' fuel',
    resolveLoop bucketOrder fuel st = Done st' -> fuel <= fuel' ->
    resolveLoop bucketOrder fuel' st = Done st'.
Proof.
  induction fuel as [|fuel IH]; intros st st' fuel'; simpl.
  - destruct (predecessors st) eqn:E; [|discriminate].
    intros H _. destruct fuel'; simpl; now rewrite E.
  - destruct (predecessors st) eqn:E.
    + intros H _. destruct fuel'; simpl; now rewrite E.
    + destruct (resolveRound bucketOrder st) as [st1| |] eqn:R; try discriminate.
      intros H Hle. destruct fuel' as [|fuel']; [lia|].
      simpl. rewrite E, R. apply IH; [assumption | lia].
Qed.


Lemma insertionOrder_perm (l : list Key) : Permutation (insertionOrder l) l.
Proof. apply Permutation_refl. Qed.

(** ** Lists that climb the tree *)

Section Climbing.

Variable t : DominatorTree.
Variable chains : list (Key * Chain).

Lemma link_app (a : NodePtr) (x : NodePtr) (rest other : Chain) :
  link t chains a (x :: rest) -> link t chains a ((x :: rest) ++ other).
Proof. destruct a, x; simpl; auto. Qed.

Lemma climbs_suffix (l1 l2 : Chain) :
  climbs t chains (l1 ++ l2) -> climbs t chains l2.
Proof.
  induction l1 as [|a l1 IH]; simpl; [auto|]. intros [_ H]. auto.
Qed.

Lemma climbs_app_last (l1 other : Chain) (b : Key) :
  climbs t chains l1 -> last l1 None = Some b ->
  climbs t chains (Some b :: other) -> climbs t chains (l1 ++ other).
Proof.
  induction l1 as [|a l1 IH]; [discriminate|].
  destruct l1 as [|a' l1].
  - simpl. intros _ [= ->] H. exact H.
  - intros [Hl Hc] Hlast Hother. split.
    + now apply link_app.
    + apply IH; assumption.
Qed.

(** The end marker can only be the last entry. *)
Lemma climbs_None_end (pre post : Chain) :
  climbs t chains (pre ++ None :: post) -> post = [].
Proof.
  intros H. apply climbs_suffix in H. destruct H as [H _].
  destruct post; [reflexivity | contradiction].
Qed.

Lemma climbs_complete_last (l : Chain) :
  climbs t chains l -> complete l -> last l None = None.
Proof.
  intros Hc Hin. apply in_split in Hin. destruct Hin as [pre [post ->]].
  apply climbs_None_end in Hc. subst post. now rewrite last_last.
Qed.

Lemma anc_trans (a b c : Key) : anc t a b -> anc t b c -> anc t a c.
Proof.
  intros Hab Hbc. induction Hbc as [|p x He Hbp IH]; [assumption|].
  eapply anc_step; eassumption.
Qed.

Lemma anc_parent (p x : Key) : parents t x = [p] -> anc t p x.
Proof.
  intros H. apply anc_step with (p := p); [|apply anc_refl].
  apply parents_In. rewrite H. now left.
Qed.

Lemma edge_parent (p q x : Key) : parents t x = [q] -> In (p, x) (edges t) -> p = q.
Proof.
  intros H He. apply parents_In in He. rewrite H in He.
  destruct He as [-> | []]. reflexivity.
Qed.

Lemma edge_no_parent (p x : Key) : parents t x = [] -> In (p, x) (edges t) -> False.
Proof.
  intros H He. apply parents_In in He. now rewrite H in He.
Qed.

(** Every node on a climbing list is an ancestor of the nodes before it. *)
Lemma climbs_anc_later (l : Chain) :
  forall x a, climbs t chains (Some x :: l) -> In (Some a) (Some x :: l) -> anc t a x.
Proof.
  induction l as [|b l IH]; intros x a Hc Hin.
  - destruct Hin as [[= ->] | []]. apply anc_refl.
  - destruct Hin as [[= ->] | Hin]; [apply anc_refl|].
    destruct Hc as [Hl Hc]. destruct b as [p|].
    + simpl in Hl. apply anc_trans with (b := p).
      * now apply IH.
      * now apply anc_parent.
    + destruct Hc as [Hn _]. destruct l; [|contradiction].
      destruct Hin as [[=] | []].
Qed.

(** An ancestor of the first node of a climbing list is on the list, or it
    is an ancestor of the node at which the list stops. *)
Lemma anc_on_climb (l : Chain) :
  forall x a, climbs t chains (Some x :: l) -> anc t a x ->
              In (Some a) (Some x :: l) \/
              exists b, last (Some x :: l) None = Some b /\ anc t a b.
Proof.
  induction l as [|b l IH]; intros x a Hc Ha.
  - right. exists x. split; [reflexivity | assumption].
  - inversion Ha as [|p x' He Hp]; subst.
    + left. now left.
    + destruct Hc as [Hl Hc]. destruct b as [q|].
      * simpl in Hl. assert (p = q) by (eapply edge_parent; eassumption). subst q.
        destruct (IH p a Hc Hp) as [Hin | [b [Hlast Hb]]].
        -- left. now right.
        -- right. exists b. split; [|assumption].
           change (last (Some x :: Some p :: l) None) with (last (Some p :: l) None).
           assumption.
      * simpl in Hl. destruct Hl as [Hl _]. exfalso.
        eapply edge_no_parent; eassumption.
Qed.

Lemma anc_on_complete_climb (l : Chain) (x a : Key) :
  climbs t chains (Some x :: l) -> complete (Some x :: l) -> anc t a x ->
  In (Some a) (Some x :: l).
Proof.
  intros Hc Hcomp Ha.
  destruct (anc_on_climb l x a Hc Ha) as [H | [b [Hlast _]]]; [assumption|].
  pose proof (climbs_complete_last _ Hc Hcomp) as E. congruence.
Qed.

End Climbing.

Lemma climbs_mono (t t' : DominatorTree) (chains chains' : list (Key * Chain)) (l : Chain) :
  (forall x, resolved chains x -> resolved chains' x) ->
  (forall x, parents t x <> [] \/ resolved chains x -> parents t' x = parents t x) ->
  climbs t chains l -> climbs t' chains' l.
Proof.
  intros Hres Hpar. induction l as [|a l IH]; simpl; [auto|].
  intros [Hl Hc]. split; [|auto].
  destruct a as [x|], l as [|[p|] l]; simpl in *; auto.
  - rewrite Hpar; [assumption|]. left. rewrite Hl. discriminate.
  - destruct Hl as [Hl Hr]. split; [|auto]. rewrite Hpar; auto.
Qed.

Section Ranks.

Variable cfg : ControlFlowGraph.
Variable rank : Key -> nat.
Variable t : DominatorTree.
Variable chains : list (Key * Chain).
Hypothesis HT : TreeInv cfg rank t chains.

Lemma anc_rank (a x : Key) : anc t a x -> a = x \/ rank a < rank x.
Proof.
  induction 1 as [|p x He Hp IH]; [now left|].
  right. apply (inv_rank _ _ _ _ HT) in He. destruct IH as [-> | IH]; lia.
Qed.

Lemma anc_rank_le (a x : Key) : anc t a x -> rank a <= rank x.
Proof. intros H. apply anc_rank in H. destruct H as [-> | H]; lia. Qed.

Lemma anc_antisym (a b : Key) : anc t a b -> anc t b a -> a = b.
Proof.
  intros H1 H2. apply anc_rank in H1. apply anc_rank in H2.
  destruct H1 as [-> | H1]; [reflexivity|].
  destruct H2 as [-> | H2]; [reflexivity | lia].
Qed.

Lemma unresolved_no_parent (n : Key) : find n chains = None -> parents t n = [].
Proof.
  intros Hf. destruct (parents t n) as [|p l] eqn:E; [reflexivity|].
  exfalso. assert (He : In (p, n) (edges t)).
  { apply parents_In. rewrite E. now left. }
  apply (inv_child _ _ _ _ HT) in He. contradiction.
Qed.

(** The nodes of a chain are nodes of the CFG of smaller rank than the
    chain's owner. *)
Lemma climbs_entries (l : Chain) :
  forall x a, climbs t chains (Some x :: l) -> In (Some a) l ->
              rank a < rank x /\ In a (map key cfg).
Proof.
  induction l as [|b l IH]; intros x a Hc Hin; [contradiction|].
  destruct Hc as [Hl Hc]. destruct b as [p|].
  - simpl in Hl.
    assert (He : In (p, x) (edges t)) by (apply parents_In; rewrite Hl; now left).
    destruct Hin as [[= ->] | Hin].
    + split; [eapply inv_rank; eassumption|].
      now apply (inv_keys _ _ _ _ HT) in He.
    + destruct (IH p a Hc Hin) as [Hr Hk]. split; [|assumption].
      apply (inv_rank _ _ _ _ HT) in He. lia.
  - destruct Hc as [Hn _]. destruct l; [|contradiction].
    destruct Hin as [[=] | []].
Qed.

Lemma chain_entries (n : Key) (ch : Chain) (a : Key) :
  find n chains = Some ch -> In (Some a) ch -> rank a < rank n /\ In a (map key cfg).
Proof.
  intros Hf Hin. apply (inv_chain _ _ _ _ HT) in Hf. destruct Hf as [_ Hc].
  eapply climbs_entries; eassumption.
Qed.

End Ranks.

(** ** The invariant is kept when a node is resolved *)

Lemma parents_edges_eq (t t' : DominatorTree) (n : Key) :
  edges t' = edges t -> parents t' n = parents t n.
Proof. unfold parents. now intros ->. Qed.

Lemma parents_recordEdge (t : DominatorTree) (h : NodePtr) (n x : Key) :
  parents (recordEdge t h n) x =
  parents t x ++ match h with
                 | Some first => if Nat.eqb n x then [first] else []
                 | None => []
                 end.
Proof.
  destruct h as [first|]; simpl.
  - apply parents_addEdge.
  - now rewrite app_nil_r.
Qed.

Lemma edges_recordEdge (t : DominatorTree) (h : NodePtr) (n p x : Key) :
  In (p, x) (edges (recordEdge t h n)) <->
  In (p, x) (edges t) \/ (h = Some p /\ x = n).
Proof.
  destruct h as [first|]; simpl.
  - rewrite in_app_iff. simpl. split.
    + intros [H | [[= -> ->] | []]]; auto.
    + intros [H | [[= ->] ->]]; auto.
  - split; [auto | intros [H | [[=] _]]; assumption].
Qed.

Lemma resolved_emplace (chains : list (Key * Chain)) (n x : Key) (w : Chain) :
  resolved (emplace n w chains) x <-> x = n \/ resolved chains x.
Proof.
  unfold resolved. rewrite find_emplace.
  destruct (find x chains) eqn:E.
  - split; [right | intros _]; discriminate.
  - destruct (Nat.eqb x n) eqn:En.
    + apply Nat.eqb_eq in En. split; [auto | discriminate].
    + apply Nat.eqb_neq in En. split; [congruence | intros [H | H]; congruence].
Qed.

(** Extending a chain by the chain of its last entry. *)
Lemma resolved_update (chains : list (Key * Chain)) (k x : Key) (f : Chain -> Chain) :
  resolved (update k f chains) x <-> resolved chains x.
Proof.
  unfold resolved. rewrite find_update.
  destruct (Nat.eqb x k); [|tauto]. destruct (find x chains); simpl; split; congruence.
Qed.

Lemma resolved_extendChain (chains : list (Key * Chain)) (k x : Key) :
  resolved (extendChain chains k) x <-> resolved chains x.
Proof.
  unfold extendChain. destruct (find k chains) as [ch|]; [|tauto].
  destruct (last ch None) as [back|]; [|tauto].
  destruct (find back chains); [|tauto]. apply resolved_update.
Qed.

Lemma resolved_extendFold (ks : list Key) :
  forall chains x, resolved (fold_left extendChain ks chains) x <-> resolved chains x.
Proof.
  induction ks as [|k ks IH]; intros chains x; simpl; [tauto|].
  rewrite IH. apply resolved_extendChain.
Qed.

Section Resolve.

Variable cfg : ControlFlowGraph.
Variable rank : Key -> nat.

Lemma TreeInv_same_edges (t t' : DominatorTree) (chains : list (Key * Chain)) :
  edges t' = edges t -> TreeInv cfg rank t chains -> TreeInv cfg rank t' chains.
Proof.
  intros He [H1 H2 H3 H4 H5 H6].
  assert (Hp : forall n, parents t' n = parents t n)
    by (intros n; now apply parents_edges_eq).
  constructor; try rewrite He; auto.
  - intros n. rewrite Hp. apply H4.
  - intros n ch Hf. destruct (H5 n ch Hf) as [Hne Hc]. split; [assumption|].
    apply climbs_mono with (t := t) (chains := chains); auto.
Qed.

Lemma TreeInv_resolve (t : DominatorTree) (chains : list (Key * Chain))
    (n : Key) (h : NodePtr) (rest : Chain) :
  TreeInv cfg rank t chains ->
  find n chains = None -> In n (map key cfg) ->
  climbs t chains (h :: rest) ->
  (forall f, h = Some f -> rank f < rank n /\ In f (map key cfg)) ->
  TreeInv cfg rank (recordEdge t h n) (emplace n (h :: rest) chains).
Proof.
  intros HT Hf Hn Hc Hh.
  pose proof (unresolved_no_parent _ _ _ _ HT n Hf) as P0.
  assert (P1 : forall x, x <> n -> parents (recordEdge t h n) x = parents t x).
  { intros x Hx. rewrite parents_recordEdge. destruct h; [|apply app_nil_r].
    assert (E : Nat.eqb n x = false) by (apply Nat.eqb_neq; congruence).
    rewrite E. apply app_nil_r. }
  assert (P2 : parents (recordEdge t h n) n =
               match h with Some f => [f] | None => [] end).
  { rewrite parents_recordEdge, P0. destruct h; [|reflexivity].
    now rewrite Nat.eqb_refl. }
  assert (Hmono : forall l, climbs t chains l ->
                            climbs (recordEdge t h n) (emplace n (h :: rest) chains) l).
  { intros l. apply climbs_mono.
    - intros x Hr. apply resolved_emplace. now right.
    - intros x Hx. apply P1. intros ->. destruct Hx as [Hx | Hx]; contradiction. }
  destruct HT as [H1 H2 H3 H4 H5 H6]. constructor.
  - intros p x He. apply edges_recordEdge in He.
    destruct He as [He | [-> ->]]; [auto|]. now apply Hh.
  - intros p x He. apply edges_recordEdge in He.
    destruct He as [He | [-> ->]]; [auto|]. split; [now apply Hh | assumption].
  - intros p x He. apply resolved_emplace. apply edges_recordEdge in He.
    destruct He as [He | [_ ->]]; [right; eauto | now left].
  - intros x. destruct (Nat.eq_dec x n) as [-> | Hx].
    + rewrite P2. destruct h; simpl; lia.
    + rewrite P1 by assumption. apply H4.
  - intros x ch Hx. rewrite find_emplace in Hx.
    destruct (find x chains) as [ch0|] eqn:E.
    + injection Hx as <-. destruct (H5 x ch0 E) as [Hne Hcl].
      split; [assumption | now apply Hmono].
    + destruct (Nat.eqb x n) eqn:En; [|discriminate].
      apply Nat.eqb_eq in En. subst x. injection Hx as <-.
      split; [discriminate|]. split; [|now apply Hmono].
      destruct h as [f|]; simpl; [assumption|].
      destruct rest; [|destruct Hc as [[] _]].
      split; [assumption|]. apply resolved_emplace. now left.
  - intros x Hx. apply resolved_emplace in Hx. destruct Hx as [-> | Hx]; auto.
Qed.

Lemma TreeInv_extendChain (t : DominatorTree) (chains : list (Key * Chain)) (k : Key) :
  TreeInv cfg rank t chains -> TreeInv cfg rank t (extendChain chains k).
Proof.
  intros HT.
  assert (Hmono : forall l, climbs t chains l -> climbs t (extendChain chains k) l).
  { intros l. apply climbs_mono; [|reflexivity].
    intros x. apply resolved_extendChain. }
  destruct HT as [H1 H2 H3 H4 H5 H6]. constructor; auto.
  - intros p x He. apply resolved_extendChain. eauto.
  - intros x ch Hx. unfold extendChain in *.
    destruct (find k chains) as [chk|] eqn:Ek; [|auto].
    destruct (last chk None) as [back|] eqn:El; [|auto].
    destruct (find back chains) as [other|] eqn:Eb; [|auto].
    rewrite find_update in Hx. destruct (Nat.eqb x k) eqn:Exk.
    + apply Nat.eqb_eq in Exk. subst x. rewrite Ek in Hx. simpl in Hx.
      injection Hx as <-. destruct (H5 k chk Ek) as [Hne Hcl].
      destruct (H5 back other Eb) as [_ Hcb]. split.
      * destruct chk; [contradiction | discriminate].
      * apply Hmono. change (climbs t chains ((Some k :: chk) ++ other)).
        apply climbs_app_last with (b := back); try assumption.
        destruct chk; [contradiction | exact El].
    + destruct (H5 x ch Hx) as [Hne Hcl]. split; [assumption | now apply Hmono].
  - intros x Hx. apply resolved_extendChain in Hx. auto.
Qed.

End Resolve.

(** ** The merge of the candidates' chains *)

Lemma ptr_eqb_eq (a b : NodePtr) : ptr_eqb a b = true <-> a = b.
Proof.
  destruct a as [x|], b as [y|]; simpl; try (split; congruence).
  rewrite Nat.eqb_eq. split; congruence.
Qed.

Lemma chainMatches_spec (c : Key) (ch : Chain) (e : NodePtr) :
  chainMatches c ch e = true <-> e = Some c \/ In e ch.
Proof.
  unfold chainMatches. rewrite orb_true_iff, ptr_eqb_eq, existsb_exists. split.
  - intros [H | [x [Hin Hx]]]; [now left|]. apply ptr_eqb_eq in Hx. subst. now right.
  - intros [H | H]; [now left|]. right. exists e. split; [assumption|].
    now apply ptr_eqb_eq.
Qed.

Lemma dropUntil_spec (p : NodePtr -> bool) (l l' : Chain) :
  dropUntil p l = Some l' ->
  exists pre e post, l = pre ++ e :: post /\ l' = e :: post /\ p e = true /\
                     forall x, In x pre -> p x = false.
Proof.
  induction l as [|a l IH]; simpl; [discriminate|].
  destruct (p a) eqn:E.
  - intros [= <-]. exists [], a, l. repeat split; auto. intros x [].
  - intros H. destruct (IH H) as [pre [e [post [-> [-> [He Hpre]]]]]].
    exists (a :: pre), e, post. repeat split; auto.
    intros x [<- | Hx]; auto.
Qed.

Lemma dropUntil_finds (p : NodePtr -> bool) (l : Chain) (x : NodePtr) :
  In x l -> p x = true -> exists l', dropUntil p l = Some l'.
Proof.
  induction l as [|a l IH]; simpl; [contradiction|].
  intros Hin Hp. destruct (p a) eqn:E; [eauto|].
  destruct Hin as [-> | Hin]; [congruence | auto].
Qed.

(** The working list after the loop is a tail of the list it started with. *)
Lemma mergeRemaining_suffix (rest : list (Key * Chain)) :
  forall l w, mergeRemaining rest l = Some w -> exists pre, l = pre ++ w.
Proof.
  induction rest as [|[c ch] rest IH]; intros l w; simpl.
  - intros [= <-]. now exists [].
  - destruct (dropUntil (chainMatches c ch) l) as [l1|] eqn:E; [|discriminate].
    intros H. apply IH in H. destruct H as [pre1 ->].
    apply dropUntil_spec in E. destruct E as [pre [e [post [-> [E _]]]]].
    exists (pre ++ pre1). rewrite <- app_assoc. now rewrite <- E.
Qed.

(** With all chains complete the loop is not aborted. *)
Lemma mergeRemaining_complete (rest : list (Key * Chain)) :
  forall l, complete l -> (forall c ch, In (c, ch) rest -> complete ch) ->
            exists w, mergeRemaining rest l = Some w /\ complete w.
Proof.
  unfold complete.
  induction rest as [|[c ch] rest IH]; intros l Hl Hrest; simpl; [eauto|].
  assert (Hm : chainMatches c ch None = true).
  { apply chainMatches_spec. right. apply (Hrest c). now left. }
  destruct (dropUntil_finds _ l None Hl Hm) as [l1 E]. rewrite E.
  apply IH.
  - apply dropUntil_spec in E. destruct E as [pre [e [post [-> [-> [He Hpre]]]]]].
    apply in_app_iff in Hl. destruct Hl as [Hl | Hl]; [|assumption].
    apply Hpre in Hl. congruence.
  - intros c' ch' H. apply (Hrest c'). now right.
Qed.

Lemma mergeChains_spec (pdc : list (Key * Chain)) (w : Chain) :
  mergeChains pdc = Some w ->
  exists c1 ch1 rest pre,
    pdc = (c1, ch1) :: rest /\ mergeRemaining rest (Some c1 :: ch1) = Some w /\
    Some c1 :: ch1 = pre ++ w /\ w <> [].
Proof.
  unfold mergeChains. destruct pdc as [|[c1 ch1] rest]; [discriminate|].
  destruct (mergeRemaining rest (Some c1 :: ch1)) as [[|first l]|] eqn:E;
    try discriminate.
  intros [= <-]. destruct (mergeRemaining_suffix _ _ _ E) as [pre Hpre].
  exists c1, ch1, rest, pre. repeat split; auto. discriminate.
Qed.

(** ** The chains of the candidates *)

Lemma In_emplace (V : Type) (m : list (Key * V)) (k : Key) (v : V) (e : Key * V) :
  In e (emplace k v m) -> In e m \/ e = (k, v).
Proof.
  unfold emplace. destruct (find k m); [auto|].
  rewrite in_app_iff. simpl. intuition.
Qed.

Lemma collectChains_spec (chains : list (Key * Chain)) (ps : list Key) :
  forall acc r, collectChains chains ps acc = Some r ->
    (forall c ch, In (c, ch) r ->
                  In (c, ch) acc \/ (In c ps /\ find c chains = Some ch)) /\
    (forall c, In c (keys acc) \/ In c ps -> In c (keys r)).
Proof.
  induction ps as [|p ps IH]; intros acc r; simpl.
  - intros [= <-]. split; [auto | intros c [H | []]; assumption].
  - destruct (find p chains) as [chp|] eqn:E; [|discriminate].
    intros H. apply IH in H. destruct H as [H1 H2]. split.
    + intros c ch Hin. apply H1 in Hin. destruct Hin as [Hin | [Hin Hf]]; [|auto].
      apply In_emplace in Hin. destruct Hin as [Hin | [= -> ->]]; auto.
    + intros c Hc. apply H2. rewrite keys_emplace.
      destruct Hc as [Hc | [<- | Hc]]; auto.
Qed.

Lemma collectChains_total (chains : list (Key * Chain)) (ps : list Key) :
  (forall c, In c ps -> resolved chains c) ->
  forall acc, exists r, collectChains chains ps acc = Some r.
Proof.
  unfold resolved. induction ps as [|p ps IH]; intros Hall acc; simpl; [eauto|].
  destruct (find p chains) as [chp|] eqn:E.
  - apply IH. intros c Hc. apply Hall. now right.
  - exfalso. apply (Hall p); [now left | assumption].
Qed.

Section Candidates.

Variable bucketOrder : list Key -> list Key.
Hypothesis bucketOrder_perm : forall l, Permutation (bucketOrder l) l.

Lemma candidateChains_spec (chains : list (Key * Chain)) (cands : list Key)
    (pdc : list (Key * Chain)) :
  candidateChains bucketOrder chains cands = Some pdc ->
  (forall c ch, In (c, ch) pdc -> In c cands /\ find c chains = Some ch) /\
  (forall c, In c cands -> exists ch, In (c, ch) pdc).
Proof.
  unfold candidateChains.
  destruct (collectChains chains (bucketOrder cands) []) as [r|] eqn:E; [|discriminate].
  intros [= <-]. apply collectChains_spec in E. destruct E as [H1 H2]. split.
  - intros c ch Hin. apply entriesIn_In in Hin. destruct Hin as [_ Hf].
    apply find_In in Hf. apply H1 in Hf. destruct Hf as [[] | [Hc Hf]].
    split; [|assumption]. now apply -> (bucketOrder_In _ bucketOrder_perm) in Hc.
  - intros c Hc. apply <- (bucketOrder_In _ bucketOrder_perm) in Hc.
    assert (Hk : In c (keys r)) by (apply H2; now right).
    destruct (keys_find _ _ _ Hk) as [ch Hf]. exists ch.
    apply entriesIn_In. split; [|assumption].
    now apply <- (bucketOrder_In _ bucketOrder_perm).
Qed.

Lemma candidateChains_total (chains : list (Key * Chain)) (cands : list Key) :
  (forall c, In c cands -> resolved chains c) ->
  exists pdc, candidateChains bucketOrder chains cands = Some pdc.
Proof.
  intros Hall. unfold candidateChains.
  destruct (collectChains_total chains (bucketOrder cands)) with (acc := @nil (nat * list (option nat)))
    as [r E].
  - intros c Hc. apply Hall. now apply -> (bucketOrder_In _ bucketOrder_perm) in Hc.
  - rewrite E. eauto.
Qed.

End Candidates.

(** ** The invariant holds after the direct pass and is kept by the rounds *)

Lemma update_emplace_new (V : Type) (m : list (Key * V)) (k : Key) (v : V) (f : V -> V) :
  find k m = None -> update k f (emplace k v m) = emplace k (f v) m.
Proof.
  intros Hf. unfold emplace. rewrite Hf.
  induction m as [|[k' v'] m IH]; simpl in *.
  - now rewrite Nat.eqb_refl.
  - destruct (Nat.eqb k k'); [discriminate|]. now rewrite IH.
Qed.

Lemma TreeInv_initial (cfg : ControlFlowGraph) (rank : Key -> nat) :
  TreeInv cfg rank emptyTree [].
Proof.
  constructor; simpl; try contradiction.
  - intros n. unfold parents. simpl. lia.
  - intros n ch. discriminate.
Qed.

Section Construction.

Variable bucketOrder : list Key -> list Key.
Hypothesis bucketOrder_perm : forall l, Permutation (bucketOrder l) l.
Variable cfg : ControlFlowGraph.
Variable rank : Key -> nat.
Hypothesis cfg_unique : uniqueKeys cfg.
Hypothesis cfg_closed : closedCFG cfg.
Hypothesis cfg_ranked : ranked rank cfg.

Lemma directStep_TreeInv (st : State) (node : CFGNode) :
  In node cfg -> find (key node) (dominatorChains st) = None ->
  TreeInv cfg rank (tree st) (dominatorChains st) ->
  TreeInv cfg rank (tree (directStep st node)) (dominatorChains (directStep st node)).
Proof.
  intros Hin Hf HT.
  assert (Hk : In (key node) (map key cfg)) by now apply in_map.
  unfold directStep.
  destruct (getDominatorCandidates node) as [|c [|c' l]] eqn:E; simpl.
  - apply TreeInv_same_edges with (t := recordEdge (tree st) None (key node));
      [reflexivity|].
    apply TreeInv_resolve; simpl; auto. discriminate.
  - assert (Hc : In c (getDominatorCandidates node)) by (rewrite E; now left).
    assert (Hne : c <> key node).
    { intros ->. now apply (candidates_not_self node). }
    apply TreeInv_same_edges with (t := recordEdge (tree st) (Some c) (key node));
      [reflexivity|].
    assert (Hh : forall f, Some c = Some f -> rank f < rank (key node) /\ In f (map key cfg)).
    { intros f [= <-]. split; [now apply cfg_ranked | now apply (cfg_closed node)]. }
    rewrite find_emplace_other by assumption.
    destruct (find c (dominatorChains st)) as [domChain|] eqn:Ec.
    + rewrite update_emplace_new by assumption.
      apply (TreeInv_resolve cfg rank (tree st) (dominatorChains st) (key node)
               (Some c) domChain); auto.
      now apply (inv_chain _ _ _ _ HT) in Ec.
    + apply (TreeInv_resolve cfg rank (tree st) (dominatorChains st) (key node)
               (Some c) []); simpl; auto.
  - apply TreeInv_same_edges with (t := tree st); [reflexivity | assumption].
Qed.

Lemma directFold_TreeInv (l : list CFGNode) :
  forall done st,
    done ++ l = cfg ->
    (forall k, In k (keys (dominatorChains st)) -> In k (map key done)) ->
    TreeInv cfg rank (tree st) (dominatorChains st) ->
    TreeInv cfg rank (tree (fold_left directStep l st))
            (dominatorChains (fold_left directStep l st)).
Proof.
  induction l as [|node l IH]; intros done st Hcfg Hkeys HT; simpl; [assumption|].
  assert (Hin : In node cfg).
  { rewrite <- Hcfg. apply in_app_iff. right. now left. }
  assert (Hnew : ~ In (key node) (map key done)).
  { pose proof cfg_unique as Hu. unfold uniqueKeys in Hu.
    rewrite <- Hcfg, map_app in Hu. simpl in Hu.
    apply NoDup_remove_2 in Hu. intros H. apply Hu. apply in_app_iff. now left. }
  apply (IH (done ++ [node])).
  - now rewrite <- app_assoc.
  - intros k Hk. apply directStep_chain_keys in Hk. rewrite map_app, in_app_iff.
    destruct Hk as [Hk | [-> _]]; [left; auto | right; now left].
  - apply directStep_TreeInv; try assumption.
    apply find_None_keys. intros H. apply Hnew. auto.
Qed.

Lemma directPass_TreeInv :
  TreeInv cfg rank (tree (directPass cfg)) (dominatorChains (directPass cfg)).
Proof.
  unfold directPass. apply (directFold_TreeInv cfg []); [reflexivity | |].
  - simpl. contradiction.
  - apply TreeInv_initial.
Qed.

Lemma directPass_unresolved (node : CFGNode) :
  In node cfg -> 2 <= length (getDominatorCandidates node) ->
  find (key node) (dominatorChains (directPass cfg)) = None.
Proof.
  intros Hin Hlen. apply find_None_keys. intros Hk.
  unfold directPass in Hk. apply directFold_chain_keys in Hk.
  destruct Hk as [[] | [x [Hx [Hkx Hl]]]].
  rewrite (uniqueKeys_node cfg node x cfg_unique Hin Hx Hkx) in Hlen. lia.
Qed.

Lemma keys_entriesIn (V : Type) (ks : list Key) (m : list (Key * V)) (k : Key) :
  In k ks -> In k (keys m) -> In k (keys (entriesIn ks m)).
Proof.
  intros Hks Hm. destruct (keys_find _ _ _ Hm) as [v Hv].
  apply (in_map fst) with (x := (k, v)). apply entriesIn_In. auto.
Qed.

Lemma pendingState_RoundInv : RoundInv cfg rank (pendingState bucketOrder cfg).
Proof.
  constructor; unfold pendingState; simpl.
  - apply directPass_TreeInv.
  - intros k Hk. now apply (directPass_nodes cfg cfg_closed).
  - intros n cands Hin. apply entriesIn_In in Hin. destruct Hin as [_ Hf].
    apply find_In in Hf. unfold directPass in Hf. apply directFold_pending in Hf.
    destruct Hf as [[] | [node [Hnode [-> [-> Hlen]]]]].
    split; [now apply directPass_unresolved|].
    exists node. auto.
  - apply entriesIn_NoDup. apply (bucketOrder_NoDup _ bucketOrder_perm).
    unfold directPass. apply directFold_pending_NoDup. constructor.
  - intros node Hin.
    destruct (le_lt_dec 2 (length (getDominatorCandidates node))) as [Hl | Hl].
    + right.
      assert (Hk : In (key node) (keys (predecessors (directPass cfg)))).
      { unfold directPass. apply directFold_pending_keys. right. exists node. auto. }
      apply keys_entriesIn; [|assumption].
      now apply <- (bucketOrder_In _ bucketOrder_perm).
    + left. unfold resolved. intros Hf. apply find_None_keys in Hf. apply Hf.
      unfold directPass. apply directFold_chain_keys. right. exists node.
      repeat split; [assumption | lia].
Qed.

(** The working list of a successful merge climbs the tree from a node of
    smaller rank than the pending node. *)
Lemma merge_working_list (t : DominatorTree) (chains : list (Key * Chain))
    (node : CFGNode) (pdc : list (Key * Chain)) (w : Chain) :
  TreeInv cfg rank t chains -> In node cfg ->
  candidateChains bucketOrder chains (getDominatorCandidates node) = Some pdc ->
  mergeChains pdc = Some w ->
  exists h rest, w = h :: rest /\ climbs t chains w /\
                 forall f, In (Some f) w ->
                           rank f < rank (key node) /\ In f (map key cfg).
Proof.
  intros HT Hin Hc Hm.
  apply (candidateChains_spec _ bucketOrder_perm) in Hc. destruct Hc as [Hc _].
  apply mergeChains_spec in Hm.
  destruct Hm as [c1 [ch1 [rest [pre [-> [_ [Hseed Hne]]]]]]].
  destruct (Hc c1 ch1 (or_introl eq_refl)) as [Hc1 Hf1].
  destruct w as [|h rest']; [contradiction|].
  exists h, rest'. split; [reflexivity|].
  pose proof (inv_chain _ _ _ _ HT c1 ch1 Hf1) as [_ Hcl].
  split.
  - rewrite Hseed in Hcl. now apply climbs_suffix in Hcl.
  - intros f Hf.
    assert (Hr1 : rank c1 < rank (key node)) by now apply cfg_ranked.
    assert (Hin1 : In (Some f) (Some c1 :: ch1)).
    { rewrite Hseed. apply in_app_iff. now right. }
    destruct Hin1 as [[= <-] | Hin1].
    + split; [assumption | now apply (cfg_closed node)].
    + destruct (chain_entries _ _ _ _ HT c1 ch1 f Hf1 Hin1) as [Hr Hk].
      split; [lia | assumption].
Qed.

Lemma RoundInv_extend (t : DominatorTree) (chains : list (Key * Chain))
    (pending : list (Key * list Key)) (k : Key) :
  RoundInv cfg rank (mkState t chains pending) ->
  RoundInv cfg rank (mkState t (extendChain chains k) pending).
Proof.
  intros [H1 H2 H3 H4 H5]. simpl in *. constructor; simpl; auto.
  - now apply TreeInv_extendChain.
  - intros n cands Hin. destruct (H3 n cands Hin) as [Hf Hn]. split; [|assumption].
    destruct (find n (extendChain chains k)) eqn:E; [|reflexivity].
    exfalso. assert (Hr : resolved (extendChain chains k) n)
      by (unfold resolved; congruence).
    apply (proj1 (resolved_extendChain chains k n) Hr). exact Hf.
  - intros node Hin. destruct (H5 node Hin) as [Hr | Hp]; [left | now right].
    now apply resolved_extendChain.
Qed.

Lemma RoundInv_resolve (t : DominatorTree) (chains : list (Key * Chain))
    (kept : list (Key * list Key)) (n : Key) (cands : list Key)
    (todo : list (Key * list Key)) (t' : DominatorTree) (chains' : list (Key * Chain)) :
  RoundInv cfg rank (mkState t chains (kept ++ (n, cands) :: todo)) ->
  mergeAttempt bucketOrder t chains n cands = Done (Some (t', chains')) ->
  RoundInv cfg rank (mkState t' chains' (kept ++ todo)).
Proof.
  intros [H1 H2 H3 H4 H5] Hm. simpl in *.
  assert (Hin : In (n, cands) (kept ++ (n, cands) :: todo))
    by (apply in_app_iff; right; now left).
  destruct (H3 n cands Hin) as [Hf [node [Hnode [Hkey [Hcands Hlen]]]]].
  apply mergeAttempt_resolved in Hm.
  destruct Hm as [pdc [w [Hc [Hw [-> Ht']]]]].
  rewrite <- Hcands in Hc.
  destruct (merge_working_list t chains node pdc w H1 Hnode Hc Hw)
    as [h [rest [-> [Hcl Hall]]]].
  assert (Ht : t' = recordEdge t h n).
  { simpl in Ht'. destruct Ht' as [[first [-> [_ [_ ->]]]] | [-> ->]]; reflexivity. }
  subst t'. clear Ht'.
  unfold keys in H4. rewrite map_app in H4. simpl in H4.
  pose proof (NoDup_remove_1 _ _ _ H4) as Hnd.
  pose proof (NoDup_remove_2 _ _ _ H4) as Hnotin.
  rewrite <- map_app in Hnd, Hnotin.
  constructor; simpl.
  - apply TreeInv_resolve; auto.
    + subst n. now apply in_map.
    + intros f ->. subst n. apply Hall. now left.
  - intros k Hk. destruct h; simpl; auto.
  - intros n' cands' Hin'.
    assert (Hin2 : In (n', cands') (kept ++ (n, cands) :: todo)).
    { apply in_app_iff in Hin'. apply in_app_iff.
      destruct Hin'; [now left | right; now right]. }
    destruct (H3 n' cands' Hin2) as [Hf' Hn']. split; [|assumption].
    rewrite find_emplace_other; [assumption|].
    intros ->. apply Hnotin. now apply (in_map fst) in Hin'.
  - exact Hnd.
  - intros node' Hin'. destruct (H5 node' Hin') as [Hr | Hp].
    + left. apply resolved_emplace. now right.
    + unfold keys in Hp. rewrite map_app, in_app_iff in Hp. simpl in Hp.
      destruct Hp as [Hp | [Hp | Hp]].
      * right. unfold keys. rewrite map_app, in_app_iff. now left.
      * left. apply resolved_emplace. now left.
      * right. unfold keys. rewrite map_app, in_app_iff. now right.
Qed.

Lemma resolveLoop_RoundInv (fuel : nat) (st st' : State) :
  RoundInv cfg rank st -> resolveLoop bucketOrder fuel st = Done st' ->
  RoundInv cfg rank st'.
Proof.
  apply resolveLoop_invariant.
  - apply RoundInv_extend.
  - apply RoundInv_resolve.
Qed.

Lemma buildState_RoundInv (fuel : nat) (st : State) :
  buildState bucketOrder fuel cfg = Done st -> RoundInv cfg rank st.
Proof.
  apply resolveLoop_RoundInv. apply pendingState_RoundInv.
Qed.

End Construction.

(** ** Termination on an acyclic candidate relation *)

Lemma last_In (l : Chain) (d : NodePtr) : l <> [] -> In (last l d) l.
Proof.
  induction l as [|a l IH]; [contradiction|]. intros _.
  destruct l as [|b l]; [now left|]. right. apply IH. discriminate.
Qed.

Section Termination.

Variable bucketOrder : list Key -> list Key.
Hypothesis bucketOrder_perm : forall l, Permutation (bucketOrder l) l.
Variable cfg : ControlFlowGraph.
Variable rank : Key -> nat.
Hypothesis cfg_unique : uniqueKeys cfg.
Hypothesis cfg_closed : closedCFG cfg.
Hypothesis cfg_ranked : ranked rank cfg.

Lemma extendChain_keeps_complete (t : DominatorTree) (chains : list (Key * Chain))
    (k x : Key) (ch : Chain) :
  TreeInv cfg rank t chains ->
  find x chains = Some ch -> complete ch ->
  find x (extendChain chains k) = Some ch.
Proof.
  intros HT Hf Hc. unfold extendChain.
  destruct (find k chains) as [chk|] eqn:Ek; [|assumption].
  destruct (last chk None) as [back|] eqn:El; [|assumption].
  destruct (find back chains) as [other|] eqn:Eb; [|assumption].
  rewrite find_update. destruct (Nat.eqb x k) eqn:Exk; [|assumption].
  apply Nat.eqb_eq in Exk. subst x. exfalso.
  assert (chk = ch) by congruence. subst chk.
  destruct (inv_chain _ _ _ _ HT k ch Hf) as [_ Hcl].
  apply (climbs_suffix _ _ [Some k] ch) in Hcl.
  rewrite (climbs_complete_last _ _ _ Hcl Hc) in El. discriminate.
Qed.

Lemma completeBelow_extendChain (t : DominatorTree) (chains : list (Key * Chain))
    (k r : nat) :
  TreeInv cfg rank t chains ->
  completeBelow cfg rank r chains -> completeBelow cfg rank r (extendChain chains k).
Proof.
  intros HT Hb node Hin Hr. destruct (Hb node Hin Hr) as [ch [Hf Hc]].
  exists ch. split; [|assumption]. eapply extendChain_keeps_complete; eassumption.
Qed.

Lemma extendChain_completes (t : DominatorTree) (chains : list (Key * Chain))
    (k r : nat) (ch : Chain) :
  TreeInv cfg rank t chains -> completeBelow cfg rank r chains ->
  find k chains = Some ch -> rank k <= r ->
  exists ch', find k (extendChain chains k) = Some ch' /\ complete ch'.
Proof.
  intros HT Hb Hf Hr. unfold extendChain. rewrite Hf.
  destruct (inv_chain _ _ _ _ HT k ch Hf) as [Hne _].
  destruct (last ch None) as [back|] eqn:El.
  - assert (Hin : In (Some back) ch) by (rewrite <- El; now apply last_In).
    destruct (chain_entries _ _ _ _ HT k ch back Hf Hin) as [Hrb Hkb].
    apply in_map_iff in Hkb. destruct Hkb as [nb [Hkey Hnb]].
    destruct (Hb nb Hnb) as [other [Hfo Hco]]; [rewrite Hkey; lia|].
    rewrite Hkey in Hfo. rewrite Hfo. exists (ch ++ other). split.
    + rewrite find_update, Nat.eqb_refl, Hf. reflexivity.
    + unfold complete. apply in_app_iff. now right.
  - exists ch. split; [assumption|]. unfold complete. rewrite <- El.
    now apply last_In.
Qed.

Lemma extendFold_complete (t : DominatorTree) (r : nat) (ks : list Key) :
  forall chains,
    TreeInv cfg rank t chains -> completeBelow cfg rank r chains ->
    TreeInv cfg rank t (fold_left extendChain ks chains) /\
    completeBelow cfg rank r (fold_left extendChain ks chains) /\
    (forall x ch, find x chains = Some ch -> complete ch ->
                  find x (fold_left extendChain ks chains) = Some ch) /\
    (forall x, In x ks -> rank x <= r -> resolved chains x ->
               exists ch, find x (fold_left extendChain ks chains) = Some ch /\
                          complete ch).
Proof.
  induction ks as [|k ks IH]; intros chains HT Hb; simpl.
  - split; [assumption|]. split; [assumption|]. split; [auto|]. intros x [].
  - assert (HT' : TreeInv cfg rank t (extendChain chains k))
      by now apply TreeInv_extendChain.
    assert (Hb' : completeBelow cfg rank r (extendChain chains k))
      by (eapply completeBelow_extendChain; eassumption).
    destruct (IH _ HT' Hb') as [I1 [I2 [I3 I4]]].
    split; [assumption|]. split; [assumption|]. split.
    + intros x ch Hf Hc. apply I3; [|assumption].
      eapply extendChain_keeps_complete; eassumption.
    + intros x [<- | Hx] Hr Hres.
      * unfold resolved in Hres. destruct (find k chains) as [ch|] eqn:Hf;
          [|contradiction].
        destruct (extendChain_completes t chains k r ch HT Hb Hf Hr) as [ch' [Hf' Hc']].
        exists ch'. split; [|assumption]. now apply I3.
      * apply I4; try assumption. now apply resolved_extendChain.
Qed.

Lemma extendChains_complete (t : DominatorTree) (r : nat) (chains : list (Key * Chain)) :
  TreeInv cfg rank t chains -> completeBelow cfg rank r chains ->
  completeBelow cfg rank r (extendChains bucketOrder chains) /\
  knownComplete rank r (extendChains bucketOrder chains).
Proof.
  intros HT Hb. unfold extendChains.
  destruct (extendFold_complete t r (bucketOrder (keys chains)) chains HT Hb)
    as [_ [I2 [_ I4]]].
  split; [assumption|].
  intros n ch Hf Hr.
  assert (Hres : resolved chains n).
  { apply (resolved_extendFold (bucketOrder (keys chains))).
    unfold resolved. congruence. }
  destruct (I4 n) as [ch' [Hf' Hc']]; try assumption.
  - apply <- (bucketOrder_In _ bucketOrder_perm).
    unfold resolved in Hres. destruct (find n chains) eqn:E; [|contradiction].
    eapply find_Some_keys; eassumption.
  - congruence.
Qed.

Lemma completeBelow_emplace (r : nat) (chains : list (Key * Chain)) (n : Key) (w : Chain) :
  completeBelow cfg rank r chains -> completeBelow cfg rank r (emplace n w chains).
Proof.
  intros Hb node Hin Hr. destruct (Hb node Hin Hr) as [ch [Hf Hc]].
  exists ch. split; [|assumption]. rewrite find_emplace. now rewrite Hf.
Qed.

(** A merge attempt never fails an [assertNode]. *)
Lemma mergeAttempt_no_throw (t : DominatorTree) (chains : list (Key * Chain))
    (pending : list (Key * list Key)) (n : Key) (cands : list Key) :
  RoundInv cfg rank (mkState t chains pending) -> In (n, cands) pending ->
  exists res, mergeAttempt bucketOrder t chains n cands = Done res.
Proof.
  intros [H1 H2 H3 H4 H5] Hin. simpl in *.
  destruct (H3 n cands Hin) as [Hf [node [Hnode [Hkey [Hcands Hlen]]]]].
  unfold mergeAttempt.
  destruct (candidateChains bucketOrder chains cands) as [pdc|] eqn:Hc; [|eauto].
  destruct (mergeChains pdc) as [w|] eqn:Hw; [|eauto].
  rewrite <- Hcands in Hc.
  destruct (merge_working_list bucketOrder bucketOrder_perm cfg rank cfg_closed
              cfg_ranked t chains node pdc w H1 Hnode Hc Hw)
    as [h [rest [-> [Hcl Hall]]]].
  simpl. destruct h as [first|]; [|eauto].
  assert (A1 : assertNode t first = true).
  { apply mem_In. apply H2. apply Hall. now left. }
  assert (A2 : assertNode t n = true).
  { apply mem_In. apply H2. subst n. now apply in_map. }
  rewrite A1, A2. simpl. eauto.
Qed.

(** With all candidates resolved by complete chains the merge succeeds. *)
Lemma mergeAttempt_succeeds (t : DominatorTree) (chains : list (Key * Chain))
    (pending : list (Key * list Key)) (n : Key) (cands : list Key) :
  RoundInv cfg rank (mkState t chains pending) -> In (n, cands) pending ->
  (forall c, In c cands -> exists ch, find c chains = Some ch /\ complete ch) ->
  exists t' w, mergeAttempt bucketOrder t chains n cands
               = Done (Some (t', emplace n w chains)) /\ complete w.
Proof.
  intros HR Hin Hall.
  destruct (mergeAttempt_no_throw t chains pending n cands HR Hin) as [res Hres].
  destruct HR as [H1 H2 H3 H4 H5]. simpl in *.
  destruct (H3 n cands Hin) as [Hf [node [Hnode [Hkey [Hcands Hlen]]]]].
  destruct (candidateChains_total bucketOrder bucketOrder_perm chains cands)
    as [pdc Hc].
  { intros c Hc. destruct (Hall c Hc) as [ch [E _]]. unfold resolved. congruence. }
  pose proof (candidateChains_spec bucketOrder bucketOrder_perm _ _ _ Hc) as [S1 S2].
  assert (Hcomp : forall c ch, In (c, ch) pdc -> complete ch).
  { intros c ch Hp. destruct (S1 c ch Hp) as [Hcc Hfc].
    destruct (Hall c Hcc) as [ch' [E Hc']]. congruence. }
  destruct pdc as [|[c1 ch1] rest].
  { exfalso. destruct cands as [|c cands]; [simpl in Hlen; lia|].
    destruct (S2 c (or_introl eq_refl)) as [ch []]. }
  destruct (mergeRemaining_complete rest (Some c1 :: ch1)) as [w [Hw Hcw]].
  { right. apply (Hcomp c1). now left. }
  { intros c ch Hp. apply (Hcomp c). now right. }
  assert (Hm : mergeChains ((c1, ch1) :: rest) = Some w).
  { simpl. rewrite Hw. destruct w; [destruct Hcw | reflexivity]. }
  unfold mergeAttempt in *. rewrite Hc, Hm in *.
  destruct (hd None w) as [first|].
  - destruct (assertNode t first && assertNode t n); [|discriminate]. eauto.
  - eauto.
Qed.

Lemma mergePass_progress (r : nat) (todo : list (Key * list Key)) :
  forall t chains kept,
    RoundInv cfg rank (mkState t chains (kept ++ todo)) ->
    completeBelow cfg rank r chains -> knownComplete rank r chains ->
    (forall n c, In (n, c) kept -> r < rank n) ->
    exists st', mergePass bucketOrder t chains todo kept = Done st' /\
                RoundInv cfg rank st' /\
                completeBelow cfg rank r (dominatorChains st') /\
                knownComplete rank r (dominatorChains st') /\
                (forall n c, In (n, c) (predecessors st') -> r < rank n).
Proof.
  induction todo as [|[n cands] todo IH]; intros t chains kept HR Hb Hk Hkept; simpl.
  - rewrite app_nil_r in HR. exists (mkState t chains kept). auto.
  - assert (Hin : In (n, cands) (kept ++ (n, cands) :: todo))
      by (apply in_app_iff; right; now left).
    destruct (le_lt_dec (rank n) r) as [Hle | Hgt].
    + destruct (ri_pending _ _ _ HR n cands Hin)
        as [Hf [node [Hnode [Hkey [Hcands Hlen]]]]]. simpl in Hf.
      destruct (mergeAttempt_succeeds t chains _ n cands HR Hin) as [t' [w [Hm Hcw]]].
      { intros c Hc. rewrite <- Hcands in Hc.
        assert (Hrc : rank c < rank (key node)) by now apply cfg_ranked.
        pose proof (cfg_closed node c Hnode Hc) as Hck.
        apply in_map_iff in Hck. destruct Hck as [nc [Hkc Hnc]].
        destruct (Hb nc Hnc) as [ch [E Hch]]; [rewrite Hkc, <- Hkey in *; lia|].
        rewrite Hkc in E. eauto. }
      rewrite Hm. apply IH.
      * eapply RoundInv_resolve; eassumption.
      * now apply completeBelow_emplace.
      * intros x ch Hx Hrx. rewrite find_emplace in Hx.
        destruct (find x chains) eqn:E.
        -- injection Hx as <-. eapply Hk; eassumption.
        -- destruct (Nat.eqb x n); [|discriminate]. now injection Hx as <-.
      * assumption.
    + destruct (mergeAttempt_no_throw t chains _ n cands HR Hin) as [res Hm].
      rewrite Hm. destruct res as [[t' chains']|].
      * pose proof Hm as Hm'. apply mergeAttempt_resolved in Hm'.
        destruct Hm' as [pdc [w [_ [_ [-> _]]]]].
        apply IH.
        -- eapply RoundInv_resolve; eassumption.
        -- now apply completeBelow_emplace.
        -- intros x ch Hx Hrx. rewrite find_emplace in Hx.
           destruct (find x chains) eqn:E.
           ++ injection Hx as <-. eapply Hk; eassumption.
           ++ destruct (Nat.eqb x n) eqn:En; [|discriminate].
              apply Nat.eqb_eq in En. subst x. lia.
        -- assumption.
      * apply IH; try assumption.
        -- now rewrite <- app_assoc.
        -- intros n' c' Hin'. apply in_app_iff in Hin'.
           destruct Hin' as [Hin' | [[= <- <-] | []]]; eauto.
Qed.

Lemma resolveRound_progress (r : nat) (st : State) :
  RoundInv cfg rank st -> completeBelow cfg rank r (dominatorChains st) ->
  exists st', resolveRound bucketOrder st = Done st' /\ RoundInv cfg rank st' /\
              completeBelow cfg rank (S r) (dominatorChains st').
Proof.
  intros HR Hb. unfold resolveRound. destruct st as [t chains pending]. simpl in *.
  destruct (extendChains_complete t r chains (ri_tree _ _ _ HR) Hb) as [Hb' Hk'].
  destruct (mergePass_progress r pending t (extendChains bucketOrder chains) [])
    as [st' [Hpass [HR' [Hb2 [Hk2 Hp2]]]]]; auto.
  - simpl. apply (extendChains_invariant bucketOrder (RoundInv cfg rank)).
    + intros. now apply RoundInv_extend.
    + assumption.
  - intros n c [].
  - exists st'. split; [assumption|]. split; [assumption|].
    intros node Hin Hr.
    destruct (ri_cover _ _ _ HR' node Hin) as [Hres | Hpend].
    + unfold resolved in Hres.
      destruct (find (key node) (dominatorChains st')) as [ch|] eqn:E; [|contradiction].
      exists ch. split; [reflexivity|]. apply (Hk2 (key node)); [assumption | lia].
    + exfalso. unfold keys in Hpend. apply in_map_iff in Hpend.
      destruct Hpend as [[n c] [Hn Hin']]. simpl in Hn. subst n.
      apply Hp2 in Hin'. lia.
Qed.

Lemma resolveLoop_terminates (fuel : nat) :
  forall r st,
    RoundInv cfg rank st -> completeBelow cfg rank r (dominatorChains st) ->
    (forall node, In node cfg -> rank (key node) < r + fuel) ->
    exists st', resolveLoop bucketOrder fuel st = Done st'.
Proof.
  induction fuel as [|fuel IH]; intros r st HR Hb Hbound; simpl.
  - destruct (predecessors st) as [|[n cands] pending] eqn:E; [eauto|].
    exfalso.
    destruct (ri_pending _ _ _ HR n cands) as [Hf [node [Hnode [Hkey _]]]].
    { rewrite E. now left. }
    destruct (Hb node Hnode) as [ch [Hch _]].
    { specialize (Hbound node Hnode). lia. }
    congruence.
  - destruct (predecessors st) as [|[n cands] pending] eqn:E; [eauto|].
    destruct (resolveRound_progress r st HR Hb) as [st' [Hround [HR' Hb']]].
    rewrite Hround. apply (IH (S r)); try assumption.
    intros node Hin. specialize (Hbound node Hin). lia.
Qed.

Lemma buildState_terminates (fuel : nat) :
  (forall node, In node cfg -> rank (key node) < fuel) ->
  exists st, buildState bucketOrder fuel cfg = Done st.
Proof.
  intros Hbound. unfold buildState. apply (resolveLoop_terminates fuel 0).
  - now apply pendingState_RoundInv.
  - intros node _ Hr. lia.
  - exact Hbound.
Qed.

End Termination.

(** ** A rank below the number of nodes, and the shape of the tree *)

Lemma filter_shorter (A : Type) (p : A -> bool) (l : list A) :
  length (filter p l) <= length l.
Proof.
  induction l as [|a l IH]; simpl; [lia|]. destruct (p a); simpl; lia.
Qed.

Lemma filter_length_strict (A : Type) (p : A -> bool) (l : list A) (x : A) :
  In x l -> p x = false -> length (filter p l) < length l.
Proof.
  induction l as [|a l IH]; simpl; [contradiction|].
  intros [-> | Hin] Hp.
  - rewrite Hp. pose proof (filter_shorter A p l). lia.
  - specialize (IH Hin Hp). destruct (p a); simpl; lia.
Qed.

Lemma filter_length_mono (A : Type) (p q : A -> bool) (l : list A) :
  (forall y, p y = true -> q y = true) ->
  length (filter p l) <= length (filter q l).
Proof.
  intros Hpq. induction l as [|b l IH]; simpl; [lia|].
  destruct (p b) eqn:E.
  - rewrite (Hpq b E). simpl. lia.
  - destruct (q b); simpl; lia.
Qed.

Lemma filter_length_lt (A : Type) (p q : A -> bool) (l : list A) (x : A) :
  (forall y, p y = true -> q y = true) ->
  In x l -> q x = true -> p x = false ->
  length (filter p l) < length (filter q l).
Proof.
  intros Hpq. induction l as [|a l IH]; simpl; [contradiction|].
  intros [-> | Hin] Hq Hp.
  - rewrite Hq, Hp. simpl. pose proof (filter_length_mono A p q l Hpq). lia.
  - specialize (IH Hin Hq Hp). destruct (p a) eqn:E.
    + rewrite (Hpq a E). simpl. lia.
    + destruct (q a); simpl; lia.
Qed.

Lemma countRank_bound (rank : Key -> nat) (cfg : ControlFlowGraph) (node : CFGNode) :
  In node cfg -> countRank rank cfg (key node) < length cfg.
Proof.
  intros Hin. unfold countRank.
  apply filter_length_strict with (x := node); [assumption|].
  apply Nat.ltb_irrefl.
Qed.

Lemma countRank_ranked (rank : Key -> nat) (cfg : ControlFlowGraph) :
  closedCFG cfg -> ranked rank cfg -> ranked (countRank rank cfg) cfg.
Proof.
  intros Hclosed Hranked node c Hin Hc. unfold countRank.
  pose proof (Hranked node c Hin Hc) as Hlt.
  pose proof (Hclosed node c Hin Hc) as Hk.
  apply in_map_iff in Hk. destruct Hk as [nc [Hkc Hnc]].
  apply filter_length_lt with (x := nc); try assumption.
  - intros y Hy. apply Nat.ltb_lt in Hy. apply Nat.ltb_lt. lia.
  - apply Nat.ltb_lt. now rewrite Hkc.
  - rewrite Hkc. apply Nat.ltb_irrefl.
Qed.

Lemma resolveLoop_Done_empty (bucketOrder : list Key -> list Key) (fuel : nat) :
  forall st st', resolveLoop bucketOrder fuel st = Done st' -> predecessors st' = [].
Proof.
  induction fuel as [|fuel IH]; intros st st'; simpl.
  - destruct (predecessors st) eqn:E; [|discriminate]. now intros [= <-].
  - destruct (predecessors st) eqn:E; [now intros [= <-]|].
    destruct (resolveRound bucketOrder st) as [st1| |]; try discriminate.
    apply IH.
Qed.

Section Shape.

Variable cfg : ControlFlowGraph.
Variable rank : Key -> nat.
Variable t : DominatorTree.
Variable chains : list (Key * Chain).
Hypothesis HT : TreeInv cfg rank t chains.

Lemma one_parent (n : Key) : parents t n <> [] -> exists p, parents t n = [p].
Proof.
  intros Hne. pose proof (inv_unique _ _ _ _ HT n) as Hl.
  destruct (parents t n) as [|p [|q l]]; [contradiction | eauto | simpl in Hl; lia].
Qed.

Lemma no_cycle (p n : Key) : In (p, n) (edges t) -> ~ anc t n p.
Proof.
  intros He Ha. apply (inv_rank _ _ _ _ HT) in He.
  apply (anc_rank_le _ _ _ _ HT) in Ha. lia.
Qed.

Lemma walkUp_anc (steps : nat) : forall n, anc t (walkUp t steps n) n.
Proof.
  induction steps as [|steps IH]; intros n; simpl; [apply anc_refl|].
  destruct (parents t n) as [|p l] eqn:E; [apply anc_refl|].
  apply anc_step with (p := p); [|apply IH].
  apply parents_In. rewrite E. now left.
Qed.

Lemma walkUp_root (steps : nat) :
  forall n, (In n (map key cfg) -> rank n < steps) ->
            parents t (walkUp t steps n) = [].
Proof.
  induction steps as [|steps IH]; intros n Hn; simpl.
  - destruct (parents t n) as [|p l] eqn:E; [reflexivity|]. exfalso.
    assert (He : In (p, n) (edges t)) by (apply parents_In; rewrite E; now left).
    apply (inv_keys _ _ _ _ HT) in He. destruct He as [_ He].
    specialize (Hn He). lia.
  - destruct (parents t n) as [|p l] eqn:E; [assumption|].
    assert (He : In (p, n) (edges t)) by (apply parents_In; rewrite E; now left).
    apply IH. intros _.
    pose proof (inv_rank _ _ _ _ HT _ _ He) as Hr.
    apply (inv_keys _ _ _ _ HT) in He. destruct He as [_ He].
    specialize (Hn He). lia.
Qed.

End Shape.

(** ** Nearest common ancestors are kept when the tree grows *)

Lemma forall_or_exists (P Q : Key -> Prop) (l : list Key) :
  (forall c, In c l -> P c \/ Q c) ->
  (forall c, In c l -> P c) \/ (exists c, In c l /\ Q c).
Proof.
  induction l as [|x l IH]; intros H.
  - left. intros c [].
  - destruct (H x (or_introl eq_refl)) as [Hx | Hx].
    + destruct IH as [IH | [c [Hc Hq]]].
      * intros c Hc. apply H. now right.
      * left. intros c [<- | Hc]; auto.
      * right. exists c. split; [now right | assumption].
    + right. exists x. split; [now left | assumption].
Qed.

Lemma anc_recordEdge (t : DominatorTree) (h : NodePtr) (m a x : Key) :
  anc t a x -> anc (recordEdge t h m) a x.
Proof.
  induction 1 as [|p x He Hp IH]; [apply anc_refl|].
  apply anc_step with (p := p); [|assumption].
  apply edges_recordEdge. now left.
Qed.

Lemma anc_recordEdge_inv (t : DominatorTree) (h : NodePtr) (m a x : Key) :
  anc (recordEdge t h m) a x ->
  anc t a x \/ exists f, h = Some f /\ anc t a f /\ anc t m x.
Proof.
  induction 1 as [|p x He Hp IH].
  - left. apply anc_refl.
  - apply edges_recordEdge in He. destruct He as [He | [-> ->]].
    + destruct IH as [IH | [f [Hh [Haf Hmp]]]].
      * left. eapply anc_step; eassumption.
      * right. exists f. repeat split; try assumption.
        eapply anc_step; eassumption.
    + right. exists p. split; [reflexivity|]. split; [|apply anc_refl].
      destruct IH as [IH | [f [[= <-] [Haf _]]]]; assumption.
Qed.

Section Growth.

Variable cfg : ControlFlowGraph.
Variable rank : Key -> nat.
Variable t : DominatorTree.
Variable chains : list (Key * Chain).
Hypothesis HT : TreeInv cfg rank t chains.

Lemma unique_parent (p q x : Key) :
  In (p, x) (edges t) -> In (q, x) (edges t) -> p = q.
Proof.
  intros Hp Hq. apply parents_In in Hp, Hq.
  pose proof (inv_unique _ _ _ _ HT x) as Hl.
  destruct (parents t x) as [|y [|z l]]; simpl in *; [contradiction | | lia].
  destruct Hp as [<- | []], Hq as [<- | []]. reflexivity.
Qed.

(** A node without parent that is above [x] is above every ancestor of [x]. *)
Lemma root_above (m b x : Key) :
  parents t m = [] -> anc t m x -> anc t b x -> anc t m b.
Proof.
  intros Hm Hmx Hbx. induction Hbx as [|p x He Hbp IH]; [assumption|].
  apply IH. inversion Hmx as [|p' x' He' Hmp']; subst.
  - exfalso. eapply edge_no_parent; eassumption.
  - now rewrite (unique_parent p p' x He He').
Qed.

Lemma anc_of_root (a top : Key) : parents t top = [] -> anc t a top -> a = top.
Proof.
  intros Hp Ha. inversion Ha as [|p x He _]; subst; [reflexivity|].
  exfalso. eapply edge_no_parent; eassumption.
Qed.

Variable m : Key.
Variable h : NodePtr.
Variable w : Chain.
Hypothesis m_unresolved : find m chains = None.

Lemma nearestCommon_grows (cands : list Key) (n : Key) :
  nearestCommon t cands n -> nearestCommon (recordEdge t h m) cands n.
Proof.
  intros [Hi Hii]. split.
  - intros c Hc. apply anc_recordEdge. auto.
  - intros a Ha.
    destruct (forall_or_exists (fun c => anc t a c)
                (fun c => exists f, h = Some f /\ anc t a f /\ anc t m c) cands)
      as [Hold | [c0 [Hc0 [f [Hh [Haf Hmc]]]]]].
    + intros c Hc. apply anc_recordEdge_inv. auto.
    + apply anc_recordEdge. auto.
    + assert (Hmn : anc t m n).
      { apply root_above with (x := c0); auto.
        now apply (unresolved_no_parent _ _ _ _ HT). }
      apply anc_trans with (b := m); [|now apply anc_recordEdge].
      apply anc_step with (p := f); [|now apply anc_recordEdge].
      apply edges_recordEdge. right. auto.
Qed.

Lemma noCommon_grows (cands : list Key) :
  noCommon t chains cands ->
  noCommon (recordEdge t h m) (emplace m w chains) cands.
Proof.
  intros [Htop Hno].
  assert (Hm : parents t m = []) by now apply (unresolved_no_parent _ _ _ _ HT).
  split.
  - intros c Hc. destruct (Htop c Hc) as [top [Ha [Hp Hr]]].
    exists top. split; [now apply anc_recordEdge|]. split.
    + rewrite parents_recordEdge, Hp. destruct h as [f|]; [|reflexivity].
      destruct (Nat.eqb m top) eqn:E; [|reflexivity].
      apply Nat.eqb_eq in E. subst top. contradiction.
    + apply resolved_emplace. now right.
  - intros a Ha. apply (Hno a). intros c Hc.
    destruct (anc_recordEdge_inv _ _ _ _ _ (Ha c Hc)) as [H | [f [_ [_ Hmc]]]];
      [assumption|].
    exfalso. destruct (Htop c Hc) as [top [Hac [Hp Hr]]].
    assert (Hmt : anc t m top) by (eapply root_above; eassumption).
    apply anc_of_root in Hmt; [|assumption]. subst top. contradiction.
Qed.

Lemma mergeCorrect_grows (cands : list Key) (n : Key) :
  n <> m ->
  mergeCorrect t chains cands (parents t n) ->
  mergeCorrect (recordEdge t h m) (emplace m w chains) cands
               (parents (recordEdge t h m) n).
Proof.
  intros Hn. rewrite parents_recordEdge.
  assert (E : match h with
              | Some first => if Nat.eqb m n then [first] else []
              | None => []
              end = []).
  { destruct h; [|reflexivity]. destruct (Nat.eqb m n) eqn:E; [|reflexivity].
    apply Nat.eqb_eq in E. congruence. }
  rewrite E, app_nil_r. unfold mergeCorrect.
  destruct (parents t n) as [|p [|q l]]; [|  |auto].
  - apply noCommon_grows.
  - apply nearestCommon_grows.
Qed.

End Growth.

Lemma noCommon_resolved (t : DominatorTree) (chains chains' : list (Key * Chain))
    (cands : list Key) :
  (forall x, resolved chains x -> resolved chains' x) ->
  noCommon t chains cands -> noCommon t chains' cands.
Proof.
  intros Hres [Htop Hno]. split; [|assumption].
  intros c Hc. destruct (Htop c Hc) as [top [Ha [Hp Hr]]]. eauto.
Qed.

Lemma mergeCorrect_resolved (t : DominatorTree) (chains chains' : list (Key * Chain))
    (cands ps : list Key) :
  (forall x, resolved chains x -> resolved chains' x) ->
  mergeCorrect t chains cands ps -> mergeCorrect t chains' cands ps.
Proof.
  intros Hres. unfold mergeCorrect. destruct ps as [|p [|q l]]; auto.
  now apply noCommon_resolved.
Qed.

(** ** What the merge computes *)

(** The entries that the loop drops are not matched by some candidate that
    is matched further along the list, and every candidate is matched at or
    before the entry at which the loop ends. *)
Lemma mergeRemaining_trace (rest : list (Key * Chain)) :
  forall l w, mergeRemaining rest l = Some w ->
    exists pre, l = pre ++ w /\
      (forall c ch, In (c, ch) rest ->
         exists e l1 l2 l3, l = l1 ++ e :: l2 /\ chainMatches c ch e = true /\
                            e :: l2 = l3 ++ w) /\
      (forall x, In x pre ->
         exists c ch e q1 q2, In (c, ch) rest /\ chainMatches c ch x = false /\
                              chainMatches c ch e = true /\
                              l = q1 ++ x :: q2 /\ In e q2).
Proof.
  induction rest as [|[c ch] rest IH]; intros l w; simpl.
  - intros [= <-]. exists []. split; [reflexivity|].
    split; [intros c ch [] | intros x []].
  - destruct (dropUntil (chainMatches c ch) l) as [l1|] eqn:E; [|discriminate].
    intros H. apply dropUntil_spec in E.
    destruct E as [pre0 [e0 [post0 [-> [-> [He0 Hpre0]]]]]].
    destruct (IH _ _ H) as [pre1 [Hl1 [HM HN]]].
    exists (pre0 ++ pre1). split; [rewrite <- app_assoc; now rewrite <- Hl1|].
    split.
    + intros c' ch' [[= <- <-] | Hin].
      * exists e0, pre0, post0, pre1. auto.
      * destruct (HM c' ch' Hin) as [e [l1 [l2 [l3 [Hl [Hm Hs]]]]]].
        exists e, (pre0 ++ l1), l2, l3. rewrite Hl, <- app_assoc. auto.
    + intros x Hx. apply in_app_iff in Hx. destruct Hx as [Hx | Hx].
      * destruct (in_split _ _ Hx) as [p1 [p2 ->]].
        exists c, ch, e0, p1, (p2 ++ e0 :: post0).
        split; [now left|]. split; [now apply Hpre0|]. split; [assumption|].
        split; [now rewrite <- app_assoc|].
        apply in_app_iff. right. now left.
      * destruct (HN x Hx) as [c' [ch' [e [q1 [q2 [Hin [Hnx [He [Hl Hq]]]]]]]]].
        exists c', ch', e, (pre0 ++ q1), q2.
        split; [now right|]. split; [assumption|]. split; [assumption|].
        split; [rewrite Hl; now rewrite <- app_assoc | assumption].
Qed.

Lemma last_app_nonempty (l1 l2 : Chain) (d : NodePtr) :
  l2 <> [] -> last (l1 ++ l2) d = last l2 d.
Proof.
  intros Hne. induction l1 as [|a l1 IH]; [reflexivity|].
  simpl. rewrite IH. destruct (l1 ++ l2) eqn:E; [|reflexivity].
  apply app_eq_nil in E. destruct E as [_ E]. contradiction.
Qed.

Section MergeMeaning.

Variable cfg : ControlFlowGraph.
Variable rank : Key -> nat.
Variable t : DominatorTree.
Variable chains : list (Key * Chain).
Hypothesis HT : TreeInv cfg rank t chains.

Lemma known_climbs (c : Key) (ch : Chain) :
  find c chains = Some ch -> climbs t chains (Some c :: ch).
Proof. intros Hf. now apply (inv_chain _ _ _ _ HT) in Hf. Qed.

(** An entry that matches a candidate is the candidate or one of its
    ancestors. *)
Lemma match_anc (c : Key) (ch : Chain) (e : Key) :
  find c chains = Some ch -> chainMatches c ch (Some e) = true -> anc t e c.
Proof.
  intros Hf Hm. apply chainMatches_spec in Hm.
  apply (climbs_anc_later t chains ch c e (known_climbs c ch Hf)).
  destruct Hm as [[= ->] | Hm]; [now left | now right].
Qed.

(** The node at which a climbing list stops is above all its nodes. *)
Lemma climbs_last_anc (l : Chain) :
  forall x b, climbs t chains (Some x :: l) -> last (Some x :: l) None = Some b ->
              anc t b x.
Proof.
  intros x b Hc Hl. apply (climbs_anc_later t chains l x b Hc).
  rewrite <- Hl. apply last_In. discriminate.
Qed.

(** An ancestor of a candidate that does not match it lies above every
    entry that does. *)
Lemma unmatched_above (c : Key) (ch : Chain) (a : Key) (e : NodePtr) :
  find c chains = Some ch -> anc t a c ->
  chainMatches c ch (Some a) = false -> chainMatches c ch e = true ->
  exists e', e = Some e' /\ rank a <= rank e'.
Proof.
  intros Hf Ha Hna He.
  pose proof (known_climbs c ch Hf) as Hcl.
  destruct (anc_on_climb t chains ch c a Hcl Ha) as [Hin | [b [Hlast Hab]]].
  - exfalso. assert (chainMatches c ch (Some a) = true); [|congruence].
    apply chainMatches_spec. destruct Hin as [Hin | Hin]; [left | right]; auto.
  - assert (Hein : In e (Some c :: ch)).
    { apply chainMatches_spec in He. destruct He as [-> | He]; [now left | now right]. }
    destruct e as [e'|].
    + exists e'. split; [reflexivity|].
      assert (Hbe : anc t b e').
      { destruct (in_split _ _ Hein) as [l1 [l2 Hl]].
        assert (Hcl2 : climbs t chains (Some e' :: l2)).
        { rewrite Hl in Hcl. now apply climbs_suffix in Hcl. }
        apply (climbs_last_anc l2 e' b Hcl2).
        rewrite Hl in Hlast.
        rewrite last_app_nonempty in Hlast; [assumption | discriminate]. }
      apply (anc_rank_le _ _ _ _ HT) in Hab, Hbe. lia.
    + exfalso.
      pose proof (climbs_complete_last t chains _ Hcl Hein) as E. congruence.
Qed.

Variable c1 : Key.
Variable ch1 : Chain.
Variable rest : list (Key * Chain).
Variable cands : list Key.
Variable w : Chain.
Hypothesis first_known : find c1 chains = Some ch1.
Hypothesis rest_known : forall c ch, In (c, ch) rest -> find c chains = Some ch.
Hypothesis cands_covered :
  forall c, In c cands -> c = c1 \/ exists ch, In (c, ch) rest.
Hypothesis merged : mergeRemaining rest (Some c1 :: ch1) = Some w.

(** No dropped entry is a common ancestor of the candidates. *)
Lemma dropped_not_common (pre : Chain) (a : Key) :
  Some c1 :: ch1 = pre ++ w -> In (Some a) pre ->
  (forall c, In c cands -> anc t a c) ->
  (forall c ch, In (c, ch) rest -> In c cands) -> False.
Proof.
  intros Hseed Hin Hcommon Hrest.
  destruct (mergeRemaining_trace _ _ _ merged) as [pre' [Hseed' [_ HN]]].
  assert (pre' = pre).
  { rewrite Hseed in Hseed'. now apply app_inv_tail in Hseed'. }
  subst pre'.
  destruct (HN _ Hin) as [c [ch [e [q1 [q2 [Hc [Hna [He [Hl Hq]]]]]]]]].
  destruct (unmatched_above c ch a e (rest_known c ch Hc) (Hcommon c (Hrest c ch Hc))
              Hna He) as [e' [-> Hle]].
  pose proof (known_climbs c1 ch1 first_known) as Hcl.
  rewrite Hl in Hcl. apply climbs_suffix in Hcl.
  destruct (climbs_entries _ _ _ _ HT q2 a e' Hcl Hq) as [Hlt _]. lia.
Qed.

End MergeMeaning.

Section MergeResult.

Variable cfg : ControlFlowGraph.
Variable rank : Key -> nat.
Variable t : DominatorTree.
Variable chains : list (Key * Chain).
Hypothesis HT : TreeInv cfg rank t chains.

(** Above a node with a complete chain is a resolved node without parent. *)
Lemma climbs_top (l : Chain) :
  forall x, climbs t chains (Some x :: l) -> In None l ->
            exists top, anc t top x /\ parents t top = [] /\ resolved chains top.
Proof.
  induction l as [|b l IH]; intros x Hc Hin; [contradiction|].
  destruct Hc as [Hl Hc]. destruct b as [p|].
  - simpl in Hl. destruct Hin as [[=] | Hin].
    destruct (IH p Hc Hin) as [top [Ha Htop]]. exists top. split; [|assumption].
    apply anc_trans with (b := p); [assumption | now apply anc_parent].
  - simpl in Hl. exists x. split; [apply anc_refl | assumption].
Qed.

Variable c1 : Key.
Variable ch1 : Chain.
Variable rest : list (Key * Chain).
Variable cands : list Key.
Variable h : NodePtr.
Variable tl : Chain.
Hypothesis first_known : find c1 chains = Some ch1.
Hypothesis first_cand : In c1 cands.
Hypothesis rest_known : forall c ch, In (c, ch) rest -> find c chains = Some ch.
Hypothesis rest_cands : forall c ch, In (c, ch) rest -> In c cands.
Hypothesis cands_covered :
  forall c, In c cands -> c = c1 \/ exists ch, In (c, ch) rest.
Hypothesis merged : mergeRemaining rest (Some c1 :: ch1) = Some (h :: tl).

Lemma seed_climbs : climbs t chains (Some c1 :: ch1).
Proof. now apply (known_climbs cfg rank t chains HT). Qed.

Lemma seed_split : exists pre, Some c1 :: ch1 = pre ++ h :: tl.
Proof. apply (mergeRemaining_suffix _ _ _ merged). Qed.

(** Where a candidate of the rest is matched: at a node below the final
    head, or at the end marker. *)
Lemma rest_match (c : Key) (ch : Chain) :
  In (c, ch) rest ->
  exists e l2, climbs t chains (e :: l2) /\ In h (e :: l2) /\
               chainMatches c ch e = true.
Proof.
  intros Hin. destruct (mergeRemaining_trace _ _ _ merged) as [_ [_ [HM _]]].
  destruct (HM c ch Hin) as [e [l1 [l2 [l3 [Hl [Hm Hs]]]]]].
  exists e, l2. split; [|split; [|assumption]].
  - pose proof seed_climbs as Hcl. rewrite Hl in Hcl.
    now apply climbs_suffix in Hcl.
  - rewrite Hs. apply in_app_iff. right. now left.
Qed.

Lemma merge_common (f c : Key) : h = Some f -> In c cands -> anc t f c.
Proof.
  intros Hh Hc. destruct seed_split as [pre Hseed]. pose proof seed_climbs as Hcl.
  destruct (cands_covered c Hc) as [-> | [ch Hin]].
  - apply (climbs_anc_later t chains ch1 c1 f Hcl).
    rewrite Hseed, Hh. apply in_app_iff. right. now left.
  - destruct (rest_match c ch Hin) as [e [l2 [Hcl2 [Hf Hm]]]]. rewrite Hh in Hf.
    destruct e as [e'|].
    + apply anc_trans with (b := e').
      * now apply (climbs_anc_later t chains l2 e' f Hcl2).
      * apply (match_anc cfg rank t chains HT c ch e'); auto.
    + exfalso. destruct Hf as [[=] | Hf]. destruct Hcl2 as [Hlink _].
      destruct l2; [contradiction | exact Hlink].
Qed.

Lemma merge_nearest (f a : Key) :
  h = Some f -> (forall c, In c cands -> anc t a c) -> anc t a f.
Proof.
  intros Hh Hcommon. destruct seed_split as [pre Hseed]. pose proof seed_climbs as Hcl.
  assert (Hcl2 : climbs t chains (Some f :: tl)).
  { rewrite Hseed, Hh in Hcl. now apply climbs_suffix in Hcl. }
  destruct (anc_on_climb t chains ch1 c1 a Hcl (Hcommon c1 first_cand))
    as [Hin | [b [Hlast Hab]]].
  - rewrite Hseed in Hin. apply in_app_iff in Hin. destruct Hin as [Hin | Hin].
    + exfalso.
      apply (dropped_not_common cfg rank t chains HT c1 ch1 rest cands (h :: tl)
               first_known rest_known merged pre a); auto.
    + rewrite Hh in Hin. now apply (climbs_anc_later t chains tl f a Hcl2).
  - apply anc_trans with (b := b); [assumption|].
    apply (climbs_last_anc t chains tl f b Hcl2).
    rewrite Hseed, Hh in Hlast.
    rewrite last_app_nonempty in Hlast; [assumption | discriminate].
Qed.

Lemma merge_tops (c : Key) :
  h = None -> In c cands ->
  exists top, anc t top c /\ parents t top = [] /\ resolved chains top.
Proof.
  intros Hh Hc. destruct seed_split as [pre Hseed]. pose proof seed_climbs as Hcl.
  destruct (cands_covered c Hc) as [-> | [ch Hin]].
  - apply (climbs_top ch1 c1 Hcl).
    assert (Hn : In None (Some c1 :: ch1)).
    { rewrite Hseed, Hh. apply in_app_iff. right. now left. }
    destruct Hn as [[=] | Hn]. exact Hn.
  - destruct (rest_match c ch Hin) as [e [l2 [Hcl2 [Hf Hm]]]]. rewrite Hh in Hf.
    destruct e as [e'|].
    + destruct Hf as [[=] | Hf].
      destruct (climbs_top l2 e' Hcl2 Hf) as [top [Ha Htop]].
      exists top. split; [|assumption].
      apply anc_trans with (b := e'); [assumption|].
      apply (match_anc cfg rank t chains HT c ch e'); auto.
    + apply chainMatches_spec in Hm. destruct Hm as [[=] | Hm].
      apply (climbs_top ch c); [|assumption].
      apply (known_climbs cfg rank t chains HT). auto.
Qed.

Lemma merge_none_common (a : Key) :
  h = None -> ~ (forall c, In c cands -> anc t a c).
Proof.
  intros Hh Hcommon. destruct seed_split as [pre Hseed]. pose proof seed_climbs as Hcl.
  assert (Hn : In None (Some c1 :: ch1)).
  { rewrite Hseed, Hh. apply in_app_iff. right. now left. }
  assert (Htl : tl = []).
  { rewrite Hseed, Hh in Hcl. now apply climbs_None_end in Hcl. }
  pose proof (anc_on_complete_climb t chains ch1 c1 a Hcl Hn (Hcommon c1 first_cand))
    as Hin.
  rewrite Hseed, Hh, Htl in Hin. apply in_app_iff in Hin.
  destruct Hin as [Hin | [[=] | []]].
  apply (dropped_not_common cfg rank t chains HT c1 ch1 rest cands (h :: tl)
           first_known rest_known merged pre a); auto.
Qed.

End MergeResult.

(** ** Every merge records the nearest common ancestor *)

Section MergeCorrect.

Variable bucketOrder : list Key -> list Key.
Hypothesis bucketOrder_perm : forall l, Permutation (bucketOrder l) l.
Variable cfg : ControlFlowGraph.
Variable rank : Key -> nat.
Hypothesis cfg_unique : uniqueKeys cfg.
Hypothesis cfg_closed : closedCFG cfg.
Hypothesis cfg_ranked : ranked rank cfg.

Lemma merge_correct (t : DominatorTree) (chains : list (Key * Chain))
    (node : CFGNode) (pdc : list (Key * Chain)) (h : NodePtr) (tl : Chain) :
  TreeInv cfg rank t chains -> In node cfg ->
  find (key node) chains = None ->
  candidateChains bucketOrder chains (getDominatorCandidates node) = Some pdc ->
  mergeChains pdc = Some (h :: tl) ->
  mergeCorrect (recordEdge t h (key node)) (emplace (key node) (h :: tl) chains)
               (getDominatorCandidates node)
               (parents (recordEdge t h (key node)) (key node)).
Proof.
  intros HT Hnode Hf Hc Hm.
  apply (candidateChains_spec _ bucketOrder_perm) in Hc. destruct Hc as [S1 S2].
  apply mergeChains_spec in Hm.
  destruct Hm as [c1 [ch1 [rest [pre [-> [Hmerged _]]]]]].
  set (cands := getDominatorCandidates node) in *.
  assert (first_known : find c1 chains = Some ch1) by (apply S1; now left).
  assert (first_cand : In c1 cands) by (apply (S1 c1 ch1); now left).
  assert (rest_known : forall c ch, In (c, ch) rest -> find c chains = Some ch).
  { intros c ch H. apply S1. now right. }
  assert (rest_cands : forall c ch, In (c, ch) rest -> In c cands).
  { intros c ch H. apply (S1 c ch). now right. }
  assert (cands_covered : forall c, In c cands -> c = c1 \/ exists ch, In (c, ch) rest).
  { intros c H. destruct (S2 c H) as [ch [[= <- <-] | Hin]]; eauto. }
  rewrite parents_recordEdge, (unresolved_no_parent _ _ _ _ HT _ Hf). simpl.
  destruct h as [f|]; [rewrite Nat.eqb_refl|]; simpl.
  - split.
    + intros c Hcand. apply (anc_recordEdge t (Some f) (key node)).
      eapply merge_common; eauto.
    + intros a Ha. apply (anc_recordEdge t (Some f) (key node)).
      eapply merge_nearest; eauto.
      intros c Hcand.
      destruct (anc_recordEdge_inv t (Some f) (key node) a c (Ha c Hcand))
        as [H | [f' [_ [_ Hnc]]]]; [assumption|].
      exfalso. apply (anc_rank_le _ _ _ _ HT) in Hnc.
      pose proof (cfg_ranked node c Hnode Hcand). lia.
  - apply noCommon_resolved with (chains := chains).
    + intros x Hx. apply resolved_emplace. now right.
    + split.
      * intros c Hcand. eapply merge_tops; eauto.
      * intros a. eapply merge_none_common; eauto.
Qed.

Lemma NcaInv_extend (t : DominatorTree) (chains : list (Key * Chain))
    (pending : list (Key * list Key)) (k : Key) :
  NcaInv cfg (mkState t chains pending) ->
  NcaInv cfg (mkState t (extendChain chains k) pending).
Proof.
  intros H node Hin Hlen Hres. simpl in *.
  apply mergeCorrect_resolved with (chains := chains).
  - intros x. apply resolved_extendChain.
  - apply H; try assumption. now apply (resolved_extendChain chains k).
Qed.

Lemma NcaInv_resolve (t : DominatorTree) (chains : list (Key * Chain))
    (kept : list (Key * list Key)) (n : Key) (cands : list Key)
    (todo : list (Key * list Key)) (t' : DominatorTree) (chains' : list (Key * Chain)) :
  RoundInv cfg rank (mkState t chains (kept ++ (n, cands) :: todo)) ->
  NcaInv cfg (mkState t chains (kept ++ (n, cands) :: todo)) ->
  mergeAttempt bucketOrder t chains n cands = Done (Some (t', chains')) ->
  NcaInv cfg (mkState t' chains' (kept ++ todo)).
Proof.
  intros HR HN Hm.
  pose proof (ri_tree _ _ _ HR) as HT. simpl in HT.
  assert (Hin : In (n, cands) (kept ++ (n, cands) :: todo))
    by (apply in_app_iff; right; now left).
  destruct (ri_pending _ _ _ HR n cands Hin) as [Hf [node [Hnode [Hkey [Hcands Hlen]]]]].
  simpl in Hf.
  apply mergeAttempt_resolved in Hm.
  destruct Hm as [pdc [w [Hc [Hw [-> Ht']]]]].
  rewrite <- Hcands in Hc.
  destruct (merge_working_list bucketOrder bucketOrder_perm cfg rank cfg_closed
              cfg_ranked t chains node pdc w HT Hnode Hc Hw)
    as [h [rest [-> [_ _]]]].
  assert (Ht : t' = recordEdge t h n).
  { simpl in Ht'. destruct Ht' as [[first [-> [_ [_ ->]]]] | [-> ->]]; reflexivity. }
  subst t'. clear Ht'.
  intros node' Hnode' Hlen' Hres'. simpl in *.
  apply resolved_emplace in Hres'.
  destruct (Nat.eq_dec (key node') n) as [Heq | Hne].
  - assert (node' = node).
    { apply (uniqueKeys_node cfg); auto. congruence. }
    subst node'. rewrite <- Hkey in *. now apply merge_correct with (pdc := pdc).
  - destruct Hres' as [Hres' | Hres']; [contradiction|].
    apply (mergeCorrect_grows cfg rank t chains HT n h (h :: rest) Hf); auto.
Qed.

Lemma pendingState_NcaInv : NcaInv cfg (pendingState bucketOrder cfg).
Proof.
  intros node Hin Hlen Hres. exfalso. apply Hres. unfold pendingState. simpl.
  now apply directPass_unresolved.
Qed.

Lemma buildState_NcaInv (fuel : nat) (st : State) :
  buildState bucketOrder fuel cfg = Done st -> RoundInv cfg rank st /\ NcaInv cfg st.
Proof.
  unfold buildState.
  apply (resolveLoop_invariant bucketOrder
           (fun s => RoundInv cfg rank s /\ NcaInv cfg s)).
  - intros t chains pending k [HR HN]. split.
    + now apply RoundInv_extend.
    + now apply NcaInv_extend.
  - intros t chains kept n cands todo t' chains' [HR HN] Hm. split.
    + eapply RoundInv_resolve; eassumption.
    + eapply NcaInv_resolve; eassumption.
  - split; [now apply pendingState_RoundInv | apply pendingState_NcaInv].
Qed.

End MergeCorrect.

(** ** Nodes that the direct pass resolves keep their parents *)

Lemma buildState_direct_parents (bucketOrder : list Key -> list Key)
    (fuel : nat) (cfg : ControlFlowGraph) (st : State) (node : CFGNode) :
  (forall l, Permutation (bucketOrder l) l) ->
  uniqueKeys cfg -> In node cfg ->
  buildState bucketOrder fuel cfg = Done st ->
  length (getDominatorCandidates node) < 2 ->
  parents (tree st) (key node) =
  match getDominatorCandidates node with [c] => [c] | _ => [] end.
Proof.
  intros Hperm Hu Hin Hst Hlen. apply buildState_growsFrom in Hst.
  rewrite (growsFrom_parents _ _ (key node) Hst).
  - unfold pendingState. simpl. now apply directPass_parents.
  - intros Hp. apply (pendingState_keys _ Hperm) in Hp.
    pose proof (directPass_pending_multi _ _ Hu Hin Hp) as Hl. lia.
Qed.

Lemma anc_inv_parent (t : DominatorTree) (a x p : Key) :
  parents t x = [p] -> anc t a x -> a = x \/ anc t a p.
Proof.
  intros Hp Ha. inversion Ha as [|q x' He Hq]; subst; [now left|].
  right. now rewrite <- (edge_parent t q p x Hp He).
Qed.

Lemma anc_inv_root (t : DominatorTree) (a x : Key) :
  parents t x = [] -> anc t a x -> a = x.
Proof.
  intros Hp Ha. inversion Ha as [|q x' He Hq]; subst; [reflexivity|].
  exfalso. eapply edge_no_parent; eassumption.
Qed.

(** Well-formedness does not depend on the order in which the nodes are
    enumerated. *)
Lemma uniqueKeys_perm (cfg cfg' : ControlFlowGraph) :
  Permutation cfg cfg' -> uniqueKeys cfg' -> uniqueKeys cfg.
Proof.
  unfold uniqueKeys. intros Hp. apply Permutation_NoDup.
  apply Permutation_map. now apply Permutation_sym.
Qed.

Lemma closedCFG_perm (cfg cfg' : ControlFlowGraph) :
  Permutation cfg cfg' -> closedCFG cfg' -> closedCFG cfg.
Proof.
  intros Hp Hc node c Hin Hcand.
  apply (Permutation_in _ (Permutation_map key (Permutation_sym Hp))).
  apply (Hc node); [|assumption]. eapply Permutation_in; eassumption.
Qed.

Lemma ranked_perm (rank : Key -> nat) (cfg cfg' : ControlFlowGraph) :
  Permutation cfg cfg' -> ranked rank cfg' -> ranked rank cfg.
Proof.
  intros Hp Hr node c Hin Hcand. apply Hr; [|assumption].
  eapply Permutation_in; eassumption.
Qed.

(** ** The parents do not depend on the enumeration orders *)

Section OrderIndependence.

Variable cfg1 cfg2 : ControlFlowGraph.
Variable rank : Key -> nat.
Variable s1 s2 : State.
Hypothesis same_nodes : Permutation cfg1 cfg2.
Hypothesis cfg_ranked : ranked rank cfg1.
Hypothesis R1 : RoundInv cfg1 rank s1.
Hypothesis R2 : RoundInv cfg2 rank s2.
Hypothesis N1 : NcaInv cfg1 s1.
Hypothesis N2 : NcaInv cfg2 s2.
Hypothesis done1 : predecessors s1 = [].
Hypothesis done2 : predecessors s2 = [].
Hypothesis direct1 : forall node, In node cfg1 ->
  length (getDominatorCandidates node) < 2 ->
  parents (tree s1) (key node) =
  match getDominatorCandidates node with [c] => [c] | _ => [] end.
Hypothesis direct2 : forall node, In node cfg2 ->
  length (getDominatorCandidates node) < 2 ->
  parents (tree s2) (key node) =
  match getDominatorCandidates node with [c] => [c] | _ => [] end.

Lemma anc_transfer (ta tb : DominatorTree) (r : nat) :
  (forall p x, In (p, x) (edges ta) -> rank p < rank x) ->
  (forall x, rank x < r -> parents ta x = parents tb x) ->
  forall a c, anc ta a c -> rank c < r -> anc tb a c.
Proof.
  intros Hrank Hsame a c Ha. induction Ha as [|p x He Hp IH]; intros Hr.
  - apply anc_refl.
  - apply anc_step with (p := p).
    + apply parents_In. rewrite <- Hsame by assumption. now apply parents_In.
    + apply IH. apply Hrank in He. lia.
Qed.

Lemma outside_no_parent (cfg : ControlFlowGraph) (s : State) (n : Key) :
  RoundInv cfg rank s -> ~ In n (map key cfg) -> parents (tree s) n = [].
Proof.
  intros HR Hn. destruct (parents (tree s) n) as [|p l] eqn:E; [reflexivity|].
  exfalso. apply Hn.
  assert (He : In (p, n) (edges (tree s))) by (apply parents_In; rewrite E; now left).
  now apply (inv_keys _ _ _ _ (ri_tree _ _ _ HR)) in He.
Qed.

Lemma all_resolved (cfg : ControlFlowGraph) (s : State) (node : CFGNode) :
  RoundInv cfg rank s -> predecessors s = [] -> In node cfg ->
  resolved (dominatorChains s) (key node).
Proof.
  intros HR Hd Hin. destruct (ri_cover _ _ _ HR node Hin) as [H | H]; [assumption|].
  rewrite Hd in H. contradiction.
Qed.

Lemma parents_agree_below (r : nat) :
  forall n, rank n < r -> parents (tree s1) n = parents (tree s2) n.
Proof.
  induction r as [|r IH]; intros n Hn; [lia|].
  pose proof (ri_tree _ _ _ R1) as T1. pose proof (ri_tree _ _ _ R2) as T2.
  destruct (in_dec Nat.eq_dec n (map key cfg1)) as [Hk | Hk].
  - apply in_map_iff in Hk. destruct Hk as [node [<- Hin1]].
    assert (Hin2 : In node cfg2) by (eapply Permutation_in; eassumption).
    destruct (le_lt_dec 2 (length (getDominatorCandidates node))) as [Hl | Hl].
    + pose proof (N1 node Hin1 Hl (all_resolved cfg1 s1 node R1 done1 Hin1)) as C1.
      pose proof (N2 node Hin2 Hl (all_resolved cfg2 s2 node R2 done2 Hin2)) as C2.
      assert (Hcr : forall c, In c (getDominatorCandidates node) -> rank c < r).
      { intros c Hc. pose proof (cfg_ranked node c Hin1 Hc). lia. }
      assert (X12 : forall a c, In c (getDominatorCandidates node) ->
                                anc (tree s1) a c -> anc (tree s2) a c).
      { intros a c Hc Ha. apply (anc_transfer (tree s1) (tree s2) r); auto.
        apply (inv_rank _ _ _ _ T1). }
      assert (X21 : forall a c, In c (getDominatorCandidates node) ->
                                anc (tree s2) a c -> anc (tree s1) a c).
      { intros a c Hc Ha. apply (anc_transfer (tree s2) (tree s1) r); auto.
        - apply (inv_rank _ _ _ _ T2).
        - intros x Hx. symmetry. now apply IH. }
      unfold mergeCorrect in C1, C2.
      destruct (parents (tree s1) (key node)) as [|h1 [|q1 l1]];
        destruct (parents (tree s2) (key node)) as [|h2 [|q2 l2]];
        try contradiction; try reflexivity.
      * exfalso. destruct C1 as [_ Hno]. destruct C2 as [Hc2 _].
        apply (Hno h2). intros c Hc. apply X21; auto.
      * exfalso. destruct C2 as [_ Hno]. destruct C1 as [Hc1 _].
        apply (Hno h1). intros c Hc. apply X12; auto.
      * destruct C1 as [Hc1 Hn1]. destruct C2 as [Hc2 Hn2].
        assert (A2 : anc (tree s2) h1 h2).
        { apply Hn2. intros c Hc. apply X12; auto. }
        assert (A1 : anc (tree s1) h2 h1).
        { apply Hn1. intros c Hc. apply X21; auto. }
        apply (anc_rank _ _ _ _ T2) in A2. apply (anc_rank _ _ _ _ T1) in A1.
        destruct A2 as [-> | A2]; [reflexivity|].
        destruct A1 as [-> | A1]; [reflexivity | lia].
    + rewrite direct1, direct2 by assumption. reflexivity.
  - rewrite (outside_no_parent cfg1 s1 n R1 Hk).
    rewrite (outside_no_parent cfg2 s2 n R2); [reflexivity|].
    intros H. apply Hk.
    apply (Permutation_in _ (Permutation_map key (Permutation_sym same_nodes)) H).
Qed.

End OrderIndependence.

(** X2: on a CFG with unique keys, candidates inside the graph and an
    acyclic candidate relation, two completed runs on the same nodes give
    every node the same parents, whatever the orders in which the nodes and
    the containers are enumerated.  Without the acyclic candidate relation
    the parents can depend on the order ([cycle3_candidate_2_first],
    [cycle3_candidate_3_first]). *)
Lemma parents_order_independent (order1 order2 : list Key -> list Key)
    (cfg1 cfg2 : ControlFlowGraph) (rank : Key -> nat) (fuel1 fuel2 : nat)
    (t1 t2 : DominatorTree) :
  (forall l, Permutation (order1 l) l) -> (forall l, Permutation (order2 l) l) ->
  Permutation cfg1 cfg2 ->
  uniqueKeys cfg1 -> closedCFG cfg1 -> ranked rank cfg1 ->
  createDominatorTree order1 fuel1 cfg1 = Done t1 ->
  createDominatorTree order2 fuel2 cfg2 = Done t2 ->
  forall n, parents t1 n = parents t2 n.
Proof.
  intros Hp1 Hp2 Hperm Hu Hc Hr Hd1 Hd2 n.
  apply createDominatorTree_Done in Hd1. destruct Hd1 as [s1 [Hs1 <-]].
  apply createDominatorTree_Done in Hd2. destruct Hd2 as [s2 [Hs2 <-]].
  assert (Hu2 : uniqueKeys cfg2) by (apply (uniqueKeys_perm cfg2 cfg1); auto using Permutation_sym).
  assert (Hc2 : closedCFG cfg2) by (apply (closedCFG_perm cfg2 cfg1); auto using Permutation_sym).
  assert (Hr2 : ranked rank cfg2) by (apply (ranked_perm rank cfg2 cfg1); auto using Permutation_sym).
  destruct (buildState_NcaInv order1 Hp1 cfg1 rank Hu Hc Hr fuel1 s1 Hs1) as [R1 N1].
  destruct (buildState_NcaInv order2 Hp2 cfg2 rank Hu2 Hc2 Hr2 fuel2 s2 Hs2) as [R2 N2].
  apply (parents_agree_below cfg1 cfg2 rank s1 s2 Hperm Hr R1 R2 N1 N2) with (r := S (rank n)).
  - apply (resolveLoop_Done_empty _ _ _ _ Hs1).
  - apply (resolveLoop_Done_empty _ _ _ _ Hs2).
  - intros node Hin Hl. now apply (buildState_direct_parents order1 fuel1 cfg1).
  - intros node Hin Hl. now apply (buildState_direct_parents order2 fuel2 cfg2).
  - lia.
Qed.

(** ** The edges of trees with the same parents *)




Lemma threeFirst_perm (l : list Key) : Permutation (threeFirst l) l.
Proof.
  unfold threeFirst. induction l as [|a l IH]; [constructor|].
  cbn [filter]. destruct (Nat.eqb 3 a); cbn [negb app].
  - apply perm_skip, IH.
  - apply Permutation_sym.
    apply (Permutation_cons_app (filter (Nat.eqb 3) l)
             (filter (fun x => negb (Nat.eqb 3 x)) l) a).
    now apply Permutation_sym.
Qed.

(** ** A single entry *)

Lemma entry_only_root (cfg : ControlFlowGraph) (entry : Key) (node : CFGNode) :
  uniqueKeys cfg -> singleEntry cfg entry -> In node cfg ->
  (getDominatorCandidates node = [] <-> key node = entry).
Proof.
  intros Hu [[e [He [Hk Hc]]] Hreach] Hin. split.
  - intros Hnone. specialize (Hreach node Hin).
    remember (key node) as k eqn:Ek.
    destruct Hreach as [|node' c Hin' Hc' _]; [reflexivity|].
    rewrite (uniqueKeys_node cfg node' node Hu Hin' Hin Ek) in Hc'.
    rewrite Hnone in Hc'. contradiction.
  - intros Hk'. rewrite (uniqueKeys_node cfg node e Hu Hin He); [assumption | congruence].
Qed.

Lemma anc_source (t : DominatorTree) (a x : Key) :
  anc t a x -> a = x \/ exists y, In (a, y) (edges t).
Proof.
  intros H. induction H as [|p x He Hp IH]; [now left|].
  right. destruct IH as [-> | IH]; [eauto | assumption].
Qed.

(** With a single entry every node lies below the entry, and every node
    with candidates has a parent. *)
Lemma below_entry (bucketOrder : list Key -> list Key) (cfg : ControlFlowGraph)
    (rank : Key -> nat) (entry : Key) (fuel : nat) (st : State) :
  (forall l, Permutation (bucketOrder l) l) ->
  uniqueKeys cfg -> closedCFG cfg -> ranked rank cfg -> singleEntry cfg entry ->
  buildState bucketOrder fuel cfg = Done st ->
  forall r node, In node cfg -> rank (key node) < r ->
    anc (tree st) entry (key node) /\
    (getDominatorCandidates node <> [] ->
     exists p, parents (tree st) (key node) = [p]).
Proof.
  intros Hperm Hu Hc Hr Hse Hst.
  destruct (buildState_NcaInv bucketOrder Hperm cfg rank Hu Hc Hr fuel st Hst) as [HR HN].
  pose proof (resolveLoop_Done_empty _ _ _ _ Hst) as Hempty.
  induction r as [|r IH]; intros node Hin Hlt; [lia|].
  assert (Hcand : forall c, In c (getDominatorCandidates node) -> anc (tree st) entry c).
  { intros c Hcin. pose proof (Hc node c Hin Hcin) as Hk.
    apply in_map_iff in Hk. destruct Hk as [nc [<- Hinc]].
    apply IH; [assumption|]. pose proof (Hr node _ Hin Hcin). lia. }
  destruct (getDominatorCandidates node) as [|c [|c' l]] eqn:E.
  - split; [|congruence].
    apply (entry_only_root cfg entry node Hu Hse Hin) in E. rewrite E. apply anc_refl.
  - pose proof (buildState_direct_parents bucketOrder fuel cfg st node Hperm Hu Hin Hst)
      as Hp.
    rewrite E in Hp. simpl in Hp. specialize (Hp ltac:(lia)).
    split; [|eauto].
    apply (anc_trans (tree st) entry c (key node));
      [apply Hcand; now left | now apply anc_parent].
  - assert (Hres : resolved (dominatorChains st) (key node)).
    { destruct (ri_cover _ _ _ HR node Hin) as [H | H]; [assumption|].
      rewrite Hempty in H. contradiction. }
    assert (Hlen : 2 <= length (getDominatorCandidates node))
      by (rewrite E; simpl; lia).
    pose proof (HN node Hin Hlen Hres) as HM. rewrite E in HM.
    unfold mergeCorrect in HM.
    destruct (parents (tree st) (key node)) as [|h [|q l']] eqn:P; [| |contradiction].
    + exfalso. destruct HM as [_ Hno]. apply (Hno entry). exact Hcand.
    + split; [|eauto]. destruct HM as [Hcommon Hnear].
      apply (anc_trans (tree st) entry h (key node));
        [now apply Hnear | now apply anc_parent].
Qed.

(** The first entry of a node's chain is its parent. *)
Lemma chain_head_parent (cfg : ControlFlowGraph) (rank : Key -> nat)
    (t : DominatorTree) (chains : list (Key * Chain)) (n : Key) :
  TreeInv cfg rank t chains -> resolved chains n ->
  exists h rest, find n chains = Some (h :: rest) /\
                 parents t n = match h with Some p => [p] | None => [] end.
Proof.
  intros HT Hres. unfold resolved in Hres.
  destruct (find n chains) as [ch|] eqn:E; [|contradiction].
  destruct (inv_chain _ _ _ _ HT n ch E) as [Hne Hcl].
  destruct ch as [|h rest]; [contradiction|].
  exists h, rest. split; [reflexivity|].
  simpl in Hcl. destruct Hcl as [Hl _]. destruct h; [assumption | apply Hl].
Qed.

(** ** The loop with the unmarked closing edge *)

Lemma unflaggedLoop_uniqueKeys : uniqueKeys unflaggedLoop.
Proof.
  unfold uniqueKeys. simpl.
  repeat constructor; simpl; intros H; repeat destruct H as [H | H]; try discriminate.
  all: exact H.
Qed.

Lemma unflaggedLoop_closed : closedCFG unflaggedLoop.
Proof.
  intros node c Hin Hc. simpl in Hin.
  repeat destruct Hin as [Hin | Hin]; try contradiction; subst node;
    vm_compute in Hc; repeat destruct Hc as [Hc | Hc]; try contradiction;
    subst c; simpl; auto.
Qed.

Lemma unflaggedLoop_singleEntry : singleEntry unflaggedLoop 1.
Proof.
  assert (R1 : reachable unflaggedLoop 1 1) by apply reach_entry.
  assert (R2 : reachable unflaggedLoop 1 2).
  { apply (reach_edge unflaggedLoop 1 (mkNode 2 [plainEdge 1; plainEdge 3]) 1);
      [simpl; tauto | vm_compute; tauto | exact R1]. }
  assert (R3 : reachable unflaggedLoop 1 3).
  { apply (reach_edge unflaggedLoop 1 (mkNode 3 [plainEdge 2]) 2);
      [simpl; tauto | vm_compute; tauto | exact R2]. }
  split.
  - exists (mkNode 1 []). simpl. tauto.
  - intros node Hin. simpl in Hin.
    repeat destruct Hin as [Hin | Hin]; try contradiction; subst node; assumption.
Qed.

Lemma two_orders (bucketOrder : list Key -> list Key) (a b : Key) :
  (forall l, Permutation (bucketOrder l) l) ->
  bucketOrder [a; b] = [a; b] \/ bucketOrder [a; b] = [b; a].
Proof.
  intros Hperm. apply Permutation_length_2_inv. apply Permutation_sym, Hperm.
Qed.

Lemma one_order (bucketOrder : list Key -> list Key) (a : Key) :
  (forall l, Permutation (bucketOrder l) l) -> bucketOrder [a] = [a].
Proof.
  intros Hperm. apply Permutation_length_1_inv. apply Permutation_sym, Hperm.
Qed.

(** Whatever the enumeration orders, a round leaves the state of the loop
    with the unmarked closing edge as it is. *)
Lemma unflaggedLoop_round (bucketOrder : list Key -> list Key) :
  (forall l, Permutation (bucketOrder l) l) ->
  resolveRound bucketOrder
    (mkState (mkTree [1; 2; 3] [(2, 3)]) [(1, [None]); (3, [Some 2])] [(2, [1; 3])])
  = Done (mkState (mkTree [1; 2; 3] [(2, 3)]) [(1, [None]); (3, [Some 2])]
                  [(2, [1; 3])]).
Proof.
  intros Hperm. unfold resolveRound, extendChains. cbn [tree dominatorChains predecessors].
  change (keys [(1, [None]); (3, [Some 2])]) with [1; 3].
  assert (Hext : fold_left extendChain (bucketOrder [1; 3]) [(1, [None]); (3, [Some 2])]
                 = [(1, [None]); (3, [Some 2])]).
  { destruct (two_orders bucketOrder 1 3 Hperm) as [-> | ->]; reflexivity. }
  rewrite Hext. cbn [mergePass]. unfold mergeAttempt, candidateChains.
  destruct (two_orders bucketOrder 1 3 Hperm) as [E | E]; rewrite E.
  - change (collectChains [(1, [None]); (3, [Some 2])] [1; 3] [])
      with (Some [(1, [None]); (3, [Some 2])]).
    cbn iota. change (keys [(1, [None]); (3, [Some 2])]) with [1; 3].
    rewrite E. reflexivity.
  - change (collectChains [(1, [None]); (3, [Some 2])] [3; 1] [])
      with (Some [(3, [Some 2]); (1, [None])]).
    cbn iota. change (keys [(3, [Some 2]); (1, [None])]) with [3; 1].
    destruct (two_orders bucketOrder 3 1 Hperm) as [-> | ->]; reflexivity.
Qed.

(** A loop whose closing edge is not marked as a back edge keeps its header
    pending for ever, whatever the enumeration orders. *)
Lemma unflaggedLoop_pending_for_ever (bucketOrder : list Key -> list Key) (fuel : nat) :
  (forall l, Permutation (bucketOrder l) l) ->
  createDominatorTree bucketOrder fuel unflaggedLoop = OutOfFuel.
Proof.
  intros Hperm. unfold createDominatorTree, buildState, pendingState.
  change (directPass unflaggedLoop)
    with (mkState (mkTree [1; 2; 3] [(2, 3)]) [(1, [None]); (3, [Some 2])]
                  [(2, [1; 3])]).
  cbn [tree dominatorChains predecessors].
  change (keys [(2, [1; 3])]) with [2].
  rewrite (one_order bucketOrder 2 Hperm).
  change (entriesIn [2] [(2, [1; 3])]) with [(2, [1; 3])].
  induction fuel as [|fuel IH]; [reflexivity|].
  cbn [resolveLoop predecessors]. rewrite (unflaggedLoop_round bucketOrder Hperm).
  exact IH.
Qed.



(** * The properties of the construction *)

Example loopGraph_tree :
  createDominatorTree insertionOrder 0 loopGraph
  = Done (mkTree [1; 2; 3; 4] [(1, 2); (2, 3); (3, 4)]).
Proof. vm_compute. reflexivity. Qed.

Example workGroupEdge_excluded :
  getDominatorCandidates (mkNode 2 [workGroupEdge 1; plainEdge 3]) = [3] /\
  getDominatorCandidates (mkNode 2 [plainEdge 1; plainEdge 3]) = [1; 3].
Proof. split; reflexivity. Qed.


(** C2: the candidates of a node are exactly the predecessors that reach it
    over some edge that is neither a back edge seen from the predecessor nor
    a work-group loop, without the node itself; they form a set (no entry
    twice).  The extraction is a function of the node alone and returns
    nothing but the set, so it leaves the CFG as it is. *)
Theorem candidates_exact (node : CFGNode) :
  NoDup (getDominatorCandidates node) /\
  forall p : Key,
    In p (getDominatorCandidates node) <->
    (exists e, In e (incoming node) /\ predecessor e = p /\
               isBackEdge (data e) p = false /\ isWorkGroupLoop (data e) = false)
    /\ p <> key node.
Proof.
  split; [apply candidates_NoDup|].
  intros p. rewrite candidates_In. split.
  - intros [[e [Hin [Hq Hp]]] Hne]. split; [|assumption].
    exists e. apply qualifies_spec in Hq. subst p. tauto.
  - intros [[e [Hin [Hp [Hb Hw]]]] Hne]. split; [|assumption].
    exists e. subst p. rewrite qualifies_spec. tauto.
Qed.

(** C3: a node with exactly one candidate has that candidate as its one
    parent in the resulting tree, and a node without candidates has no
    parent. *)
Theorem single_candidate_parent (bucketOrder : list Key -> list Key)
    (fuel : nat) (cfg : ControlFlowGraph) (t : DominatorTree) (node : CFGNode) :
  (forall l, Permutation (bucketOrder l) l) ->
  uniqueKeys cfg -> In node cfg ->
  createDominatorTree bucketOrder fuel cfg = Done t ->
  (forall c, getDominatorCandidates node = [c] ->
             parents t (key node) = [c] /\ In (c, key node) (edges t)) /\
  (getDominatorCandidates node = [] -> parents t (key node) = []).
Proof.
  intros Hperm Hu Hin Hdone.
  apply createDominatorTree_Done in Hdone. destruct Hdone as [st [Hst <-]].
  pose proof (buildState_direct_parents bucketOrder fuel cfg st node Hperm Hu Hin Hst)
    as Hpar.
  split.
  - intros c Hc. rewrite Hc in Hpar. simpl in Hpar.
    specialize (Hpar ltac:(lia)). split; [assumption|].
    apply parents_In. rewrite Hpar. now left.
  - intros Hc. rewrite Hc in Hpar. apply Hpar. simpl. lia.
Qed.

Lemma diamond_uniqueKeys : uniqueKeys diamond.
Proof.
  unfold uniqueKeys. simpl.
  repeat constructor; simpl; intros H; repeat destruct H as [H | H]; try discriminate.
  all: exact H.
Defined.

Lemma single_candidate_parent_witness :
  (forall c, getDominatorCandidates (mkNode 2 [plainEdge 1]) = [c] ->
             parents (mkTree [1; 2; 3; 4] [(1, 2); (1, 3); (1, 4)]) 2 = [c] /\
             In (c, 2) [(1, 2); (1, 3); (1, 4)]) /\
  (getDominatorCandidates (mkNode 2 [plainEdge 1]) = [] ->
   parents (mkTree [1; 2; 3; 4] [(1, 2); (1, 3); (1, 4)]) 2 = []).
Proof.
  apply (single_candidate_parent insertionOrder 5 diamond
           (mkTree [1; 2; 3; 4] [(1, 2); (1, 3); (1, 4)]) (mkNode 2 [plainEdge 1])).
  - exact insertionOrder_perm.
  - exact diamond_uniqueKeys.
  - simpl. right. left. reflexivity.
  - vm_compute. reflexivity.
Defined.

(** C8: the returned tree has exactly one node for every node of the CFG;
    this holds from the end of the direct pass on. *)
Theorem tree_nodes_are_cfg_nodes (bucketOrder : list Key -> list Key)
    (fuel : nat) (cfg : ControlFlowGraph) (t : DominatorTree) :
  closedCFG cfg ->
  createDominatorTree bucketOrder fuel cfg = Done t ->
  NoDup (nodes t) /\
  (forall k, In k (nodes t) <-> exists node, In node cfg /\ key node = k) /\
  nodes t = nodes (tree (directPass cfg)).
Proof.
  intros Hc Hdone.
  apply createDominatorTree_Done in Hdone. destruct Hdone as [st [Hst <-]].
  apply buildState_growsFrom in Hst. destruct Hst as [Hn _].
  unfold pendingState in Hn. simpl in Hn. rewrite Hn.
  destruct (directPass_nodes cfg Hc) as [Hnd Hk].
  split; [assumption|]. split; [|reflexivity].
  intros k. rewrite Hk, in_map_iff. split; intros [node H]; exists node; tauto.
Qed.

Lemma diamond_closed : closedCFG diamond.
Proof.
  intros node c Hin Hc. simpl in Hin.
  repeat destruct Hin as [Hin | Hin]; try contradiction; subst node;
    vm_compute in Hc; repeat destruct Hc as [Hc | Hc]; try contradiction;
    subst c; simpl; auto.
Defined.

Lemma diamond_ranked : ranked (fun k => k) diamond.
Proof.
  intros node c Hin Hc. simpl in Hin.
  repeat destruct Hin as [Hin | Hin]; try contradiction; subst node;
    vm_compute in Hc; repeat destruct Hc as [Hc | Hc]; try contradiction;
    subst c; simpl; lia.
Defined.

Lemma tree_nodes_are_cfg_nodes_witness :
  NoDup [1; 2; 3; 4] /\
  (forall k, In k [1; 2; 3; 4] <-> exists node, In node diamond /\ key node = k) /\
  [1; 2; 3; 4] = nodes (tree (directPass diamond)).
Proof.
  apply (tree_nodes_are_cfg_nodes insertionOrder 5 diamond
           (mkTree [1; 2; 3; 4] [(1, 2); (1, 3); (1, 4)])).
  - exact diamond_closed.
  - vm_compute. reflexivity.
Defined.

(** C10: when all qualifying incoming edges of a node that do not start at
    the node itself come from one predecessor, however many such edges there
    are, the candidate set is that predecessor alone, the direct pass makes
    it the parent, and the node is not put into the pending map. *)
Theorem single_predecessor_direct (cfg : ControlFlowGraph) (node : CFGNode) (p : Key) :
  uniqueKeys cfg -> In node cfg ->
  p <> key node ->
  (exists e, In e (incoming node) /\ qualifies e = true /\ predecessor e = p) ->
  (forall e, In e (incoming node) -> qualifies e = true ->
             predecessor e <> key node -> predecessor e = p) ->
  getDominatorCandidates node = [p] /\
  parents (tree (directPass cfg)) (key node) = [p] /\
  ~ In (key node) (keys (predecessors (directPass cfg))).
Proof.
  intros Hu Hin Hne Hex Hall.
  assert (Hc : getDominatorCandidates node = [p]) by now apply candidates_single.
  split; [assumption|]. split.
  - rewrite directPass_parents by assumption. now rewrite Hc.
  - intros Hp. apply directPass_pending_multi in Hp; try assumption.
    rewrite Hc in Hp. simpl in Hp. lia.
Qed.

Lemma parallelEdges_uniqueKeys : uniqueKeys parallelEdges.
Proof.
  unfold uniqueKeys. simpl.
  repeat constructor; simpl; intros H; repeat destruct H as [H | H]; try discriminate.
  all: exact H.
Defined.

Lemma single_predecessor_direct_witness :
  getDominatorCandidates
    (mkNode 2 [plainEdge 1; plainEdge 2; backEdgeFrom 3; plainEdge 1]) = [1] /\
  parents (tree (directPass parallelEdges)) 2 = [1] /\
  ~ In 2 (keys (predecessors (directPass parallelEdges))).
Proof.
  apply (single_predecessor_direct parallelEdges
           (mkNode 2 [plainEdge 1; plainEdge 2; backEdgeFrom 3; plainEdge 1]) 1).
  - exact parallelEdges_uniqueKeys.
  - simpl. right. left. reflexivity.
  - simpl. discriminate.
  - exists (plainEdge 1). simpl. repeat split. left. reflexivity.
  - simpl. intros e He Hq Hp.
    repeat destruct He as [He | He]; try contradiction; subst e;
      simpl in *; try reflexivity; try discriminate; now elim Hp.
Defined.




(** C4, as the code has it: a successful merge stores the working list as the
    chain of the pending node and takes the node out of the pending map; it
    records the tree edge from the first entry of the working list when that
    entry is a node, and adds no edge when it is the end marker. *)
Theorem merge_success_recorded (bucketOrder : list Key -> list Key)
    (t : DominatorTree) (chains : list (Key * Chain)) (n : Key) (cands : list Key)
    (todo kept : list (Key * list Key)) (pdc : list (Key * Chain)) (w : Chain)
    (st' : State) :
  candidateChains bucketOrder chains cands = Some pdc ->
  mergeChains pdc = Some w ->
  find n chains = None -> ~ In n (keys kept) -> ~ In n (keys todo) ->
  mergePass bucketOrder t chains ((n, cands) :: todo) kept = Done st' ->
  (forall first, hd None w = Some first -> In (first, n) (edges (tree st'))) /\
  (hd None w = None -> parents (tree st') n = parents t n) /\
  find n (dominatorChains st') = Some w /\
  ~ In n (keys (predecessors st')).
Proof.
  intros Hc Hm Hfind Hkept Htodo Hpass.
  simpl in Hpass. unfold mergeAttempt in Hpass. rewrite Hc, Hm in Hpass.
  assert (Hn : ~ In n (keys (kept ++ todo))).
  { unfold keys. rewrite map_app, in_app_iff. tauto. }
  assert (Hrest : forall t1, mergePass bucketOrder t1 (emplace n w chains) todo kept = Done st' ->
            (exists extra, edges (tree st') = edges t1 ++ extra) /\
            parents (tree st') n = parents t1 n /\
            find n (dominatorChains st') = Some w /\
            ~ In n (keys (predecessors st'))).
  { intros t1 H1. pose proof (mergePass_growsFrom _ _ _ _ _ _ H1) as Hg.
    split; [|split; [|split]].
    - destruct Hg as [_ [[extra [He _]] _]]. eauto.
    - now apply (growsFrom_parents _ _ n Hg).
    - apply (mergePass_chains_kept _ _ _ _ _ _ _ _ H1).
      now apply find_emplace_new.
    - destruct Hg as [_ [_ Hincl]]. simpl in Hincl. intros Hin. apply Hn.
      unfold keys in *. apply in_map_iff in Hin. destruct Hin as [e [<- He]].
      apply in_map. now apply Hincl. }
  destruct (hd None w) as [first|] eqn:Hhd.
  - destruct (assertNode t first && assertNode t n); [|discriminate].
    apply Hrest in Hpass. destruct Hpass as [[extra He] [Hp [Hf Hk]]].
    split; [|split; [discriminate | tauto]].
    intros f [= <-]. rewrite He. simpl. rewrite !in_app_iff. simpl. tauto.
  - apply Hrest in Hpass. destruct Hpass as [_ [Hp [Hf Hk]]].
    split; [discriminate | tauto].
Qed.

Lemma merge_success_recorded_witness :
  (forall first, hd None [Some 1; None] = Some first ->
                 In (first, 4) [(1, 2); (1, 3); (1, 4)]) /\
  (hd None [Some 1; None] = None ->
   parents (mkTree [1; 2; 3; 4] [(1, 2); (1, 3); (1, 4)]) 4 =
   parents (mkTree [1; 2; 3; 4] [(1, 2); (1, 3)]) 4) /\
  find 4 [(1, [None]); (2, [Some 1; None]); (3, [Some 1; None]); (4, [Some 1; None])]
  = Some [Some 1; None] /\
  ~ In 4 (keys (@nil (Key * list Key))).
Proof.
  apply (merge_success_recorded insertionOrder
           (mkTree [1; 2; 3; 4] [(1, 2); (1, 3)])
           [(1, [None]); (2, [Some 1; None]); (3, [Some 1; None])]
           4 [2; 3] [] []
           [(2, [Some 1; None]); (3, [Some 1; None])] [Some 1; None]
           (mkState (mkTree [1; 2; 3; 4] [(1, 2); (1, 3); (1, 4)])
                    [(1, [None]); (2, [Some 1; None]); (3, [Some 1; None]);
                     (4, [Some 1; None])] [])).
  - vm_compute. reflexivity.
  - vm_compute. reflexivity.
  - vm_compute. reflexivity.
  - simpl. tauto.
  - simpl. tauto.
  - vm_compute. reflexivity.
Defined.

(** C4 as stated fails: with the two entries 1 and 2 as candidates of node 3
    the merge succeeds with the end marker in front, and no tree edge into
    node 3 is recorded. *)
Lemma merge_sentinel_counterexample :
  ~ (forall t chains n cands t' chains',
        mergeAttempt insertionOrder t chains n cands = Done (Some (t', chains')) ->
        exists first, In (first, n) (edges t')).
Proof.
  intros H.
  destruct (H (mkTree [1; 2; 3] []) [(1, [None]); (2, [None])] 3 [1; 2]
              (mkTree [1; 2; 3] []) [(1, [None]); (2, [None]); (3, [None])]
              eq_refl) as [first []].
Qed.

Example twoRoots_tree :
  createDominatorTree insertionOrder 1 twoRoots = Done (mkTree [1; 2; 3] []).
Proof. vm_compute. reflexivity. Qed.

Lemma diamond_singleEntry : singleEntry diamond 1.
Proof.
  assert (R1 : reachable diamond 1 1) by apply reach_entry.
  assert (R2 : reachable diamond 1 2).
  { apply (reach_edge diamond 1 (mkNode 2 [plainEdge 1]) 1);
      [simpl; tauto | vm_compute; tauto | exact R1]. }
  assert (R3 : reachable diamond 1 3).
  { apply (reach_edge diamond 1 (mkNode 3 [plainEdge 1]) 1);
      [simpl; tauto | vm_compute; tauto | exact R1]. }
  assert (R4 : reachable diamond 1 4).
  { apply (reach_edge diamond 1 (mkNode 4 [plainEdge 2; plainEdge 3]) 2);
      [simpl; tauto | vm_compute; tauto | exact R2]. }
  split.
  - exists (mkNode 1 []). simpl. tauto.
  - intros node Hin. simpl in Hin.
    repeat destruct Hin as [Hin | Hin]; try contradiction; subst node; assumption.
Defined.

(** C5, as the code has it: when the CFG has a single entry from which every
    node is reached over edges that make candidates, and these edges form no
    cycle (no two nodes share a key, every candidate is a node of the
    graph), the merge loop ends after at most as many rounds as there are
    nodes, and more rounds change nothing.  Then nothing is pending, every
    node of the CFG has a tree node and a chain, the first entry of the
    chain is the node's one parent in the tree, and only the entry is
    without parent. *)
Theorem construction_terminates (bucketOrder : list Key -> list Key)
    (cfg : ControlFlowGraph) (rank : Key -> nat) (entry : Key) :
  (forall l, Permutation (bucketOrder l) l) ->
  uniqueKeys cfg -> closedCFG cfg -> ranked rank cfg -> singleEntry cfg entry ->
  exists st,
    buildState bucketOrder (length cfg) cfg = Done st /\
    (forall fuel, length cfg <= fuel ->
                  createDominatorTree bucketOrder fuel cfg = Done (tree st)) /\
    predecessors st = [] /\
    forall node, In node cfg ->
      In (key node) (nodes (tree st)) /\
      exists h rest,
        find (key node) (dominatorChains st) = Some (h :: rest) /\
        parents (tree st) (key node) = match h with Some p => [p] | None => [] end /\
        (h = None <-> key node = entry).
Proof.
  intros Hperm Hu Hc Hr Hse.
  pose proof (countRank_ranked rank cfg Hc Hr) as Hr'.
  destruct (buildState_terminates bucketOrder Hperm cfg (countRank rank cfg)
              Hu Hc Hr' (length cfg)) as [st Hst].
  { intros node Hin. now apply countRank_bound. }
  exists st. split; [assumption|]. split; [|split].
  - intros fuel Hle. unfold createDominatorTree, buildState.
    unfold buildState in Hst.
    now rewrite (resolveLoop_more_fuel bucketOrder (length cfg) _ st fuel Hst Hle).
  - apply (resolveLoop_Done_empty _ _ _ _ Hst).
  - intros node Hin.
    pose proof (resolveLoop_Done_empty _ _ _ _ Hst) as Hempty.
    pose proof (buildState_RoundInv bucketOrder Hperm cfg (countRank rank cfg)
                  Hu Hc Hr' _ _ Hst) as HR.
    split.
    { apply (ri_nodes _ _ _ HR). now apply in_map. }
    assert (Hres : resolved (dominatorChains st) (key node)).
    { destruct (ri_cover _ _ _ HR node Hin) as [H | H]; [assumption|].
      rewrite Hempty in H. contradiction. }
    destruct (chain_head_parent cfg _ _ _ (key node) (ri_tree _ _ _ HR) Hres)
      as [h [rest [Hfind Hpar]]].
    exists h, rest. split; [assumption|]. split; [assumption|].
    destruct (below_entry bucketOrder cfg rank entry (length cfg) st Hperm Hu Hc Hr Hse
                Hst (S (rank (key node))) node Hin ltac:(lia)) as [_ Hparent].
    pose proof (entry_only_root cfg entry node Hu Hse Hin) as Hroot.
    split.
    + intros ->. apply Hroot.
      destruct (getDominatorCandidates node) as [|c l] eqn:E; [reflexivity|].
      destruct Hparent as [p Hp]; [discriminate|]. rewrite Hp in Hpar. discriminate.
    + intros Hk. apply Hroot in Hk.
      pose proof (buildState_direct_parents bucketOrder (length cfg) cfg st node
                    Hperm Hu Hin Hst) as Hd.
      rewrite Hk in Hd. simpl in Hd. specialize (Hd ltac:(lia)).
      destruct h as [p|]; [|reflexivity]. rewrite Hd in Hpar. discriminate.
Qed.

Lemma construction_terminates_witness :
  exists st,
    buildState insertionOrder (length diamond) diamond = Done st /\
    (forall fuel, length diamond <= fuel ->
                  createDominatorTree insertionOrder fuel diamond = Done (tree st)) /\
    predecessors st = [] /\
    forall node, In node diamond ->
      In (key node) (nodes (tree st)) /\
      exists h rest,
        find (key node) (dominatorChains st) = Some (h :: rest) /\
        parents (tree st) (key node) = match h with Some p => [p] | None => [] end /\
        (h = None <-> key node = 1).
Proof.
  apply (construction_terminates insertionOrder diamond (fun k => k) 1).
  - exact insertionOrder_perm.
  - exact diamond_uniqueKeys.
  - exact diamond_closed.
  - exact diamond_ranked.
  - exact diamond_singleEntry.
Defined.

(** C5 as stated fails: the loop 2 -> 3 -> 2 behind the entry 1 has a single
    entry from which every node is reached, and its cycle is not cut off
    from the entry, but its closing edge 3 -> 2 is not marked as a back
    edge; the header 2 stays pending for ever, in every enumeration order. *)
Lemma termination_counterexample :
  ~ (forall (cfg : ControlFlowGraph) (entry : Key),
        uniqueKeys cfg -> closedCFG cfg -> singleEntry cfg entry ->
        exists (bucketOrder : list Key -> list Key) (fuel : nat) (t : DominatorTree),
          (forall l, Permutation (bucketOrder l) l) /\
          createDominatorTree bucketOrder fuel cfg = Done t).
Proof.
  intros H.
  destruct (H unflaggedLoop 1 unflaggedLoop_uniqueKeys unflaggedLoop_closed
              unflaggedLoop_singleEntry) as [bucketOrder [fuel [t [Hperm Hdone]]]].
  rewrite (unflaggedLoop_pending_for_ever bucketOrder fuel Hperm) in Hdone.
  discriminate Hdone.
Qed.

(** C6: in a tree built from a CFG with a single entry from which every
    node is reached and without cycle of candidate edges, every node that
    has candidates (every node but the root) has exactly one incoming tree
    edge and the root has none; no node is an ancestor of its own parent (so
    none is its own ancestor); and following parent links from any node
    ends, after at most as many steps as the CFG has nodes, at a node
    without parent, which for a node of the CFG is the entry. *)
Theorem tree_shape (bucketOrder : list Key -> list Key)
    (cfg : ControlFlowGraph) (rank : Key -> nat) (entry : Key) (fuel : nat)
    (t : DominatorTree) :
  (forall l, Permutation (bucketOrder l) l) ->
  uniqueKeys cfg -> closedCFG cfg -> ranked rank cfg -> singleEntry cfg entry ->
  createDominatorTree bucketOrder fuel cfg = Done t ->
  (forall node, In node cfg -> getDominatorCandidates node <> [] ->
                exists p, parents t (key node) = [p] /\ In (p, key node) (edges t)) /\
  (forall node, In node cfg -> getDominatorCandidates node = [] ->
                parents t (key node) = []) /\
  (forall n, length (parents t n) <= 1) /\
  (forall p n, In (p, n) (edges t) -> ~ anc t n p) /\
  (forall n, parents t (walkUp t (length cfg) n) = [] /\
             anc t (walkUp t (length cfg) n) n) /\
  (forall node, In node cfg -> walkUp t (length cfg) (key node) = entry).
Proof.
  intros Hperm Hu Hc Hr Hse Hdone.
  apply createDominatorTree_Done in Hdone. destruct Hdone as [st [Hst <-]].
  pose proof (countRank_ranked rank cfg Hc Hr) as Hr'.
  pose proof (buildState_RoundInv bucketOrder Hperm cfg (countRank rank cfg)
                Hu Hc Hr' _ _ Hst) as HR.
  pose proof (ri_tree _ _ _ HR) as HT.
  assert (Hparent : forall node, In node cfg -> getDominatorCandidates node <> [] ->
                                 exists p, parents (tree st) (key node) = [p]).
  { intros node Hin.
    apply (below_entry bucketOrder cfg rank entry fuel st Hperm Hu Hc Hr Hse Hst
             (S (rank (key node))) node Hin). lia. }
  assert (Hwalk : forall n, parents (tree st) (walkUp (tree st) (length cfg) n) = []).
  { intros n. apply (walkUp_root _ _ _ _ HT). intros Hk.
    apply in_map_iff in Hk. destruct Hk as [node [<- Hin]].
    now apply countRank_bound. }
  split; [|split; [|split; [|split; [|split]]]].
  - intros node Hin Hne. destruct (Hparent node Hin Hne) as [p Hp].
    exists p. split; [assumption|]. apply parents_In. rewrite Hp. now left.
  - intros node Hin Hnone.
    pose proof (buildState_direct_parents bucketOrder fuel cfg st node Hperm Hu Hin Hst)
      as Hd.
    rewrite Hnone in Hd. apply Hd. simpl. lia.
  - apply (inv_unique _ _ _ _ HT).
  - intros p n. eapply no_cycle; eassumption.
  - intros n. split; [apply Hwalk | apply walkUp_anc].
  - intros node Hin.
    pose proof (Hwalk (key node)) as Hroot.
    pose proof (walkUp_anc (tree st) (length cfg) (key node)) as Ha.
    assert (Hk : In (walkUp (tree st) (length cfg) (key node)) (map key cfg)).
    { destruct (anc_source _ _ _ Ha) as [-> | [y Hy]]; [now apply in_map|].
      now apply (inv_keys _ _ _ _ HT) in Hy. }
    apply in_map_iff in Hk. destruct Hk as [top [Hkey Htop]].
    rewrite <- Hkey in Hroot |- *.
    apply (entry_only_root cfg entry top Hu Hse Htop).
    destruct (getDominatorCandidates top) as [|c l] eqn:E; [reflexivity|].
    destruct (Hparent top Htop) as [p Hp]; [rewrite E; discriminate|].
    rewrite Hp in Hroot. discriminate.
Qed.

Lemma tree_shape_witness :
  (forall node, In node diamond -> getDominatorCandidates node <> [] ->
                exists p, parents (mkTree [1; 2; 3; 4] [(1, 2); (1, 3); (1, 4)])
                                  (key node) = [p] /\
                          In (p, key node)
                             (edges (mkTree [1; 2; 3; 4] [(1, 2); (1, 3); (1, 4)]))) /\
  (forall node, In node diamond -> getDominatorCandidates node = [] ->
                parents (mkTree [1; 2; 3; 4] [(1, 2); (1, 3); (1, 4)]) (key node) = []) /\
  (forall n, length (parents (mkTree [1; 2; 3; 4] [(1, 2); (1, 3); (1, 4)]) n) <= 1) /\
  (forall p n, In (p, n) (edges (mkTree [1; 2; 3; 4] [(1, 2); (1, 3); (1, 4)])) ->
               ~ anc (mkTree [1; 2; 3; 4] [(1, 2); (1, 3); (1, 4)]) n p) /\
  (forall n,
      parents (mkTree [1; 2; 3; 4] [(1, 2); (1, 3); (1, 4)])
              (walkUp (mkTree [1; 2; 3; 4] [(1, 2); (1, 3); (1, 4)])
                      (length diamond) n) = [] /\
      anc (mkTree [1; 2; 3; 4] [(1, 2); (1, 3); (1, 4)])
          (walkUp (mkTree [1; 2; 3; 4] [(1, 2); (1, 3); (1, 4)])
                  (length diamond) n) n) /\
  (forall node, In node diamond ->
                walkUp (mkTree [1; 2; 3; 4] [(1, 2); (1, 3); (1, 4)])
                       (length diamond) (key node) = 1).
Proof.
  apply (tree_shape insertionOrder diamond (fun k => k) 1 5).
  - exact insertionOrder_perm.
  - exact diamond_uniqueKeys.
  - exact diamond_closed.
  - exact diamond_ranked.
  - exact diamond_singleEntry.
  - vm_compute. reflexivity.
Defined.

(** C1: in a tree built from a CFG with unique keys, candidates inside the
    graph and an acyclic candidate relation, the parent recorded for a node
    with several candidates is their nearest common ancestor: it is each
    candidate or an ancestor of it, and every other node of which that holds
    is the parent itself or one of its ancestors.  When no parent is recorded
    the candidates have no common ancestor. *)
Theorem merged_parent_nearest_common (bucketOrder : list Key -> list Key)
    (cfg : ControlFlowGraph) (rank : Key -> nat) (fuel : nat)
    (t : DominatorTree) (node : CFGNode) :
  (forall l, Permutation (bucketOrder l) l) ->
  uniqueKeys cfg -> closedCFG cfg -> ranked rank cfg ->
  createDominatorTree bucketOrder fuel cfg = Done t ->
  In node cfg -> 2 <= length (getDominatorCandidates node) ->
  (forall h, In (h, key node) (edges t) ->
             nearestCommon t (getDominatorCandidates node) h) /\
  (parents t (key node) = [] ->
   forall a, ~ (forall c, In c (getDominatorCandidates node) -> anc t a c)).
Proof.
  intros Hperm Hu Hc Hr Hdone Hin Hlen.
  apply createDominatorTree_Done in Hdone. destruct Hdone as [st [Hst <-]].
  destruct (buildState_NcaInv bucketOrder Hperm cfg rank Hu Hc Hr fuel st Hst)
    as [HR HN].
  assert (Hres : resolved (dominatorChains st) (key node)).
  { destruct (ri_cover _ _ _ HR node Hin) as [H | H]; [assumption|].
    rewrite (resolveLoop_Done_empty _ _ _ _ Hst) in H. contradiction. }
  specialize (HN node Hin Hlen Hres). unfold mergeCorrect in HN.
  split.
  - intros h He. apply parents_In in He.
    destruct (parents (tree st) (key node)) as [|p [|q l]]; try contradiction.
    destruct He as [<- | []]. assumption.
  - intros Hp. rewrite Hp in HN. apply HN.
Qed.

Lemma merged_parent_nearest_common_witness :
  (forall h, In (h, 4) [(1, 2); (1, 3); (1, 4)] ->
             nearestCommon (mkTree [1; 2; 3; 4] [(1, 2); (1, 3); (1, 4)])
                           (getDominatorCandidates (mkNode 4 [plainEdge 2; plainEdge 3])) h) /\
  (parents (mkTree [1; 2; 3; 4] [(1, 2); (1, 3); (1, 4)]) 4 = [] ->
   forall a, ~ (forall c, In c (getDominatorCandidates (mkNode 4 [plainEdge 2; plainEdge 3])) ->
                          anc (mkTree [1; 2; 3; 4] [(1, 2); (1, 3); (1, 4)]) a c)).
Proof.
  apply (merged_parent_nearest_common insertionOrder diamond (fun k => k) 5
           (mkTree [1; 2; 3; 4] [(1, 2); (1, 3); (1, 4)])
           (mkNode 4 [plainEdge 2; plainEdge 3])).
  - exact insertionOrder_perm.
  - exact diamond_uniqueKeys.
  - exact diamond_closed.
  - exact diamond_ranked.
  - vm_compute. reflexivity.
  - simpl. tauto.
  - vm_compute. lia.
Defined.

(** C7: for the diamond A -> B, A -> C, B -> D, C -> D, in whatever order
    the nodes and the containers are enumerated, the builder returns a tree
    in which A is the parent of B, of C and of D, and A has no parent. *)
Theorem diamond_tree (bucketOrder : list Key -> list Key) (cfg : ControlFlowGraph) :
  (forall l, Permutation (bucketOrder l) l) ->
  Permutation cfg diamond ->
  exists t, createDominatorTree bucketOrder (length cfg) cfg = Done t /\
            parents t 2 = [1] /\ parents t 3 = [1] /\ parents t 4 = [1] /\
            parents t 1 = [].
Proof.
  intros Hperm Hcfg.
  pose proof (uniqueKeys_perm _ _ Hcfg diamond_uniqueKeys) as Hu.
  pose proof (closedCFG_perm _ _ Hcfg diamond_closed) as Hc.
  pose proof (ranked_perm _ _ _ Hcfg diamond_ranked) as Hr.
  pose proof (countRank_ranked _ cfg Hc Hr) as Hr'.
  destruct (buildState_terminates bucketOrder Hperm cfg _ Hu Hc Hr' (length cfg))
    as [st Hst].
  { intros node Hin. now apply countRank_bound. }
  assert (Hnode : forall node, In node diamond -> In node cfg).
  { intros node. apply Permutation_in. now apply Permutation_sym. }
  assert (H1 : parents (tree st) 1 = []).
  { apply (buildState_direct_parents bucketOrder (length cfg) cfg st (mkNode 1 []) Hperm Hu);
      [apply Hnode; simpl; tauto | assumption | vm_compute; lia]. }
  assert (H2 : parents (tree st) 2 = [1]).
  { apply (buildState_direct_parents bucketOrder (length cfg) cfg st (mkNode 2 [plainEdge 1])
             Hperm Hu); [apply Hnode; simpl; tauto | assumption | vm_compute; lia]. }
  assert (H3 : parents (tree st) 3 = [1]).
  { apply (buildState_direct_parents bucketOrder (length cfg) cfg st (mkNode 3 [plainEdge 1])
             Hperm Hu); [apply Hnode; simpl; tauto | assumption | vm_compute; lia]. }
  exists (tree st). split; [unfold createDominatorTree; now rewrite Hst|].
  repeat split; try assumption.
  destruct (buildState_NcaInv bucketOrder Hperm cfg _ Hu Hc Hr' _ st Hst) as [HR HN].
  assert (Hin4 : In (mkNode 4 [plainEdge 2; plainEdge 3]) cfg)
    by (apply Hnode; simpl; tauto).
  assert (Hres : resolved (dominatorChains st) 4).
  { destruct (ri_cover _ _ _ HR _ Hin4) as [H | H]; [assumption|].
    rewrite (resolveLoop_Done_empty _ _ _ _ Hst) in H. contradiction. }
  specialize (HN _ Hin4). simpl in HN.
  change (getDominatorCandidates (mkNode 4 [plainEdge 2; plainEdge 3]))
    with [2; 3] in HN.
  specialize (HN ltac:(simpl; lia) Hres). unfold mergeCorrect in HN.
  assert (A2 : anc (tree st) 1 2) by now apply anc_parent.
  assert (A3 : anc (tree st) 1 3) by now apply anc_parent.
  destruct (parents (tree st) 4) as [|h [|q l]]; [| |contradiction].
  - exfalso. destruct HN as [_ Hno]. apply (Hno 1).
    intros c [<- | [<- | []]]; assumption.
  - destruct HN as [Hcommon _].
    assert (B2 : anc (tree st) h 2) by (apply Hcommon; simpl; tauto).
    assert (B3 : anc (tree st) h 3) by (apply Hcommon; simpl; tauto).
    apply (anc_inv_parent _ _ _ _ H2) in B2.
    apply (anc_inv_parent _ _ _ _ H3) in B3.
    destruct B2 as [-> | B2].
    + destruct B3 as [[=] | B3]. apply (anc_inv_root _ _ _ H1) in B3. discriminate.
    + apply (anc_inv_root _ _ _ H1) in B2. now subst h.
Qed.

Lemma diamond_tree_witness :
  exists t, createDominatorTree insertionOrder (length diamond) diamond = Done t /\
            parents t 2 = [1] /\ parents t 3 = [1] /\ parents t 4 = [1] /\
            parents t 1 = [].
Proof.
  apply (diamond_tree insertionOrder diamond).
  - exact insertionOrder_perm.
  - apply Permutation_refl.
Defined.

(** * Further properties of the builder *)

(** ** No failed [assertNode] *)

Section NoThrow.

Variable bucketOrder : list Key -> list Key.
Hypothesis bucketOrder_perm : forall l, Permutation (bucketOrder l) l.
Variable cfg : ControlFlowGraph.
Variable rank : Key -> nat.
Hypothesis cfg_unique : uniqueKeys cfg.
Hypothesis cfg_closed : closedCFG cfg.
Hypothesis cfg_ranked : ranked rank cfg.

Lemma mergePass_no_throw (todo : list (Key * list Key)) :
  forall t chains kept,
    RoundInv cfg rank (mkState t chains (kept ++ todo)) ->
    exists st', mergePass bucketOrder t chains todo kept = Done st'.
Proof.
  induction todo as [|[n cands] todo IH]; intros t chains kept HR; simpl; [eauto|].
  assert (Hin : In (n, cands) (kept ++ (n, cands) :: todo))
    by (apply in_app_iff; right; now left).
  destruct (mergeAttempt_no_throw bucketOrder bucketOrder_perm cfg rank cfg_closed
              cfg_ranked t chains _ n cands HR Hin) as [res Hm].
  rewrite Hm. destruct res as [[t' chains']|].
  - apply IH.
    eapply (RoundInv_resolve bucketOrder bucketOrder_perm cfg rank cfg_closed cfg_ranked);
      eassumption.
  - apply IH. now rewrite <- app_assoc.
Qed.

Lemma resolveLoop_no_throw (fuel : nat) :
  forall st, RoundInv cfg rank st -> resolveLoop bucketOrder fuel st <> Throws.
Proof.
  induction fuel as [|fuel IH]; intros st HR; simpl.
  - destruct (predecessors st); discriminate.
  - destruct (predecessors st) eqn:E; [discriminate|].
    destruct (mergePass_no_throw (predecessors st) (tree st)
                (extendChains bucketOrder (dominatorChains st)) []) as [st' Hp].
    { simpl. apply (extendChains_invariant bucketOrder (RoundInv cfg rank)).
      - intros. now apply RoundInv_extend.
      - now destruct st. }
    unfold resolveRound. rewrite Hp. apply IH.
    apply (resolveRound_invariant bucketOrder (RoundInv cfg rank)) with (st := st).
    + intros. now apply RoundInv_extend.
    + intros. eapply (RoundInv_resolve bucketOrder bucketOrder_perm cfg rank cfg_closed
                        cfg_ranked); eassumption.
    + assumption.
    + exact Hp.
Qed.

End NoThrow.

(** X1: on a CFG with unique keys, candidates inside the graph and an
    acyclic candidate relation no [assertNode] of the builder fails, however
    many rounds it is given: the first entry of a merged working list and
    the pending node always have tree nodes. *)
Theorem builder_never_throws (bucketOrder : list Key -> list Key)
    (cfg : ControlFlowGraph) (rank : Key -> nat) (fuel : nat) :
  (forall l, Permutation (bucketOrder l) l) ->
  uniqueKeys cfg -> closedCFG cfg -> ranked rank cfg ->
  createDominatorTree bucketOrder fuel cfg <> Throws.
Proof.
  intros Hperm Hu Hc Hr. unfold createDominatorTree, buildState.
  pose proof (resolveLoop_no_throw bucketOrder Hperm cfg rank Hc Hr fuel
                (pendingState bucketOrder cfg)
                (pendingState_RoundInv bucketOrder Hperm cfg rank Hu Hc Hr)) as H.
  destruct (resolveLoop bucketOrder fuel (pendingState bucketOrder cfg));
    [discriminate | contradiction | discriminate].
Qed.

Lemma builder_never_throws_witness :
  createDominatorTree insertionOrder 1 diamond <> Throws.
Proof.
  apply (builder_never_throws insertionOrder diamond (fun k => k) 1).
  - exact insertionOrder_perm.
  - exact diamond_uniqueKeys.
  - exact diamond_closed.
  - exact diamond_ranked.
Defined.

Lemma parents_order_independent_witness :
  parents (mkTree [1; 2; 3; 4] [(1, 2); (1, 3); (1, 4)]) 4 =
  parents (mkTree [4; 3; 1; 2] [(1, 3); (1, 2); (1, 4)]) 4.
Proof.
  apply (fun H1 H2 H3 H4 H5 H6 H7 H8 =>
           parents_order_independent insertionOrder threeFirst diamond (rev diamond)
             (fun k => k) 5 5 _ _ H1 H2 H3 H4 H5 H6 H7 H8 4).
  - exact insertionOrder_perm.
  - exact threeFirst_perm.
  - apply Permutation_rev.
  - exact diamond_uniqueKeys.
  - exact diamond_closed.
  - exact diamond_ranked.
  - vm_compute. reflexivity.
  - vm_compute. reflexivity.
Defined.

Example cycle3_candidate_2_first :
  createDominatorTree insertionOrder 1 cycle3
  = Done (mkTree [2; 4; 3; 5] [(4, 2); (2, 3); (3, 4); (2, 5)]).
Proof. vm_compute. reflexivity. Qed.

Example cycle3_candidate_3_first :
  createDominatorTree threeFirst 1 cycle3
  = Done (mkTree [2; 4; 3; 5] [(4, 2); (2, 3); (3, 4); (3, 5)]).
Proof. vm_compute. reflexivity. Qed.

(** ** The chains at the end *)

(** X3: on a CFG with unique keys, candidates inside the graph and an
    acyclic candidate relation, a run of the builder that is done leaves
    every node of the CFG with a chain that is not empty and starts with the
    node's parent in the tree (with the end marker when the node has none);
    every node on the chain is a node of the CFG, different from the chain's
    owner and one of its ancestors; and the end marker is nowhere but at the
    end.  Without the acyclic candidate relation a chain can hold its own
    owner ([bareCycle_chain_holds_owner]). *)
Theorem final_chains_follow_tree (bucketOrder : list Key -> list Key)
    (cfg : ControlFlowGraph) (rank : Key -> nat) (fuel : nat) (st : State)
    (node : CFGNode) :
  (forall l, Permutation (bucketOrder l) l) ->
  uniqueKeys cfg -> closedCFG cfg -> ranked rank cfg ->
  buildState bucketOrder fuel cfg = Done st -> In node cfg ->
  exists h rest,
    find (key node) (dominatorChains st) = Some (h :: rest) /\
    parents (tree st) (key node) = match h with Some p => [p] | None => [] end /\
    (forall a, In (Some a) (h :: rest) ->
               In a (map key cfg) /\ a <> key node /\ anc (tree st) a (key node)) /\
    (forall pre post, h :: rest = pre ++ None :: post -> post = []).
Proof.
  intros Hperm Hu Hc Hr Hst Hin.
  pose proof (buildState_RoundInv bucketOrder Hperm cfg rank Hu Hc Hr fuel st Hst) as HR.
  pose proof (ri_tree _ _ _ HR) as HT.
  assert (Hres : resolved (dominatorChains st) (key node)).
  { destruct (ri_cover _ _ _ HR node Hin) as [H | H]; [assumption|].
    rewrite (resolveLoop_Done_empty _ _ _ _ Hst) in H. contradiction. }
  unfold resolved in Hres.
  destruct (find (key node) (dominatorChains st)) as [ch|] eqn:Hf; [|contradiction].
  destruct (inv_chain _ _ _ _ HT _ _ Hf) as [Hne Hcl].
  destruct ch as [|h rest]; [contradiction|].
  exists h, rest. split; [reflexivity|]. split; [|split].
  - destruct Hcl as [Hl _]. destruct h as [p|]; simpl in Hl; tauto.
  - intros a Ha.
    destruct (chain_entries _ _ _ _ HT _ _ a Hf Ha) as [Hlt Hk].
    split; [assumption|]. split; [intros ->; lia|].
    apply (climbs_anc_later _ _ _ _ _ Hcl). now right.
  - intros pre post Heq.
    apply (climbs_None_end (tree st) (dominatorChains st) (Some (key node) :: pre)).
    simpl. rewrite <- Heq. exact Hcl.
Qed.

Lemma final_chains_follow_tree_witness :
  exists h rest,
    find 4 [(1, [None]); (2, [Some 1; None]); (3, [Some 1; None]); (4, [Some 1; None])]
    = Some (h :: rest) /\
    parents (mkTree [1; 2; 3; 4] [(1, 2); (1, 3); (1, 4)]) 4
    = match h with Some p => [p] | None => [] end /\
    (forall a, In (Some a) (h :: rest) ->
               In a (map key diamond) /\ a <> 4 /\
               anc (mkTree [1; 2; 3; 4] [(1, 2); (1, 3); (1, 4)]) a 4) /\
    (forall pre post, h :: rest = pre ++ None :: post -> post = []).
Proof.
  apply (final_chains_follow_tree insertionOrder diamond (fun k => k) 5
           (mkState (mkTree [1; 2; 3; 4] [(1, 2); (1, 3); (1, 4)])
                    [(1, [None]); (2, [Some 1; None]); (3, [Some 1; None]);
                     (4, [Some 1; None])] [])
           (mkNode 4 [plainEdge 2; plainEdge 3])).
  - exact insertionOrder_perm.
  - exact diamond_uniqueKeys.
  - exact diamond_closed.
  - exact diamond_ranked.
  - vm_compute. reflexivity.
  - simpl. tauto.
Defined.

Example bareCycle_chain_holds_owner :
  buildState insertionOrder 0 bareCycle
  = Done (mkState (mkTree [2; 3] [(3, 2); (2, 3)])
                  [(2, [Some 3]); (3, [Some 2; Some 3])] []).
Proof. vm_compute. reflexivity. Qed.

(** ** The edges of the tree *)

(** X4: on a CFG with unique keys, candidates inside the graph and an
    acyclic candidate relation, every edge of a returned tree leads from a
    node of the CFG to a different node of the CFG, and its source is every
    dominator candidate of its target or an ancestor of it: a predecessor
    that is no candidate can become a parent only by lying above all
    candidates.  Without the acyclic candidate relation a node can become
    its own parent ([headerLoop_own_parent]). *)
Theorem tree_edges_above_candidates (bucketOrder : list Key -> list Key)
    (cfg : ControlFlowGraph) (rank : Key -> nat) (fuel : nat) (t : DominatorTree)
    (p n : Key) :
  (forall l, Permutation (bucketOrder l) l) ->
  uniqueKeys cfg -> closedCFG cfg -> ranked rank cfg ->
  createDominatorTree bucketOrder fuel cfg = Done t ->
  In (p, n) (edges t) ->
  p <> n /\ In p (map key cfg) /\
  exists node, In node cfg /\ key node = n /\
               getDominatorCandidates node <> [] /\
               forall c, In c (getDominatorCandidates node) -> anc t p c.
Proof.
  intros Hperm Hu Hc Hr Hdone He.
  apply createDominatorTree_Done in Hdone. destruct Hdone as [st [Hst <-]].
  destruct (buildState_NcaInv bucketOrder Hperm cfg rank Hu Hc Hr fuel st Hst)
    as [HR HN].
  pose proof (ri_tree _ _ _ HR) as HT.
  pose proof (inv_rank _ _ _ _ HT _ _ He) as Hlt.
  destruct (inv_keys _ _ _ _ HT _ _ He) as [Hp Hn].
  split; [intros ->; lia|]. split; [assumption|].
  apply in_map_iff in Hn. destruct Hn as [node [<- Hin]].
  exists node. split; [assumption|]. split; [reflexivity|].
  apply parents_In in He.
  destruct (le_lt_dec 2 (length (getDominatorCandidates node))) as [Hl | Hl].
  - assert (Hres : resolved (dominatorChains st) (key node)).
    { destruct (ri_cover _ _ _ HR node Hin) as [H | H]; [assumption|].
      rewrite (resolveLoop_Done_empty _ _ _ _ Hst) in H. contradiction. }
    specialize (HN node Hin Hl Hres). unfold mergeCorrect in HN.
    split; [destruct (getDominatorCandidates node); [simpl in Hl; lia | discriminate]|].
    destruct (parents (tree st) (key node)) as [|h [|q l]]; try contradiction.
    destruct He as [<- | []]. apply HN.
  - rewrite (buildState_direct_parents bucketOrder fuel cfg st node Hperm Hu Hin Hst Hl)
      in He.
    destruct (getDominatorCandidates node) as [|c [|c' l]]; try contradiction.
    destruct He as [<- | []]. split; [discriminate|].
    intros c' [<- | []]. apply anc_refl.
Qed.

Lemma tree_edges_above_candidates_witness :
  1 <> 4 /\ In 1 (map key diamond) /\
  exists node, In node diamond /\ key node = 4 /\
               getDominatorCandidates node <> [] /\
               forall c, In c (getDominatorCandidates node) ->
                         anc (mkTree [1; 2; 3; 4] [(1, 2); (1, 3); (1, 4)]) 1 c.
Proof.
  apply (tree_edges_above_candidates insertionOrder diamond (fun k => k) 5
           (mkTree [1; 2; 3; 4] [(1, 2); (1, 3); (1, 4)]) 1 4).
  - exact insertionOrder_perm.
  - exact diamond_uniqueKeys.
  - exact diamond_closed.
  - exact diamond_ranked.
  - vm_compute. reflexivity.
  - simpl. tauto.
Defined.

Example headerLoop_own_parent :
  createDominatorTree insertionOrder 1 headerLoop
  = Done (mkTree [2; 3; 4] [(2, 3); (2, 4); (2, 2)]).
Proof. vm_compute. reflexivity. Qed.

(** X5: the merge rounds only add to what the direct pass has built: the
    returned tree has the nodes of the direct pass, its edges start with the
    edges of the direct pass, every further edge enters a node that the
    direct pass left pending, and no node is left pending. *)
Theorem rounds_only_add (bucketOrder : list Key -> list Key)
    (fuel : nat) (cfg : ControlFlowGraph) (st : State) :
  (forall l, Permutation (bucketOrder l) l) ->
  buildState bucketOrder fuel cfg = Done st ->
  nodes (tree st) = nodes (tree (directPass cfg)) /\
  (exists extra,
      edges (tree st) = edges (tree (directPass cfg)) ++ extra /\
      forall p x, In (p, x) extra -> In x (keys (predecessors (directPass cfg)))) /\
  predecessors st = [].
Proof.
  intros Hperm Hst.
  pose proof (resolveLoop_Done_empty _ _ _ _ Hst) as Hempty.
  apply buildState_growsFrom in Hst. destruct Hst as [Hn [[extra [He Hx]] _]].
  split; [exact Hn|]. split; [|assumption].
  exists extra. split; [exact He|].
  intros p x Hin. apply (pendingState_keys bucketOrder Hperm). eauto.
Qed.

Lemma rounds_only_add_witness :
  nodes (mkTree [1; 2; 3; 4] [(1, 2); (1, 3); (1, 4)]) = nodes (tree (directPass diamond)) /\
  (exists extra,
      edges (mkTree [1; 2; 3; 4] [(1, 2); (1, 3); (1, 4)])
      = edges (tree (directPass diamond)) ++ extra /\
      forall p x, In (p, x) extra -> In x (keys (predecessors (directPass diamond)))) /\
  @nil (nat * list nat) = [].
Proof.
  apply (rounds_only_add insertionOrder 5 diamond
           (mkState (mkTree [1; 2; 3; 4] [(1, 2); (1, 3); (1, 4)])
                    [(1, [None]); (2, [Some 1; None]); (3, [Some 1; None]);
                     (4, [Some 1; None])] [])).
  - exact insertionOrder_perm.
  - vm_compute. reflexivity.
Defined.

(** ** What the direct pass leaves behind *)

Lemma directStep_chain_other (st : State) (node : CFGNode) (k : Key) :
  k <> key node ->
  find k (dominatorChains (directStep st node)) = find k (dominatorChains st).
Proof.
  intros Hk. unfold directStep.
  destruct (getDominatorCandidates node) as [|c [|c' l]]; simpl.
  - now apply find_emplace_other.
  - assert (E : Nat.eqb k (key node) = false) by now apply Nat.eqb_neq.
    destruct (find c (emplace (key node) [Some c] (dominatorChains st)));
      rewrite ?find_update, ?E; now apply find_emplace_other.
  - reflexivity.
Qed.

Lemma directStep_pending_other (st : State) (node : CFGNode) (k : Key) :
  k <> key node ->
  find k (predecessors (directStep st node)) = find k (predecessors st).
Proof.
  intros Hk. unfold directStep.
  destruct (getDominatorCandidates node) as [|c [|c' l]]; simpl; try reflexivity.
  now apply find_emplace_other.
Qed.

Lemma directFold_other (l : list CFGNode) (k : Key) :
  ~ In k (map key l) ->
  forall st,
    find k (dominatorChains (fold_left directStep l st)) = find k (dominatorChains st) /\
    find k (predecessors (fold_left directStep l st)) = find k (predecessors st).
Proof.
  induction l as [|x l IH]; intros Hk st; simpl; [split; reflexivity|].
  simpl in Hk. destruct (IH (fun H => Hk (or_intror H)) (directStep st x)) as [H1 H2].
  rewrite H1, H2. split.
  - apply directStep_chain_other. intros ->. apply Hk. now left.
  - apply directStep_pending_other. intros ->. apply Hk. now left.
Qed.

(** X6: after the direct pass a node without candidates has the chain that
    consists of the end marker, a node with one candidate has a chain that
    starts with this candidate, and neither is pending; a node with several
    candidates has no chain yet and is pending with exactly its candidates. *)
Theorem direct_pass_classifies (cfg : ControlFlowGraph) (node : CFGNode) :
  uniqueKeys cfg -> In node cfg ->
  match getDominatorCandidates node with
  | [] =>
      find (key node) (dominatorChains (directPass cfg)) = Some [None] /\
      find (key node) (predecessors (directPass cfg)) = None
  | [c] =>
      (exists rest,
          find (key node) (dominatorChains (directPass cfg)) = Some (Some c :: rest)) /\
      find (key node) (predecessors (directPass cfg)) = None
  | cands =>
      find (key node) (dominatorChains (directPass cfg)) = None /\
      find (key node) (predecessors (directPass cfg)) = Some cands
  end.
Proof.
  intros Hu Hin. destruct (in_split _ _ Hin) as [l1 [l2 Hcfg]].
  unfold uniqueKeys in Hu. rewrite Hcfg, map_app in Hu. simpl in Hu.
  pose proof (NoDup_remove_2 _ _ _ Hu) as Hnot.
  assert (Hn1 : ~ In (key node) (map key l1)) by (intros H; apply Hnot, in_app_iff; now left).
  assert (Hn2 : ~ In (key node) (map key l2)) by (intros H; apply Hnot, in_app_iff; now right).
  unfold directPass. rewrite Hcfg, fold_left_app. simpl.
  set (s0 := fold_left directStep l1 initialState).
  destruct (directFold_other l2 (key node) Hn2 (directStep s0 node)) as [-> ->].
  assert (Hc0 : find (key node) (dominatorChains s0) = None).
  { apply find_None_keys. intros H. apply directFold_chain_keys in H.
    destruct H as [[] | [x [Hx [Hk _]]]]. apply Hn1. rewrite Hk. now apply in_map. }
  assert (Hp0 : find (key node) (predecessors s0) = None).
  { apply find_None_keys. intros H. apply directFold_pending_keys in H.
    destruct H as [[] | [x [Hx [Hk _]]]]. apply Hn1. rewrite Hk. now apply in_map. }
  unfold directStep.
  destruct (getDominatorCandidates node) as [|c [|c' l]] eqn:E; simpl.
  - split; [now apply find_emplace_new | assumption].
  - split; [|assumption].
    destruct (find c (emplace (key node) [Some c] (dominatorChains s0))) as [d|].
    + exists d. rewrite update_emplace_new by assumption. now apply find_emplace_new.
    + exists []. now apply find_emplace_new.
  - split; [assumption | now apply find_emplace_new].
Qed.

Lemma direct_pass_classifies_witness :
  match getDominatorCandidates (mkNode 4 [plainEdge 2; plainEdge 3]) with
  | [] =>
      find 4 (dominatorChains (directPass diamond)) = Some [None] /\
      find 4 (predecessors (directPass diamond)) = None
  | [c] =>
      (exists rest,
          find 4 (dominatorChains (directPass diamond)) = Some (Some c :: rest)) /\
      find 4 (predecessors (directPass diamond)) = None
  | cands =>
      find 4 (dominatorChains (directPass diamond)) = None /\
      find 4 (predecessors (directPass diamond)) = Some cands
  end.
Proof.
  apply (direct_pass_classifies diamond (mkNode 4 [plainEdge 2; plainEdge 3])).
  - exact diamond_uniqueKeys.
  - simpl. tauto.
Defined.

(** X7: a node that is entered only over back edges, work-group-loop edges
    and edges from itself has no candidates and ends without parent, also
    when it is the header of a loop. *)
Theorem excluded_edges_make_root (bucketOrder : list Key -> list Key)
    (fuel : nat) (cfg : ControlFlowGraph) (st : State) (node : CFGNode) :
  (forall l, Permutation (bucketOrder l) l) ->
  uniqueKeys cfg -> In node cfg ->
  (forall e, In e (incoming node) ->
             isBackEdge (data e) (predecessor e) = true \/
             isWorkGroupLoop (data e) = true \/
             predecessor e = key node) ->
  buildState bucketOrder fuel cfg = Done st ->
  getDominatorCandidates node = [] /\
  parents (tree st) (key node) = [] /\
  forall p, ~ In (p, key node) (edges (tree st)).
Proof.
  intros Hperm Hu Hin Hall Hst.
  assert (Hc : getDominatorCandidates node = []).
  { destruct (getDominatorCandidates node) as [|c l] eqn:E; [reflexivity|].
    exfalso. assert (Hcand : In c (getDominatorCandidates node)) by (rewrite E; now left).
    apply candidates_In in Hcand. destruct Hcand as [[e [He [Hq Hp]]] Hne].
    apply qualifies_spec in Hq. destruct Hq as [Hb Hw].
    destruct (Hall e He) as [H | [H | H]]; congruence. }
  pose proof (buildState_direct_parents bucketOrder fuel cfg st node Hperm Hu Hin Hst)
    as Hpar.
  rewrite Hc in Hpar. specialize (Hpar ltac:(simpl; lia)).
  split; [assumption|]. split; [assumption|].
  intros p He. apply parents_In in He. now rewrite Hpar in He.
Qed.

Lemma excluded_edges_make_root_witness :
  getDominatorCandidates (mkNode 1 [backEdgeFrom 2; workGroupEdge 3; plainEdge 1]) = [] /\
  parents (mkTree [1; 2; 3] [(1, 2); (2, 3)]) 1 = [] /\
  forall p, ~ In (p, 1) (edges (mkTree [1; 2; 3] [(1, 2); (2, 3)])).
Proof.
  apply (excluded_edges_make_root insertionOrder 0
           [ mkNode 1 [backEdgeFrom 2; workGroupEdge 3; plainEdge 1];
             mkNode 2 [plainEdge 1]; mkNode 3 [plainEdge 2] ]
           (mkState (mkTree [1; 2; 3] [(1, 2); (2, 3)])
                    [(1, [None]); (2, [Some 1; None]); (3, [Some 2; Some 1; None])] [])
           (mkNode 1 [backEdgeFrom 2; workGroupEdge 3; plainEdge 1])).
  - exact insertionOrder_perm.
  - unfold uniqueKeys. simpl.
    repeat constructor; simpl; intros H; repeat destruct H as [H | H];
      try discriminate; exact H.
  - simpl. tauto.
  - simpl. intros e He.
    repeat destruct He as [He | He]; try contradiction; subst e; simpl; auto.
  - vm_compute. reflexivity.
Defined.

(** X8: the candidates of a node depend on the set of its incoming edges
    only: listing the same edges in another order or more than once gives
    the same candidates, up to their order. *)
Theorem candidates_of_same_edges (k : Key) (incoming1 incoming2 : list IncomingEdge) :
  (forall e, In e incoming1 <-> In e incoming2) ->
  Permutation (getDominatorCandidates (mkNode k incoming1))
              (getDominatorCandidates (mkNode k incoming2)).
Proof.
  intros Hsame. apply NoDup_Permutation; try apply candidates_NoDup.
  intros p. rewrite !candidates_In. simpl.
  split; intros [[e [He Hq]] Hne]; (split; [|assumption]); exists e;
    (split; [now apply Hsame | assumption]).
Qed.

Lemma candidates_of_same_edges_witness :
  Permutation
    (getDominatorCandidates (mkNode 4 [plainEdge 1; plainEdge 3; plainEdge 1]))
    (getDominatorCandidates (mkNode 4 [plainEdge 3; plainEdge 1])).
Proof.
  apply (candidates_of_same_edges 4 [plainEdge 1; plainEdge 3; plainEdge 1]
           [plainEdge 3; plainEdge 1]).
  intros e. simpl. tauto.
Defined.

(** ** The extension of the chains *)

Lemma extendChain_keys (chains : list (Key * Chain)) (k : Key) :
  keys (extendChain chains k) = keys chains.
Proof.
  unfold extendChain. destruct (find k chains) as [ch|]; [|reflexivity].
  destruct (last ch None) as [back|]; [|reflexivity].
  destruct (find back chains); [apply keys_update | reflexivity].
Qed.

Lemma extendChain_appends (chains : list (Key * Chain)) (k x : Key) (ch : Chain) :
  find x chains = Some ch ->
  exists ext, find x (extendChain chains k) = Some (ch ++ ext) /\
              (last ch None = None -> ext = []).
Proof.
  intros Hf. unfold extendChain.
  destruct (find k chains) as [chk|] eqn:Ek;
    [|exists []; rewrite app_nil_r; auto].
  destruct (last chk None) as [back|] eqn:El;
    [|exists []; rewrite app_nil_r; auto].
  destruct (find back chains) as [other|] eqn:Eb;
    [|exists []; rewrite app_nil_r; auto].
  rewrite find_update. destruct (Nat.eqb x k) eqn:Exk.
  - apply Nat.eqb_eq in Exk. subst x. rewrite Hf. simpl.
    assert (chk = ch) by congruence. subst chk.
    exists other. split; [reflexivity|]. intros H. congruence.
  - exists []. rewrite app_nil_r. auto.
Qed.

Lemma extendFold_appends (ks : list Key) :
  forall chains x ch,
    find x chains = Some ch ->
    exists ext, find x (fold_left extendChain ks chains) = Some (ch ++ ext) /\
                (last ch None = None -> ext = []).
Proof.
  induction ks as [|k ks IH]; intros chains x ch Hf; simpl.
  - exists []. rewrite app_nil_r. auto.
  - destruct (extendChain_appends chains k x ch Hf) as [e1 [H1 N1]].
    destruct (last ch None) as [b|] eqn:El.
    + destruct (IH _ _ _ H1) as [e2 [H2 _]].
      exists (e1 ++ e2). rewrite app_assoc. split; [assumption | discriminate].
    + rewrite (N1 eq_refl), app_nil_r in H1.
      destruct (IH _ _ _ H1) as [e2 [H2 N2]].
      exists e2. split; [assumption|]. intros _. apply N2. exact El.
Qed.

(** X9: the loop that extends the chains never removes, reorders or
    shortens anything: the map keeps its keys, every chain keeps its entries
    as a prefix of the new chain, and a chain that ends with the end marker
    (or is empty) is left as it is. *)
Theorem extendChains_only_appends (bucketOrder : list Key -> list Key)
    (chains : list (Key * Chain)) :
  keys (extendChains bucketOrder chains) = keys chains /\
  forall x ch, find x chains = Some ch ->
    exists ext, find x (extendChains bucketOrder chains) = Some (ch ++ ext) /\
                (last ch None = None -> ext = []).
Proof.
  unfold extendChains. generalize (bucketOrder (keys chains)) as ks. intros ks.
  split.
  - revert chains. induction ks as [|k ks IH]; intros chains; simpl; [reflexivity|].
    rewrite IH. apply extendChain_keys.
  - intros x ch. apply extendFold_appends.
Qed.

(** ** The merge of the chains, on its own *)

Lemma mergeRemaining_disjoint (rest : list (Key * Chain)) :
  forall l c ch,
    In (c, ch) rest -> (forall x, In x l -> chainMatches c ch x = false) ->
    mergeRemaining rest l = None.
Proof.
  induction rest as [|[c0 ch0] rest IH]; intros l c ch Hin Hno; [contradiction|].
  simpl. destruct (dropUntil (chainMatches c0 ch0) l) as [l1|] eqn:E; [|reflexivity].
  apply dropUntil_spec in E. destruct E as [pre [e [post [-> [-> [He _]]]]]].
  destruct Hin as [[= -> ->] | Hin].
  - rewrite Hno in He; [discriminate|]. apply in_app_iff. right. now left.
  - apply (IH _ c ch Hin). intros x Hx. apply Hno. apply in_app_iff. now right.
Qed.

(** X10: a merge that succeeds returns a tail of the first candidate's
    chain with the candidate in front; the tail is not empty, each entry in
    front of it fails to match one of the other candidates, and each of the
    other candidates matches some entry of the list; with a single
    candidate the list is returned whole. *)
Theorem merge_returns_tail (c1 : Key) (ch1 : Chain) (rest : list (Key * Chain))
    (w : Chain) :
  mergeChains ((c1, ch1) :: rest) = Some w ->
  w <> [] /\
  (rest = [] -> w = Some c1 :: ch1) /\
  exists pre,
    Some c1 :: ch1 = pre ++ w /\
    (forall x, In x pre ->
               exists c ch, In (c, ch) rest /\ chainMatches c ch x = false) /\
    (forall c ch, In (c, ch) rest ->
                  exists e, In e (Some c1 :: ch1) /\ chainMatches c ch e = true).
Proof.
  intros Hm. apply mergeChains_spec in Hm.
  destruct Hm as [c1' [ch1' [rest' [pre [[= <- <- <-] [Hr [Hs Hne]]]]]]].
  split; [assumption|]. split.
  - intros ->. simpl in Hr. congruence.
  - destruct (mergeRemaining_trace _ _ _ Hr) as [pre' [Hs' [HM HN]]].
    exists pre'. split; [assumption|]. split.
    + intros x Hx. destruct (HN x Hx) as [c [ch [e [q1 [q2 [Hin [Hno _]]]]]]]. eauto.
    + intros c ch Hin. destruct (HM c ch Hin) as [e [l1 [l2 [l3 [Hl [He _]]]]]].
      exists e. split; [|assumption]. rewrite Hl. apply in_app_iff. right. now left.
Qed.

Lemma merge_returns_tail_witness :
  [Some 2; Some 1; None] <> [] /\
  ([(6, [Some 2; Some 1; None])] = [] -> [Some 2; Some 1; None] = Some 5 :: [Some 4; Some 2; Some 1; None]) /\
  exists pre,
    Some 5 :: [Some 4; Some 2; Some 1; None] = pre ++ [Some 2; Some 1; None] /\
    (forall x, In x pre ->
               exists c ch, In (c, ch) [(6, [Some 2; Some 1; None])] /\
                            chainMatches c ch x = false) /\
    (forall c ch, In (c, ch) [(6, [Some 2; Some 1; None])] ->
                  exists e, In e (Some 5 :: [Some 4; Some 2; Some 1; None]) /\
                            chainMatches c ch e = true).
Proof.
  apply (merge_returns_tail 5 [Some 4; Some 2; Some 1; None]
           [(6, [Some 2; Some 1; None])] [Some 2; Some 1; None]).
  vm_compute. reflexivity.
Defined.

(** X11: when the chain of every candidate holds the end marker, the merge
    is not aborted, and its result holds the end marker as well. *)
Theorem merge_of_complete_chains (pdc : list (Key * Chain)) :
  pdc <> [] ->
  (forall c ch, In (c, ch) pdc -> In None ch) ->
  exists w, mergeChains pdc = Some w /\ In None w.
Proof.
  intros Hne Hall. destruct pdc as [|[c1 ch1] rest]; [contradiction|].
  destruct (mergeRemaining_complete rest (Some c1 :: ch1)) as [w [Hw Hc]].
  - right. apply (Hall c1). now left.
  - intros c ch H. apply (Hall c). now right.
  - exists w. unfold complete in Hc. split; [|assumption].
    simpl. rewrite Hw. destruct w; [contradiction | reflexivity].
Qed.

Lemma merge_of_complete_chains_witness :
  exists w, mergeChains [(1, [None]); (2, [None])] = Some w /\ In None w.
Proof.
  apply (merge_of_complete_chains [(1, [None]); (2, [None])]).
  - discriminate.
  - simpl. intros c ch [[= <- <-] | [[= <- <-] | []]]; simpl; tauto.
Defined.

(** X12: when some candidate other than the first matches no entry of the
    first candidate's chain with that candidate in front, the merge is
    aborted and the node stays pending. *)
Theorem merge_of_disjoint_chains (c1 : Key) (ch1 : Chain) (rest : list (Key * Chain))
    (c : Key) (ch : Chain) :
  In (c, ch) rest ->
  (forall x, In x (Some c1 :: ch1) -> x <> Some c /\ ~ In x ch) ->
  mergeChains ((c1, ch1) :: rest) = None.
Proof.
  intros Hin Hno. unfold mergeChains.
  rewrite (mergeRemaining_disjoint rest (Some c1 :: ch1) c ch Hin); [reflexivity|].
  intros x Hx. destruct (chainMatches c ch x) eqn:E; [|reflexivity].
  apply chainMatches_spec in E. destruct (Hno x Hx) as [H1 H2].
  destruct E; contradiction.
Qed.

Lemma merge_of_disjoint_chains_witness :
  mergeChains ((1, [None]) :: [(3, [Some 2])]) = None.
Proof.
  apply (merge_of_disjoint_chains 1 [None] [(3, [Some 2])] 3 [Some 2]).
  - simpl. tauto.
  - simpl. intros x [<- | [<- | []]]; split; try discriminate;
      intros [H | []]; discriminate.
Defined.

(** * Properties of the test helpers *)

Lemma flat_map_nil_iff (A B : Type) (f : A -> list B) (l : list A) :
  flat_map f l = [] <-> forall x, In x l -> f x = [].
Proof.
  induction l as [|a l IH]; simpl.
  - split; [intros _ x [] | reflexivity].
  - split.
    + intros H. apply app_eq_nil in H. destruct H as [Ha Hl].
      intros x [<- | Hx]; [assumption | now apply IH].
    + intros H. rewrite (H a (or_introl eq_refl)). simpl. apply IH.
      intros x Hx. apply H. now right.
Qed.

Lemma flat_map_short (A B : Type) (f : A -> list B) (l : list A) :
  (forall x, length (f x) <= 1) -> length (flat_map f l) <= length l.
Proof.
  intros H. induction l as [|a l IH]; simpl; [lia|].
  rewrite length_app. specialize (H a). lia.
Qed.

Lemma nth_error_defined (A : Type) (l : list A) (i : nat) :
  i < length l -> exists x, nth_error l i = Some x.
Proof.
  intros H. destruct (nth_error l i) eqn:E; [eauto|].
  apply nth_error_None in E. lia.
Qed.

Lemma nth_error_in_range (A : Type) (l : list A) (i : nat) (x : A) :
  nth_error l i = Some x -> i < length l.
Proof. intros H. apply nth_error_Some. congruence. Qed.

Lemma Forall2_nth_error_iff (A B : Type) (R : A -> B -> Prop) (l1 : list A) :
  forall l2, length l1 = length l2 ->
    (Forall2 R l1 l2 <->
     forall i x y, nth_error l1 i = Some x -> nth_error l2 i = Some y -> R x y).
Proof.
  induction l1 as [|a l1 IH]; intros [|b l2] Hlen; simpl in Hlen; try discriminate.
  - split; [|constructor]. intros _ [|i] x y; discriminate.
  - injection Hlen as Hlen. split.
    + intros H. inversion H; subst. intros [|i] x y; simpl.
      * intros [= <-] [= <-]. assumption.
      * now apply IH.
    + intros H. constructor.
      * apply (H 0); reflexivity.
      * apply IH; [assumption|]. intros i x y. apply (H (S i)).
Qed.

Section CheckFacts.

Import EmulationHelper.

Variables Input Result : Type.
Variable compare : Result -> Result -> bool.
Variable inputToString : Input -> String.string.
Variable resultToString : Result -> String.string.
Variable opName : String.string.

(** X13: [checkUnaryResults] on arrays of [N] entries calls [onError] for
    no index exactly when every output is accepted by the comparison against
    the operation on the input of the same index, and it never makes more
    than [N] calls; a call reports the rendering of an output that the
    comparison rejects. *)
Theorem checkUnaryResults_reports (N : nat) (input : list Input)
    (output : list Result) (op : Input -> Result) :
  length input = N -> length output = N ->
  (checkUnaryResults Input Result compare inputToString resultToString opName
     N input output op = [] <->
   Forall2 (fun x y => compare y (op x) = true) input output) /\
  length (checkUnaryResults Input Result compare inputToString resultToString opName
            N input output op) <= N /\
  (forall e r,
      In (e, r) (checkUnaryResults Input Result compare inputToString resultToString
                   opName N input output op) ->
      exists i x y, nth_error input i = Some x /\ nth_error output i = Some y /\
                    compare y (op x) = false /\ r = resultToString y).
Proof.
  intros Hi Ho. unfold checkUnaryResults. split; [|split].
  - rewrite flat_map_nil_iff.
    rewrite (Forall2_nth_error_iff _ _ _ input output) by congruence.
    split.
    + intros H i x y Hx Hy.
      assert (Hin : In i (seq 0 N)).
      { apply in_seq. apply nth_error_in_range in Hx. lia. }
      specialize (H i Hin). rewrite Hx, Hy in H.
      destruct (compare y (op x)); [reflexivity | discriminate].
    + intros H i _.
      destruct (nth_error input i) as [x|] eqn:Hx; [|reflexivity].
      destruct (nth_error output i) as [y|] eqn:Hy; [|reflexivity].
      now rewrite (H i x y Hx Hy).
  - rewrite <- (length_seq N 0) at 2. apply flat_map_short. intros i.
    destruct (nth_error input i) as [x|]; [|simpl; lia].
    destruct (nth_error output i) as [y|]; [|simpl; lia].
    destruct (compare y (op x)); simpl; lia.
  - intros e r Hin. apply in_flat_map in Hin. destruct Hin as [i [_ Hin]].
    destruct (nth_error input i) as [x|] eqn:Hx; [|contradiction].
    destruct (nth_error output i) as [y|] eqn:Hy; [|contradiction].
    destruct (compare y (op x)) eqn:Hc; [contradiction|].
    destruct Hin as [[= <- <-] | []]. exists i, x, y. auto.
Qed.

(** X14: [checkBinaryResults] on arrays of [N] entries makes no call of
    [onError] exactly when at every index the output is accepted against the
    operation on the two inputs; a call reports the rendering of an output
    that the comparison rejects. *)
Theorem checkBinaryResults_reports (N : nat) (input0 input1 : list Input)
    (output : list Result) (op : Input -> Input -> Result) :
  length input0 = N -> length input1 = N -> length output = N ->
  (checkBinaryResults Input Result compare inputToString resultToString opName
     N input0 input1 output op = [] <->
   forall i, i < N ->
     exists x0 x1 y, nth_error input0 i = Some x0 /\ nth_error input1 i = Some x1 /\
                     nth_error output i = Some y /\ compare y (op x0 x1) = true) /\
  (forall e r,
      In (e, r) (checkBinaryResults Input Result compare inputToString resultToString
                   opName N input0 input1 output op) ->
      exists i x0 x1 y,
        nth_error input0 i = Some x0 /\ nth_error input1 i = Some x1 /\
        nth_error output i = Some y /\ compare y (op x0 x1) = false /\
        r = resultToString y).
Proof.
  intros H0 H1 Ho. unfold checkBinaryResults. split.
  - rewrite flat_map_nil_iff. split.
    + intros H i Hi.
      destruct (nth_error_defined _ input0 i) as [x0 E0]; [lia|].
      destruct (nth_error_defined _ input1 i) as [x1 E1]; [lia|].
      destruct (nth_error_defined _ output i) as [y Ey]; [lia|].
      exists x0, x1, y. repeat split; try assumption.
      specialize (H i). rewrite E0, E1, Ey in H.
      destruct (compare y (op x0 x1)); [reflexivity|].
      discriminate H. apply in_seq. lia.
    + intros H i Hin. apply in_seq in Hin.
      destruct (H i) as [x0 [x1 [y [E0 [E1 [Ey Hc]]]]]]; [lia|].
      now rewrite E0, E1, Ey, Hc.
  - intros e r Hin. apply in_flat_map in Hin. destruct Hin as [i [_ Hin]].
    destruct (nth_error input0 i) as [x0|] eqn:E0; [|contradiction].
    destruct (nth_error input1 i) as [x1|] eqn:E1; [|contradiction].
    destruct (nth_error output i) as [y|] eqn:Ey; [|contradiction].
    destruct (compare y (op x0 x1)) eqn:Hc; [contradiction|].
    destruct Hin as [[= <- <-] | []]. exists i, x0, x1, y. auto.
Qed.

(** X15: [checkTernaryResults] on arrays of [N] entries makes no call of
    [onError] exactly when at every index the output is accepted against the
    operation on the three inputs. *)
Theorem checkTernaryResults_silent (N : nat) (input0 input1 input2 : list Input)
    (output : list Result) (op : Input -> Input -> Input -> Result) :
  length input0 = N -> length input1 = N -> length input2 = N -> length output = N ->
  (checkTernaryResults Input Result compare inputToString resultToString opName
     N input0 input1 input2 output op = [] <->
   forall i, i < N ->
     exists x0 x1 x2 y,
       nth_error input0 i = Some x0 /\ nth_error input1 i = Some x1 /\
       nth_error input2 i = Some x2 /\ nth_error output i = Some y /\
       compare y (op x0 x1 x2) = true).
Proof.
  intros H0 H1 H2 Ho. unfold checkTernaryResults.
  rewrite flat_map_nil_iff. split.
  - intros H i Hi.
    destruct (nth_error_defined _ input0 i) as [x0 E0]; [lia|].
    destruct (nth_error_defined _ input1 i) as [x1 E1]; [lia|].
    destruct (nth_error_defined _ input2 i) as [x2 E2]; [lia|].
    destruct (nth_error_defined _ output i) as [y Ey]; [lia|].
    exists x0, x1, x2, y. repeat split; try assumption.
    specialize (H i). rewrite E0, E1, E2, Ey in H.
    destruct (compare y (op x0 x1 x2)); [reflexivity|].
    discriminate H. apply in_seq. lia.
  - intros H i Hin. apply in_seq in Hin.
    destruct (H i) as [x0 [x1 [x2 [y [E0 [E1 [E2 [Ey Hc]]]]]]]]; [lia|].
    now rewrite E0, E1, E2, Ey, Hc.
Qed.

End CheckFacts.

Lemma checkUnaryResults_reports_witness :
  (EmulationHelper.checkUnaryResults nat nat Nat.eqb
     (fun _ => String.EmptyString) (fun _ => String.EmptyString) String.EmptyString
     3 [1; 2; 3] [2; 3; 5] S = [] <->
   Forall2 (fun x y => Nat.eqb y (S x) = true) [1; 2; 3] [2; 3; 5]) /\
  length (EmulationHelper.checkUnaryResults nat nat Nat.eqb
            (fun _ => String.EmptyString) (fun _ => String.EmptyString)
            String.EmptyString 3 [1; 2; 3] [2; 3; 5] S) <= 3 /\
  (forall e r,
      In (e, r) (EmulationHelper.checkUnaryResults nat nat Nat.eqb
                   (fun _ => String.EmptyString) (fun _ => String.EmptyString)
                   String.EmptyString 3 [1; 2; 3] [2; 3; 5] S) ->
      exists i x y, nth_error [1; 2; 3] i = Some x /\ nth_error [2; 3; 5] i = Some y /\
                    Nat.eqb y (S x) = false /\ r = String.EmptyString).
Proof.
  apply (checkUnaryResults_reports nat nat Nat.eqb
           (fun _ => String.EmptyString) (fun _ => String.EmptyString)
           String.EmptyString 3 [1; 2; 3] [2; 3; 5] S); reflexivity.
Defined.

Lemma checkBinaryResults_reports_witness :
  (EmulationHelper.checkBinaryResults nat nat Nat.eqb
     (fun _ => String.EmptyString) (fun _ => String.EmptyString) String.EmptyString
     2 [1; 2] [3; 4] [4; 6] Nat.add = [] <->
   forall i, i < 2 ->
     exists x0 x1 y, nth_error [1; 2] i = Some x0 /\ nth_error [3; 4] i = Some x1 /\
                     nth_error [4; 6] i = Some y /\ Nat.eqb y (x0 + x1) = true) /\
  (forall e r,
      In (e, r) (EmulationHelper.checkBinaryResults nat nat Nat.eqb
                   (fun _ => String.EmptyString) (fun _ => String.EmptyString)
                   String.EmptyString 2 [1; 2] [3; 4] [4; 6] Nat.add) ->
      exists i x0 x1 y,
        nth_error [1; 2] i = Some x0 /\ nth_error [3; 4] i = Some x1 /\
        nth_error [4; 6] i = Some y /\ Nat.eqb y (x0 + x1) = false /\
        r = String.EmptyString).
Proof.
  apply (checkBinaryResults_reports nat nat Nat.eqb
           (fun _ => String.EmptyString) (fun _ => String.EmptyString)
           String.EmptyString 2 [1; 2] [3; 4] [4; 6] Nat.add); reflexivity.
Defined.

Lemma checkTernaryResults_silent_witness :
  EmulationHelper.checkTernaryResults nat nat Nat.eqb
    (fun _ => String.EmptyString) (fun _ => String.EmptyString) String.EmptyString
    2 [1; 2] [3; 4] [5; 6] [9; 12] (fun a b c => a + b + c) = [] <->
  forall i, i < 2 ->
    exists x0 x1 x2 y,
      nth_error [1; 2] i = Some x0 /\ nth_error [3; 4] i = Some x1 /\
      nth_error [5; 6] i = Some x2 /\ nth_error [9; 12] i = Some y /\
      Nat.eqb y (x0 + x1 + x2) = true.
Proof.
  apply (checkTernaryResults_silent nat nat Nat.eqb
           (fun _ => String.EmptyString) (fun _ => String.EmptyString)
           String.EmptyString 2 [1; 2] [3; 4] [5; 6] [9; 12]
           (fun a b c => a + b + c)); reflexivity.
Defined.

(** ** [toString] *)

Lemma string_append_assoc (a b c : String.string) :
  String.append (String.append a b) c = String.append a (String.append b c).
Proof. induction a as [|x a IH]; simpl; [reflexivity | now rewrite IH]. Qed.

Lemma string_append_nil_r (a : String.string) : String.append a String.EmptyString = a.
Proof. induction a as [|x a IH]; simpl; [reflexivity | now rewrite IH]. Qed.

Section ToStringFacts.

Import String.
Local Open Scope string_scope.

Lemma toString_from (T : Type) (to_string : T -> String.string) (l : list T) :
  forall acc,
    fold_left (fun s v => s ++ ", " ++ to_string v) l acc
    = acc ++ EmulationHelper.toString to_string l.
Proof.
  unfold EmulationHelper.toString.
  induction l as [|v l IH]; intros acc; cbn [fold_left].
  - now rewrite string_append_nil_r.
  - rewrite (IH (acc ++ ", " ++ to_string v)), (IH ("" ++ ", " ++ to_string v)).
    change ("" ++ ", " ++ to_string v) with (", " ++ to_string v).
    now rewrite string_append_assoc.
Qed.

(** X16: [toString] puts the separator in front of every element, the
    first one included: the text of a container with a first element starts
    with [", "], only the empty container gives the empty text, and the text
    of two containers one after the other is the two texts one after the
    other. *)
Theorem toString_separators (T : Type) (to_string : T -> String.string)
    (v : T) (l l' : list T) :
  EmulationHelper.toString to_string (v :: l)
  = ", " ++ to_string v ++ EmulationHelper.toString to_string l /\
  (EmulationHelper.toString to_string l = "" <-> l = []) /\
  EmulationHelper.toString to_string (l ++ l')
  = EmulationHelper.toString to_string l ++ EmulationHelper.toString to_string l'.
Proof.
  assert (Hcons : forall x r,
             EmulationHelper.toString to_string (x :: r)
             = ", " ++ to_string x ++ EmulationHelper.toString to_string r).
  { intros x r. unfold EmulationHelper.toString at 1. cbn [fold_left].
    rewrite toString_from.
    change ("" ++ ", " ++ to_string x) with (", " ++ to_string x).
    now rewrite string_append_assoc. }
  split; [apply Hcons|]. split.
  - split.
    + destruct l as [|x r]; [reflexivity|]. rewrite Hcons. discriminate.
    + now intros ->.
  - unfold EmulationHelper.toString at 1. rewrite fold_left_app.
    fold (EmulationHelper.toString to_string l). apply toString_from.
Qed.

End ToStringFacts.

(** ** The checks of reduced and grouped results *)

Lemma groupStarts_multiples (GroupSize m : nat) :
  0 < GroupSize ->
  forall d fuel j,
    j + d = m -> d <= fuel ->
    EmulationHelper.groupStarts GroupSize (m * GroupSize) fuel (j * GroupSize)
    = map (fun g => g * GroupSize) (seq j d).
Proof.
  intros HG. induction d as [|d IH]; intros fuel j Hj Hf.
  - assert (j = m) by lia. subst j. destruct fuel; simpl; [reflexivity|].
    now rewrite Nat.ltb_irrefl.
  - destruct fuel as [|fuel]; [lia|]. simpl.
    assert (E : Nat.ltb (j * GroupSize) (m * GroupSize) = true).
    { apply Nat.ltb_lt. apply Nat.mul_lt_mono_pos_r; lia. }
    rewrite E. f_equal.
    replace (j * GroupSize + GroupSize) with (S j * GroupSize) by (simpl; lia).
    apply IH; lia.
Qed.

Lemma groupStarts_all (GroupSize m : nat) :
  0 < GroupSize ->
  EmulationHelper.groupStarts GroupSize (m * GroupSize) (m * GroupSize) 0
  = map (fun g => g * GroupSize) (seq 0 m).
Proof.
  intros HG. apply (groupStarts_multiples GroupSize m HG m (m * GroupSize) 0).
  - reflexivity.
  - destruct GroupSize; [lia|]. rewrite Nat.mul_succ_r. lia.
Qed.

Lemma flat_map_same (A B : Type) (f g : A -> list B) (l : list A) :
  (forall x, In x l -> f x = g x) -> flat_map f l = flat_map g l.
Proof.
  induction l as [|a l IH]; intros H; simpl; [reflexivity|].
  rewrite (H a (or_introl eq_refl)), IH; [reflexivity|].
  intros x Hx. apply H. now right.
Qed.

Section GroupFacts.

Import EmulationHelper.

Variables Input Result : Type.
Variable compare : Result -> Result -> bool.
Variable inputToString : Input -> String.string.
Variable resultToString : Result -> String.string.
Variable opName : String.string.

(** X17: [checkUnaryReducedResults] with [N] a multiple of the group size
    visits the groups of the input in turn and compares the reduction of
    group [g] with the output at index [g]: it makes no call of [onError]
    exactly when all these comparisons accept, and the outputs from index
    [N / GroupSize] on are never read. *)
Theorem checkUnaryReducedResults_reports (GroupSize m : nat) (input : list Input)
    (output output' : list Result) (op : list Input -> Result) :
  0 < GroupSize -> m <= length output ->
  firstn m output' = firstn m output ->
  (checkUnaryReducedResults Input Result compare inputToString resultToString opName
     (m * GroupSize) GroupSize input output op = [] <->
   forall g, g < m ->
     exists y, nth_error output g = Some y /\
               compare y (op (groupAt GroupSize input (g * GroupSize))) = true) /\
  checkUnaryReducedResults Input Result compare inputToString resultToString opName
    (m * GroupSize) GroupSize input output' op
  = checkUnaryReducedResults Input Result compare inputToString resultToString opName
      (m * GroupSize) GroupSize input output op.
Proof.
  intros HG Hlen Hsame. unfold checkUnaryReducedResults.
  rewrite (groupStarts_all GroupSize m HG). split.
  - rewrite flat_map_nil_iff. split.
    + intros H g Hg.
      destruct (nth_error_defined _ output g) as [y Ey]; [lia|].
      exists y. split; [assumption|].
      specialize (H (g * GroupSize)).
      rewrite Nat.div_mul in H by lia. rewrite Ey in H. simpl in H.
      destruct (compare y (op (groupAt GroupSize input (g * GroupSize))));
        [reflexivity|].
      discriminate H. apply in_map_iff. exists g. split; [reflexivity|].
      apply in_seq. lia.
    + intros H i Hin. apply in_map_iff in Hin. destruct Hin as [g [<- Hg]].
      apply in_seq in Hg. destruct (H g) as [y [Ey Hc]]; [lia|].
      rewrite Nat.div_mul by lia. rewrite Ey. simpl. now rewrite Hc.
  - apply flat_map_same. intros i Hin.
    apply in_map_iff in Hin. destruct Hin as [g [<- Hg]]. apply in_seq in Hg.
    rewrite Nat.div_mul by lia.
    assert (E : nth_error output' g = nth_error output g).
    { assert (Hlt : Nat.ltb g m = true) by (apply Nat.ltb_lt; lia).
      pose proof (nth_error_firstn m output' g) as E1.
      pose proof (nth_error_firstn m output g) as E2.
      rewrite Hlt in E1, E2. rewrite <- E1, <- E2, Hsame. reflexivity. }
    now rewrite E.
Qed.

End GroupFacts.

Section GroupedFacts.

Import EmulationHelper.

Variable T : Type.
Variable compareGroups : list T -> list T -> bool.
Variable to_string : T -> String.string.
Variable opName : String.string.

(** X18: [checkUnaryGroupedResults] with [N] a multiple of the group size
    makes no call of [onError] exactly when every group of the output is
    accepted against the operation on the group of the input at the same
    place. *)
Theorem checkUnaryGroupedResults_silent (GroupSize m : nat) (input output : list T)
    (op : list T -> list T) :
  0 < GroupSize ->
  (checkUnaryGroupedResults T compareGroups to_string opName
     (m * GroupSize) GroupSize input output op = [] <->
   forall g, g < m ->
     compareGroups (groupAt GroupSize output (g * GroupSize))
                   (op (groupAt GroupSize input (g * GroupSize))) = true).
Proof.
  intros HG. unfold checkUnaryGroupedResults.
  rewrite (groupStarts_all GroupSize m HG), flat_map_nil_iff. split.
  - intros H g Hg. specialize (H (g * GroupSize)). simpl in H.
    destruct (compareGroups (groupAt GroupSize output (g * GroupSize))
                (op (groupAt GroupSize input (g * GroupSize)))); [reflexivity|].
    discriminate H. apply in_map_iff. exists g. split; [reflexivity|].
    apply in_seq. lia.
  - intros H i Hin. apply in_map_iff in Hin. destruct Hin as [g [<- Hg]].
    apply in_seq in Hg. simpl. rewrite H by lia. reflexivity.
Qed.

End GroupedFacts.

Lemma checkUnaryReducedResults_reports_witness :
  (EmulationHelper.checkUnaryReducedResults nat nat Nat.eqb
     (fun _ => String.EmptyString) (fun _ => String.EmptyString) String.EmptyString
     (2 * 2) 2 [1; 2; 3; 4] [3; 7; 0; 0] (fold_right Nat.add 0) = [] <->
   forall g, g < 2 ->
     exists y, nth_error [3; 7; 0; 0] g = Some y /\
               Nat.eqb y (fold_right Nat.add 0
                            (EmulationHelper.groupAt 2 [1; 2; 3; 4] (g * 2))) = true) /\
  EmulationHelper.checkUnaryReducedResults nat nat Nat.eqb
    (fun _ => String.EmptyString) (fun _ => String.EmptyString) String.EmptyString
    (2 * 2) 2 [1; 2; 3; 4] [3; 7; 9; 9] (fold_right Nat.add 0)
  = EmulationHelper.checkUnaryReducedResults nat nat Nat.eqb
      (fun _ => String.EmptyString) (fun _ => String.EmptyString) String.EmptyString
      (2 * 2) 2 [1; 2; 3; 4] [3; 7; 0; 0] (fold_right Nat.add 0).
Proof.
  apply (checkUnaryReducedResults_reports nat nat Nat.eqb
           (fun _ => String.EmptyString) (fun _ => String.EmptyString)
           String.EmptyString 2 2 [1; 2; 3; 4] [3; 7; 0; 0] [3; 7; 9; 9]
           (fold_right Nat.add 0)).
  - lia.
  - simpl. lia.
  - reflexivity.
Defined.

Lemma checkUnaryGroupedResults_silent_witness :
  EmulationHelper.checkUnaryGroupedResults nat
    (fun a b => if list_eq_dec Nat.eq_dec a b then true else false)
    (fun _ => String.EmptyString) String.EmptyString
    (2 * 2) 2 [1; 2; 3; 4] [2; 1; 4; 3] (@rev nat) = [] <->
  forall g, g < 2 ->
    (if list_eq_dec Nat.eq_dec (EmulationHelper.groupAt 2 [2; 1; 4; 3] (g * 2))
                    (rev (EmulationHelper.groupAt 2 [1; 2; 3; 4] (g * 2)))
     then true else false) = true.
Proof.
  apply (checkUnaryGroupedResults_silent nat
           (fun a b => if list_eq_dec Nat.eq_dec a b then true else false)
           (fun _ => String.EmptyString) String.EmptyString
           2 2 [1; 2; 3; 4] [2; 1; 4; 3] (@rev nat)).
  lia.
Defined.

(** ** [generateInput] *)

Section GenerateFacts.

Import EmulationHelper.

Variable draw : nat -> Z.

Lemma drawElement_kept (fuel : nat) (allowNull : bool) :
  forall k tmp k',
    drawElement draw fuel allowNull k = Some (tmp, k') ->
    k < k' /\ tmp = draw (k' - 1) /\ (allowNull = false -> tmp <> 0%Z) /\
    (allowNull = true -> k' = S k).
Proof.
  induction fuel as [|fuel IH]; intros k tmp k'; simpl; [discriminate|].
  destruct (negb allowNull && Z.eqb (draw k) 0) eqn:E.
  - intros H. destruct (IH _ _ _ H) as [H1 [H2 [H3 H4]]].
    split; [lia|]. split; [assumption|]. split; [assumption|].
    intros ->. simpl in E. discriminate.
  - intros [= <- <-]. split; [lia|]. split; [f_equal; lia|]. split; [|reflexivity].
    intros ->. simpl in E. intros H0. rewrite H0 in E. discriminate.
Qed.

Lemma generateFrom_result (fuel : nat) (allowNull : bool) (n : nat) :
  forall k arr,
    generateFrom draw fuel allowNull n k = Some arr ->
    length arr = n /\
    (forall v, In v arr -> exists i, v = draw i) /\
    (allowNull = false -> ~ In 0%Z arr) /\
    (allowNull = true -> arr = map draw (seq k n)).
Proof.
  induction n as [|n IH]; intros k arr; simpl.
  - intros [= <-]. split; [reflexivity|]. split; [intros v []|].
    split; [intros _ [] | reflexivity].
  - destruct (drawElement draw fuel allowNull k) as [[tmp k']|] eqn:E; [|discriminate].
    destruct (generateFrom draw fuel allowNull n k') as [rest|] eqn:G; [|discriminate].
    intros [= <-]. destruct (IH _ _ G) as [H1 [H2 [H3 H4]]].
    destruct (drawElement_kept _ _ _ _ _ E) as [D1 [D2 [D3 D4]]].
    split; [simpl; now rewrite H1|]. split; [|split].
    + intros v [<- | Hv]; eauto.
    + intros Ha [H0 | Hin]; [now apply (D3 Ha) | now apply (H3 Ha)].
    + intros Ha. rewrite (H4 Ha), D2, (D4 Ha). simpl. rewrite Nat.sub_0_r. reflexivity.
Qed.

(** X19: an array that [generateInput] returns has [N] entries, each of
    them a number drawn from the distribution; without [allowNull] none of
    them is zero, and with [allowNull] they are the first [N] draws. *)
Theorem generateInput_result (fuel N : nat) (allowNull : bool) (arr : list Z) :
  generateInput draw fuel N allowNull = Some arr ->
  length arr = N /\
  (forall v, In v arr -> exists k, v = draw k) /\
  (allowNull = false -> ~ In 0%Z arr) /\
  (allowNull = true -> arr = map draw (seq 0 N)).
Proof. apply generateFrom_result. Qed.

(** X20: without [allowNull], a distribution over the range from 0 to 0
    makes [generateInput] for at least one entry draw for ever: it returns
    for no bound on the number of draws. *)
Theorem generateInput_zero_range (lo hi : Z) (fuel N : nat) :
  (forall k, (lo <= draw k <= hi)%Z) -> lo = 0%Z -> hi = 0%Z -> 0 < N ->
  generateInput draw fuel N false = None.
Proof.
  intros Hrange -> -> HN.
  assert (Hz : forall k, draw k = 0%Z) by (intros k; specialize (Hrange k); lia).
  assert (Hd : forall f k, drawElement draw f false k = None).
  { induction f as [|f IH]; intros k; simpl; [reflexivity|].
    rewrite Hz. simpl. apply IH. }
  unfold generateInput. destruct N as [|n]; [lia|]. simpl. now rewrite Hd.
Qed.

(** X21: without [allowNull], when every run of zeros among the draws is
    shorter than [bound], each entry is found within [bound] draws and
    [generateInput] returns. *)
Theorem generateInput_returns (bound N : nat) :
  (forall k, exists j, j < bound /\ draw (k + j) <> 0%Z) ->
  exists arr, generateInput draw bound N false = Some arr.
Proof.
  intros Hruns.
  assert (Hd : forall f k, (exists j, j < f /\ draw (k + j) <> 0%Z) ->
                           exists r, drawElement draw f false k = Some r).
  { induction f as [|f IH]; intros k [j [Hj Hnz]]; [lia|]. simpl.
    destruct (Z.eqb (draw k) 0) eqn:E; [|eauto]. simpl.
    apply IH. destruct j as [|j].
    - rewrite Nat.add_0_r in Hnz. apply Z.eqb_eq in E. contradiction.
    - exists j. split; [lia|]. now rewrite Nat.add_succ_comm. }
  unfold generateInput. generalize 0 as k.
  induction N as [|n IH]; intros k; simpl; [eauto|].
  destruct (Hd bound k (Hruns k)) as [[tmp k'] E]. rewrite E.
  destruct (IH k') as [arr G]. rewrite G. eauto.
Qed.

End GenerateFacts.

Lemma generateInput_result_witness :
  length [1%Z; 3%Z] = 2 /\
  (forall v, In v [1%Z; 3%Z] ->
             exists k, v = (fun i => if Nat.even i then 0%Z else Z.of_nat i) k) /\
  (false = false -> ~ In 0%Z [1%Z; 3%Z]) /\
  (false = true ->
   [1%Z; 3%Z] = map (fun i => if Nat.even i then 0%Z else Z.of_nat i) (seq 0 2)).
Proof.
  apply (generateInput_result (fun i => if Nat.even i then 0%Z else Z.of_nat i)
           4 2 false [1%Z; 3%Z]).
  vm_compute. reflexivity.
Defined.

Lemma generateInput_zero_range_witness :
  EmulationHelper.generateInput (fun _ => 0%Z) 100 1 false = None.
Proof.
  apply (generateInput_zero_range (fun _ => 0%Z) 0%Z 0%Z 100 1).
  - intros k. lia.
  - reflexivity.
  - reflexivity.
  - lia.
Defined.

Lemma generateInput_returns_witness :
  exists arr,
    EmulationHelper.generateInput
      (fun i => if Nat.even i then 0%Z else 7%Z) 2 3 false = Some arr.
Proof.
  apply (generateInput_returns (fun i => if Nat.even i then 0%Z else 7%Z) 2 3).
  intros k. destruct (Nat.even k) eqn:E.
  - exists 1. split; [lia|]. rewrite Nat.add_1_r, Nat.even_succ.
    rewrite <- Nat.negb_even, E. discriminate.
  - exists 0. split; [lia|]. rewrite Nat.add_0_r, E. discriminate.
Defined.
